(** * evio: the epoll-driven server loop (evio_unix.go)

    A shallow embedding of the reactor of [evio_unix.go]: the per-loop
    connection state machine ([loopAccept], [loopOpened], [loopWrite],
    [loopAction], [loopRead], [loopCloseConn]), the poller handler
    ([OnEvent], [OnFdEvent]), [conn.Write] and [serve].

    Modelling choices.
    - Go pointers: a [*conn] is an address [ptr] into the server-wide
      [heap]; a [*loop] is the position of the loop in [s.loops].  The
      fd map of a loop holds addresses, as the Go map holds pointers, so
      a queued [writeEvent] and the map alias the same connection.
    - System calls do not run inside the model: their results are the
      fields of a [kernel] record handed to each handler invocation.
    - User callbacks are state-passing functions over a user state [U];
      they see the connection but do not reach into the server: a
      [conn.Write] made by user code is a step of its own.
    - Every callback invocation and system call is appended to the
      [trace] of the server, oldest first.
    - Each handler invocation is one atomic step of its loop. *)

From Stdlib Require Import ZArith Strings.Byte.
From stdpp Require Import gmap list.

Local Open Scope Z_scope.

(** ** Enumerations *)

(** Modelled from the spec: the declaration of [Action] is not part of the
    sources at hand.  The spec lists [None], [Close] and [Shutdown]; the
    Go type is an integer, so [Other] stands for every further value. *)
Module Action.
Inductive t := None | Close | Shutdown | Other (code : Z).

Definition is_None (a : t) : bool :=
  match a with None => true | _ => false end.
End Action.

Global Instance Action_eq_dec : EqDecision Action.t.
Proof. solve_decision. Defined.

(** Modelled from the spec: the declaration of [LoadBalance] is not part
    of the sources at hand. *)
Inductive LoadBalance := Random | RoundRobin | LeastConnections.

(** Go [error] values met by the loop: a [syscall.Errno] or the internal
    sentinel [errClosing].  A nil error is [None : option error]. *)
Inductive error := Errno (code : Z) | errClosing.

Definition EAGAIN : error := Errno 11.

Global Instance error_eq_dec : EqDecision error.
Proof. solve_decision. Defined.

(** Modelled from the spec: the user-event tags of the internal poller
    ([internal.EventClose], [internal.EventTick], [internal.EventWrite]);
    [EventOther] stands for every other [uint64]. *)
Inductive Event := EventClose | EventTick | EventWrite | EventOther (tag : Z).

Inductive Interest := Read | ReadWrite.

Global Instance Interest_eq_dec : EqDecision Interest.
Proof. solve_decision. Defined.

(** Addresses of connection objects. *)
Abbreviation ptr := nat (only parsing).

(** What the outside world can see of a run. *)
Inductive obs :=
| CallServing (numLoops : Z)
| CallOpened (c : ptr)
| CallClosed (c : ptr) (err : option error)
| CallData (c : ptr) (input : list byte) (aliasesPacket : bool)
| CallTick
| SysAccept (lnfd : Z)
| SysSetNonblock (fd : Z)
| SysClose (fd : Z)
| SysWrite (fd : Z) (data : list byte)
| SysRead (fd : Z)
| SysSetKeepAlive (fd secs : Z)
| PollFire (loop : nat) (ev : Event)
| PollClose (loop : nat).

(** Result of a call: the Go [error] it returns, a run-time panic (nil
    dereference, slice bounds out of range), or a caller parked on a send
    to a full channel. *)
Inductive res := Ret (err : option error) | Panic | Blocked.

(** ** Machine integers *)

Definition wrap_uintptr (z : Z) : Z := z mod 2 ^ 64.

(** [int(x)] for [x : uintptr] on a 64-bit target. *)
Definition int_of_uintptr (z : Z) : Z :=
  if z <? 2 ^ 63 then z else z - 2 ^ 64.

(** Two's complement [int32] arithmetic of [atomic.AddInt32]. *)
Definition wrap_int32 (z : Z) : Z := (z + 2 ^ 31) mod 2 ^ 32 - 2 ^ 31.

Definition len {A} (l : list A) : Z := Z.of_nat (length l).

(** ** The poller *)

(** Modelled from the spec: [internal.Poll] is not part of the sources at
    hand.  Section 4.1: the poller tracks fds and their interest; [Add*]
    register, [ModRead] narrows and [ModReadWrite] widens a registration;
    [FireEvent] enqueues a tag; [Close] releases the poller. *)
Record Poll := {
  interest : gmap Z Interest;
  fired : list Event;
  pclosed : bool
}.

Definition OpenPoll : Poll :=
  {| interest := ∅; fired := []; pclosed := false |}.

Definition set_interest (f : gmap Z Interest → gmap Z Interest) (p : Poll) : Poll :=
  {| interest := f (interest p); fired := fired p; pclosed := pclosed p |}.

Definition AddRead (fd : Z) : Poll → Poll := set_interest (insert fd Read).
Definition AddReadWrite (fd : Z) : Poll → Poll := set_interest (insert fd ReadWrite).
Definition ModRead (fd : Z) : Poll → Poll := set_interest (alter (λ _, Read) fd).
Definition ModReadWrite (fd : Z) : Poll → Poll := set_interest (alter (λ _, ReadWrite) fd).

Definition poll_enqueue (ev : Event) (p : Poll) : Poll :=
  {| interest := interest p; fired := fired p ++ [ev]; pclosed := pclosed p |}.

Definition poll_Close (p : Poll) : Poll :=
  {| interest := interest p; fired := fired p; pclosed := true |}.

(** The kernel drops a closed fd from the readiness set it was added to. *)
Definition poll_forget (fd : Z) : Poll → Poll := set_interest (delete fd).

Section Evio.

(** [U]: the state of the user's callbacks; [Sockaddr], [Addr]: the
    address types of [syscall] and [net]; [Ctx]: the user context. *)
Context {U Sockaddr Addr Ctx : Type}.
Variable SockaddrToAddr : Sockaddr → Addr.

(** [runtime.NumCPU()] *)
Variable NumCPU : Z.

(** ** Data model *)

Record conn := {
  c_fd : Z;
  out : list byte;
  sa : Sockaddr;
  reuse : bool;
  opened : bool;
  action : Action.t;
  ctx : option Ctx;
  localAddr : option Addr;
  remoteAddr : option Addr;
  c_loop : nat
}.

Record writeEvent := { w_c : ptr; w_data : list byte }.

Record loop := {
  idx : Z;
  poll : Poll;
  packet : list byte;
  fdconns : gmap Z ptr;
  count : Z;
  wch : list writeEvent
}.

(** [isTCP]: whether [ln.ln] is a [net.TCPListener] (the type assertion
    of [loopOpened]). *)
Record listener := {
  ln_fd : Z;
  lnaddr : Addr;
  isTCP : bool
}.

Record Options := {
  TCPKeepAlive : Z;
  ReuseInputBuffer : bool
}.

Record Server := { svr_NumLoops : Z; svr_Addr : Addr }.

(** A nil callback is [None]. *)
Record Events := {
  NumLoops : Z;
  ev_LoadBalance : LoadBalance;
  Serving : option (U → Server → U * Action.t);
  Opened : option (U → ptr → conn → U * (list byte * Options * Action.t));
  Closed : option (U → ptr → conn → option error → U * Action.t);
  Data : option (U → ptr → conn → list byte → U * (list byte * Action.t));
  Tick : option (U → U * (Z * Action.t))
}.

Record server := {
  events : Events;
  loops : list loop;
  ln : listener;
  balance : LoadBalance;
  accepted : Z;
  tch : list Z;
  heap : gmap ptr conn;
  nextptr : ptr;
  ustate : U;
  trace : list obs
}.

(** Answers of the kernel to the system calls of one handler run. *)
Record kernel := {
  k_accept : (Z * Sockaddr) + error;
  k_setnonblock : option error;
  k_keepalive : option error;
  k_write : Z + error;
  k_read : list byte + error;
  k_fire : option error
}.

Definition writeEventBuf : Z := 128.
Definition second : Z := 1000000000.

(** ** Field updates *)

(** Store through a [*conn]. *)
Definition put_conn (p : ptr) (c : conn) (s : server) : server :=
  {| events := events s; loops := loops s; ln := ln s; balance := balance s;
     accepted := accepted s; tch := tch s; heap := <[p := c]> (heap s);
     nextptr := nextptr s; ustate := ustate s; trace := trace s |}.

Definition alloc_conn (c : conn) (s : server) : server :=
  {| events := events s; loops := loops s; ln := ln s; balance := balance s;
     accepted := accepted s; tch := tch s; heap := <[nextptr s := c]> (heap s);
     nextptr := S (nextptr s); ustate := ustate s; trace := trace s |}.

Definition upd_loop (li : nat) (f : loop → loop) (s : server) : server :=
  {| events := events s; loops := alter f li (loops s); ln := ln s;
     balance := balance s; accepted := accepted s; tch := tch s; heap := heap s;
     nextptr := nextptr s; ustate := ustate s; trace := trace s |}.

Definition set_loops (ls : list loop) (s : server) : server :=
  {| events := events s; loops := ls; ln := ln s;
     balance := balance s; accepted := accepted s; tch := tch s; heap := heap s;
     nextptr := nextptr s; ustate := ustate s; trace := trace s |}.

Definition set_accepted (a : Z) (s : server) : server :=
  {| events := events s; loops := loops s; ln := ln s; balance := balance s;
     accepted := a; tch := tch s; heap := heap s;
     nextptr := nextptr s; ustate := ustate s; trace := trace s |}.

Definition push_tch (d : Z) (s : server) : server :=
  {| events := events s; loops := loops s; ln := ln s; balance := balance s;
     accepted := accepted s; tch := tch s ++ [d]; heap := heap s;
     nextptr := nextptr s; ustate := ustate s; trace := trace s |}.

Definition set_ustate (u : U) (s : server) : server :=
  {| events := events s; loops := loops s; ln := ln s; balance := balance s;
     accepted := accepted s; tch := tch s; heap := heap s;
     nextptr := nextptr s; ustate := u; trace := trace s |}.

Definition emit (o : obs) (s : server) : server :=
  {| events := events s; loops := loops s; ln := ln s; balance := balance s;
     accepted := accepted s; tch := tch s; heap := heap s;
     nextptr := nextptr s; ustate := ustate s; trace := trace s ++ [o] |}.

Definition set_out (o : list byte) (c : conn) : conn :=
  {| c_fd := c_fd c; out := o; sa := sa c; reuse := reuse c; opened := opened c;
     action := action c; ctx := ctx c; localAddr := localAddr c;
     remoteAddr := remoteAddr c; c_loop := c_loop c |}.

Definition set_action (a : Action.t) (c : conn) : conn :=
  {| c_fd := c_fd c; out := out c; sa := sa c; reuse := reuse c; opened := opened c;
     action := a; ctx := ctx c; localAddr := localAddr c;
     remoteAddr := remoteAddr c; c_loop := c_loop c |}.

Definition set_reuse (b : bool) (c : conn) : conn :=
  {| c_fd := c_fd c; out := out c; sa := sa c; reuse := b; opened := opened c;
     action := action c; ctx := ctx c; localAddr := localAddr c;
     remoteAddr := remoteAddr c; c_loop := c_loop c |}.

(** [c.opened = true; c.localAddr = ...; c.remoteAddr = ...] *)
Definition set_opened (la ra : Addr) (c : conn) : conn :=
  {| c_fd := c_fd c; out := out c; sa := sa c; reuse := reuse c; opened := true;
     action := action c; ctx := ctx c; localAddr := Some la;
     remoteAddr := Some ra; c_loop := c_loop c |}.

Definition upd_poll (f : Poll → Poll) (l : loop) : loop :=
  {| idx := idx l; poll := f (poll l); packet := packet l; fdconns := fdconns l;
     count := count l; wch := wch l |}.

Definition upd_fdconns (f : gmap Z ptr → gmap Z ptr) (l : loop) : loop :=
  {| idx := idx l; poll := poll l; packet := packet l; fdconns := f (fdconns l);
     count := count l; wch := wch l |}.

(** [atomic.AddInt32(&l.count, d)] *)
Definition add_count (d : Z) (l : loop) : loop :=
  {| idx := idx l; poll := poll l; packet := packet l; fdconns := fdconns l;
     count := wrap_int32 (count l + d); wch := wch l |}.

Definition set_packet (b : list byte) (l : loop) : loop :=
  {| idx := idx l; poll := poll l; packet := b; fdconns := fdconns l;
     count := count l; wch := wch l |}.

Definition set_wch (w : list writeEvent) (l : loop) : loop :=
  {| idx := idx l; poll := poll l; packet := packet l; fdconns := fdconns l;
     count := count l; wch := w |}.

(** [syscall.Close(fd)] issued by loop [li]. *)
Definition sys_close (li : nat) (fd : Z) (s : server) : server :=
  emit (SysClose fd) (upd_loop li (upd_poll (poll_forget fd)) s).

(** ** Closing a connection *)

Definition loopCloseConn (li : nat) (p : ptr) (err : option error)
    (s : server) : server * res :=
  match loops s !! li, heap s !! p with
  | Some _, Some c =>
    let s := upd_loop li (add_count (-1)) s in
    let s := upd_loop li (upd_fdconns (delete (c_fd c))) s in
    let s := sys_close li (c_fd c) s in
    match Closed (events s) with
    | Some cb =>
      let '(u, a) := cb (ustate s) p c err in
      let s := emit (CallClosed p err) (set_ustate u s) in
      match a with
      | Action.Shutdown => (s, Ret (Some errClosing))
      | _ => (s, Ret None)
      end
    | None => (s, Ret None)
    end
  | _, _ => (s, Panic)
  end.

(** ** Accept and load balancing *)

(** The [LeastConnections] scan: some other loop has strictly fewer
    connections than [l]. *)
Definition someone_idler (l : loop) (ls : list loop) : bool :=
  existsb (λ lp, negb (idx lp =? idx l) && (count lp <? count l)) ls.

(** [int(atomic.LoadUintptr(&s.accepted)) % len(s.loops)] *)
Definition rr_turn (s : server) : Z :=
  Z.rem (int_of_uintptr (accepted s)) (len (loops s)).

(** The new connection of [loopAccept]: [&conn{fd: nfd, sa: sa, loop: l}]. *)
Definition new_conn (nfd : Z) (a : Sockaddr) (li : nat) : conn :=
  {| c_fd := nfd; out := []; sa := a; reuse := false; opened := false;
     action := Action.None; ctx := None; localAddr := None;
     remoteAddr := None; c_loop := li |}.

(** From [syscall.Accept] to the end of [loopAccept]. *)
Definition do_accept (li : nat) (k : kernel) (s : server) : server * res :=
  let s := emit (SysAccept (ln_fd (ln s))) s in
  match k_accept k with
  | inr err => if decide (err = EAGAIN) then (s, Ret None) else (s, Ret (Some err))
  | inl (nfd, a) =>
    let s := emit (SysSetNonblock nfd) s in
    match k_setnonblock k with
    | Some err => (s, Ret (Some err))
    | None =>
      let p := nextptr s in
      let s := alloc_conn (new_conn nfd a li) s in
      let s := upd_loop li (upd_fdconns (insert nfd p)) s in
      let s := upd_loop li (upd_poll (AddReadWrite nfd)) s in
      let s := upd_loop li (add_count 1) s in
      (s, Ret None)
    end
  end.

Definition loopAccept (li : nat) (k : kernel) (s : server) : server * res :=
  match loops s !! li with
  | None => (s, Panic)
  | Some l =>
    if 1 <? len (loops s) then
      match balance s with
      | LeastConnections =>
        if someone_idler l (loops s) then (s, Ret None) (* do not accept *)
        else do_accept li k s
      | RoundRobin =>
        if negb (rr_turn s =? idx l) then (s, Ret None) (* do not accept *)
        else do_accept li k (set_accepted (wrap_uintptr (accepted s + 1)) s)
      | Random => do_accept li k s
      end
    else do_accept li k s
  end.

(** ** The connection state machine *)

(** [if len(c.out) == 0 && c.action == None { l.poll.ModRead(c.fd) }] *)
Definition narrow_if_idle (li : nat) (c : conn) (s : server) : server :=
  if (len (out c) =? 0) && Action.is_None (action c)
  then upd_loop li (upd_poll (ModRead (c_fd c))) s
  else s.

(** [if len(c.out) != 0 || c.action != None { l.poll.ModReadWrite(c.fd) }] *)
Definition widen_if_busy (li : nat) (c : conn) (s : server) : server :=
  if negb (len (out c) =? 0) || negb (Action.is_None (action c))
  then upd_loop li (upd_poll (ModReadWrite (c_fd c))) s
  else s.

Definition loopOpened (li : nat) (p : ptr) (k : kernel) (s : server) : server * res :=
  match loops s !! li, heap s !! p with
  | Some _, Some c =>
    let c := set_opened (lnaddr (ln s)) (SockaddrToAddr (sa c)) c in
    let s := put_conn p c s in
    match Opened (events s) with
    | Some cb =>
      let '(u, (o, opts, a)) := cb (ustate s) p c in
      let s := emit (CallOpened p) (set_ustate u s) in
      let c := if 0 <? len o then set_out o c else c in
      let c := set_action a c in
      let c := set_reuse (ReuseInputBuffer opts) c in
      let s := put_conn p c s in
      if (0 <? TCPKeepAlive opts) && isTCP (ln s) then
        let s := emit (SysSetKeepAlive (c_fd c) (TCPKeepAlive opts ÷ second)) s in
        match k_keepalive k with
        | Some err => (s, Ret (Some err))
        | None => (narrow_if_idle li c s, Ret None)
        end
      else (narrow_if_idle li c s, Ret None)
    | None => (narrow_if_idle li c s, Ret None)
    end
  | _, _ => (s, Panic)
  end.

Definition loopWrite (li : nat) (p : ptr) (k : kernel) (s : server) : server * res :=
  match loops s !! li, heap s !! p with
  | Some _, Some c =>
    let s := emit (SysWrite (c_fd c) (out c)) s in
    match k_write k with
    | inr err =>
      if decide (err = EAGAIN) then (s, Ret None)
      else loopCloseConn li p (Some err) s
    | inl n =>
      if n =? len (out c) then
        let c := set_out [] c in
        (narrow_if_idle li c (put_conn p c s), Ret None)
      else if (0 <=? n) && (n <=? len (out c)) then
        let c := set_out (drop (Z.to_nat n) (out c)) c in
        (narrow_if_idle li c (put_conn p c s), Ret None)
      else (s, Panic) (* c.out[n:] out of range *)
    end
  | _, _ => (s, Panic)
  end.

Definition loopAction (li : nat) (p : ptr) (s : server) : server * res :=
  match loops s !! li, heap s !! p with
  | Some _, Some c =>
    match action c with
    | Action.Close => loopCloseConn li p None s
    | Action.Shutdown => (s, Ret (Some errClosing))
    | _ =>
      let c := set_action Action.None c in
      (narrow_if_idle li c (put_conn p c s), Ret None)
    end
  | _, _ => (s, Panic)
  end.

(** [syscall.Read(fd, packet)] that delivers [data]: the buffer afterwards. *)
Definition read_into (pkt data : list byte) : list byte :=
  data ++ drop (length data) pkt.

Definition loopRead (li : nat) (p : ptr) (k : kernel) (s : server) : server * res :=
  match loops s !! li, heap s !! p with
  | Some l, Some c =>
    let s := emit (SysRead (c_fd c)) s in
    match k_read k with
    | inr err =>
      if decide (err = EAGAIN) then (s, Ret None)
      else loopCloseConn li p (Some err) s
    | inl [] => loopCloseConn li p None s
    | inl data =>
      if len (packet l) <? len data then (s, Panic) (* l.packet[:n] out of range *)
      else
        let pkt := read_into (packet l) data in
        let s := upd_loop li (set_packet pkt) s in
        (* [in] is [l.packet[:n]] itself when [c.reuse], a copy otherwise *)
        let input := take (length data) pkt in
        match Data (events s) with
        | Some cb =>
          let '(u, (o, a)) := cb (ustate s) p c input in
          let s := emit (CallData p input (reuse c)) (set_ustate u s) in
          let c := set_action a c in
          let c := if 0 <? len o then set_out o c else c in
          (widen_if_busy li c (put_conn p c s), Ret None)
        | None => (widen_if_busy li c s, Ret None)
        end
    end
  | _, _ => (s, Panic)
  end.

(** ** The handler given to [Poll.Wait] *)

Definition OnEvent (li : nat) (ev : Event) (s : server) : server * res :=
  match loops s !! li with
  | None => (s, Panic)
  | Some l =>
    match ev with
    | EventClose => (s, Ret (Some errClosing))
    | EventTick =>
      match Tick (events s) with
      | None => (s, Panic) (* call of a nil func *)
      | Some cb =>
        let '(u, (delay, a)) := cb (ustate s) in
        let s := emit CallTick (set_ustate u s) in
        match a with
        | Action.Shutdown => (s, Ret (Some errClosing))
        | _ => (push_tch delay s, Ret None)
        end
      end
    | EventWrite =>
      match wch l with
      | wevent :: rest =>
        let s := upd_loop li (set_wch rest) s in
        match heap s !! w_c wevent with
        | None => (s, Panic)
        | Some c =>
          let c := set_out (out c ++ w_data wevent) c in
          let s := put_conn (w_c wevent) c s in
          (upd_loop li (upd_poll (ModReadWrite (c_fd c))) s, Ret None)
        end
      | [] => (s, Ret None) (* if nothing, continue *)
      end
    | EventOther _ => (s, Ret None)
    end
  end.

Definition OnFdEvent (li : nat) (fd : Z) (k : kernel) (s : server) : server * res :=
  match loops s !! li with
  | None => (s, Panic)
  | Some l =>
    match fdconns l !! fd with
    | None => loopAccept li k s
    | Some p =>
      match heap s !! p with
      | None => (s, Panic)
      | Some c =>
        if negb (opened c) then loopOpened li p k s
        else if negb (len (out c) =? 0) then loopWrite li p k s
        else if negb (Action.is_None (action c)) then loopAction li p s
        else loopRead li p k s
      end
    end
  end.

(** ** [conn.Write] *)

Definition conn_willWrite (p : ptr) (data : list byte) (k : kernel)
    (s : server) : server * res :=
  match heap s !! p with
  | None => (s, Panic)
  | Some c =>
    match loops s !! c_loop c with
    | None => (s, Panic)
    | Some l =>
      if len (wch l) <? writeEventBuf then
        let w := {| w_c := p; w_data := data |} in
        let s := upd_loop (c_loop c) (set_wch (wch l ++ [w])) s in
        let s := emit (PollFire (c_loop c) EventWrite) s in
        match k_fire k with
        | Some err => (s, Ret (Some err))
        | None => (upd_loop (c_loop c) (upd_poll (poll_enqueue EventWrite)) s, Ret None)
        end
      else (s, Blocked) (* the channel is full *)
    end
  end.

Definition conn_Write (p : ptr) (data : list byte) (k : kernel)
    (s : server) : server * res :=
  match heap s !! p with
  | None => (s, Panic)
  | Some c =>
    let s := emit (SysWrite (c_fd c) data) s in
    match k_write k with
    | inr err =>
      if decide (err = EAGAIN) then conn_willWrite p data k s
      else (s, Ret (Some err))
    | inl n =>
      if n <? len data then
        if 0 <=? n then conn_willWrite p (drop (Z.to_nat n) data) k s
        else (s, Panic) (* data[n:] out of range *)
      else (s, Ret None)
    end
  end.

(** ** [serve] *)

(** The number of loops [serve] settles on. *)
Definition serve_numLoops (ev : Events) : Z :=
  let numLoops := NumLoops ev in
  if numLoops <=? 0 then
    if numLoops =? 0 then 1 else NumCPU
  else numLoops.

(** [0xFFFF] *)
Definition packetSize : nat := Z.to_nat 65535.

(** The loop built at index [i], listener already added to its poller. *)
Definition newLoop (lnfd : Z) (i : Z) : loop :=
  {| idx := i; poll := AddRead lnfd OpenPoll; packet := replicate packetSize x00;
     fdconns := ∅; count := 0; wch := [] |}.

(** [serve] up to the point where the loops run; the deferred shutdown
    is [serve_shutdown] below. *)
Definition serve (ev : Events) (l : listener) (u : U) : server * option error :=
  let numLoops := serve_numLoops ev in
  let s := {| events := ev; loops := []; ln := l; balance := ev_LoadBalance ev;
              accepted := 0; tch := []; heap := ∅; nextptr := 0%nat; ustate := u;
              trace := [] |} in
  let start (s : server) :=
    (set_loops (newLoop (ln_fd l) <$> seqZ 0 numLoops) s, None) in
  match Serving ev with
  | Some cb =>
    let '(u, a) := cb u {| svr_NumLoops := numLoops; svr_Addr := lnaddr l |} in
    let s := emit (CallServing numLoops) (set_ustate u s) in
    match a with
    | Action.Shutdown => (s, None)
    | _ => start s
    end
  | None => start s
  end.

(** [for _, c := range l.fdconns { loopCloseConn(s, l, c, nil) }] over the
    entries [es] not yet visited; an entry deleted meanwhile is skipped. *)
Fixpoint closeConns (li : nat) (es : list (Z * ptr)) (s : server) : server * res :=
  match es with
  | [] => (s, Ret None)
  | (fd, p) :: es =>
    match loops s !! li with
    | None => (s, Panic)
    | Some l =>
      if decide (fdconns l !! fd = Some p) then
        match loopCloseConn li p None s with
        | (s, Ret _) => closeConns li es s
        | r => r
        end
      else closeConns li es s
    end
  end.

(** One round of the closing [for _, l := range s.loops] of [serve]. *)
Definition closeLoop (li : nat) (s : server) : server * res :=
  match loops s !! li with
  | None => (s, Panic)
  | Some l =>
    match closeConns li (map_to_list (fdconns l)) s with
    | (s, Ret _) =>
      (emit (PollClose li) (upd_loop li (upd_poll poll_Close) s), Ret None)
    | r => r
    end
  end.

Fixpoint closeLoops (lis : list nat) (s : server) : server * res :=
  match lis with
  | [] => (s, Ret None)
  | li :: lis =>
    match closeLoop li s with
    | (s, Ret _) => closeLoops lis s
    | r => r
    end
  end.

(** The deferred function of [serve] once every loop has returned. *)
Definition serve_shutdown (s : server) : server * res :=
  closeLoops (seq 0 (length (loops s))) s.

(** ** [Poll.Wait] and [loopRun] *)

Inductive wake :=
| FdReady (fd : Z) (k : kernel)
| UserEvent (ev : Event).

Definition handle (li : nat) (w : wake) (s : server) : server * res :=
  match w with
  | FdReady fd k => OnFdEvent li fd k s
  | UserEvent ev => OnEvent li ev s
  end.

(** Modelled from the spec: [Poll.Wait] is not part of the sources at hand.
    Section 4.1: each wake delivers pending tags to [OnEvent] and ready fds
    to [OnFdEvent]; when the handler returns an error, [Wait] returns it.
    [None]: every wake was handled and the loop is waiting again. *)
Fixpoint pollWait (li : nat) (ws : list wake) (s : server) : server * option res :=
  match ws with
  | [] => (s, None)
  | w :: ws =>
    match handle li w s with
    | (s, Ret None) => pollWait li ws s
    | (s, r) => (s, Some r)
    end
  end.

(** [loopRun] without its ticker goroutine and its deferred signalling of
    the shutdown condition. *)
Definition loopRun (li : nat) (ws : list wake) (s : server) : server * option res :=
  pollWait li ws s.

(** ** The transition table of the spec

    Section 4.3 of the spec gives the dispatch of [OnFdEvent] as a table of
    guards read top to bottom; [spec_select] follows those words, to be
    compared with [OnFdEvent] above. *)

Inductive transition := TAccept | TOpened | TWrite | TAction | TRead.

Definition spec_table (oc : option conn) : list (bool * transition) :=
  let holds (g : conn → bool) := from_option g false oc in
  [ (negb (holds (λ _, true)), TAccept);
    (holds (λ c, negb (opened c)), TOpened);
    (holds (λ c, negb (len (out c) =? 0)), TWrite);
    (holds (λ c, negb (Action.is_None (action c))), TAction);
    (true, TRead) ].

Definition spec_select (oc : option conn) : option transition :=
  snd <$> List.find fst (spec_table oc).

Definition run_transition (li : nat) (op : option ptr) (k : kernel)
    (t : transition) (s : server) : server * res :=
  match t, op with
  | TAccept, _ => loopAccept li k s
  | TOpened, Some p => loopOpened li p k s
  | TWrite, Some p => loopWrite li p k s
  | TAction, Some p => loopAction li p s
  | TRead, Some p => loopRead li p k s
  | _, None => (s, Panic)
  end.

(** ** Closed forms used to state what a call did *)

(** The server [s] with its mutable fields replaced. *)
Definition with_state (s : server) (ls : list loop) (h : gmap ptr conn)
    (np : ptr) (u : U) (tr : list obs) : server :=
  {| events := events s; loops := ls; ln := ln s; balance := balance s;
     accepted := accepted s; tch := tch s; heap := h; nextptr := np;
     ustate := u; trace := tr |}.

(** The loop after [loopCloseConn] of a connection on [fd]. *)
Definition closed_loop (fd : Z) (l : loop) : loop :=
  upd_poll (poll_forget fd) (upd_fdconns (delete fd) (add_count (-1) l)).

(** The loop after a successful [loopAccept] of [nfd] as connection [p]. *)
Definition accepted_loop (nfd : Z) (p : ptr) (l : loop) : loop :=
  add_count 1 (upd_poll (AddReadWrite nfd) (upd_fdconns (insert nfd p) l)).

(** The call of [Closed], if the callback is set. *)
Definition closed_obs (s : server) (p : ptr) (err : option error) : list obs :=
  match Closed (events s) with Some _ => [CallClosed p err] | None => [] end.

Definition closed_ustate (s : server) (p : ptr) (c : conn) (err : option error) : U :=
  match Closed (events s) with
  | Some cb => (cb (ustate s) p c err).1
  | None => ustate s
  end.

Definition closed_ret (s : server) (p : ptr) (c : conn) (err : option error) : res :=
  match Closed (events s) with
  | Some cb =>
    match (cb (ustate s) p c err).2 with
    | Action.Shutdown => Ret (Some errClosing)
    | _ => Ret None
    end
  | None => Ret None
  end.

(** [len(c.out) == 0 && c.action == None] *)
Definition idle (c : conn) : bool :=
  (len (out c) =? 0) && Action.is_None (action c).

(** What a call added to the trace. *)
Definition new_obs (s s' : server) : list obs :=
  drop (length (trace s)) (trace s').

(** ** Invariants of the loops *)

(** Every entry of a loop's fd map is the address of a connection object
    that carries this fd and names this loop; addresses in use lie below
    the next one to be handed out. *)
Definition wf_core (ls : list loop) (h : gmap ptr conn) (np : ptr) : Prop :=
  (∀ li l fd p, ls !! li = Some l → fdconns l !! fd = Some p →
     ∃ c, h !! p = Some c ∧ c_fd c = fd ∧ c_loop c = li) ∧
  (∀ p, is_Some (h !! p) → (p < np)%nat).

Definition wf (s : server) : Prop := wf_core (loops s) (heap s) (nextptr s).



(** The interest the loop keeps for a connection: read-only once it is
    opened with nothing to send and no action pending, read+write otherwise. *)
Definition want (c : conn) : Interest :=
  if opened c && idle c then Read else ReadWrite.

Definition interest_ok (s : server) : Prop :=
  ∀ li l fd p c, loops s !! li = Some l → fdconns l !! fd = Some p →
    heap s !! p = Some c → interest (poll l) !! fd = Some (want c).

(** The fd that the kernel hands out on accept is not open already. *)
Definition fresh_accept (li : nat) (k : kernel) (s : server) : Prop :=
  ∀ l nfd a, loops s !! li = Some l → k_accept k = inl (nfd, a) →
    fdconns l !! nfd = None.

(** The write next in the channel of loop [li] is non-empty and for a
    connection that is still in the loop's map. *)
Definition head_write_live (li : nat) (s : server) : Prop :=
  ∀ l w ws, loops s !! li = Some l → wch l = w :: ws →
    w_data w ≠ [] ∧
    ∃ c, heap s !! w_c w = Some c ∧ fdconns l !! c_fd c = Some (w_c w).

Definition is_closed_of (p : ptr) (o : obs) : bool :=
  match o with CallClosed q _ => Nat.eqb p q | _ => false end.

(** How many times [Closed] was invoked for connection [p]. *)
Definition closed_calls (p : ptr) (tr : list obs) : nat :=
  length (List.filter (is_closed_of p) tr).

(** [p] is in the fd map of some loop. *)
Definition live_in (ls : list loop) (p : ptr) : Prop :=
  ∃ li l fd, ls !! li = Some l ∧ fdconns l !! fd = Some p.

(** A connection in a map has not seen [Closed]; one that was accepted and
    has left the maps has seen it exactly once. *)
Definition closed_once_core (ls : list loop) (np : ptr) (tr : list obs) : Prop :=
  ∀ p, (live_in ls p → closed_calls p tr = 0%nat) ∧
       (¬ live_in ls p → (p < np)%nat → closed_calls p tr = 1%nat) ∧
       ((np ≤ p)%nat → closed_calls p tr = 0%nat).

Definition closed_once (s : server) : Prop :=
  closed_once_core (loops s) (nextptr s) (trace s).

(** The part of the loops that [count_ok] and [wf] look at. *)
Definition maps_of (ls : list loop) : list (gmap Z ptr * Z) :=
  (λ l, (fdconns l, count l)) <$> ls.

(** A store through a connection pointer keeps its fd and its loop. *)
Definition frame_heap (h h' : gmap ptr conn) : Prop :=
  ∀ p, match h !! p, h' !! p with
       | Some c, Some c' => c_fd c' = c_fd c ∧ c_loop c' = c_loop c
       | None, None => True
       | _, _ => False
       end.

(** What one step does to the maps: nothing; or an accept, which inserts a
    new connection and increments [count]; or a close, which deletes the
    connection's entry, decrements [count] and calls [Closed] if set. *)
Definition change_core (cl : bool) (ls ls' : list loop) (h h' : gmap ptr conn)
    (np np' : ptr) (tr tr' : list obs) : Prop :=
  (maps_of ls' = maps_of ls ∧ frame_heap h h' ∧ np' = np ∧
   ∀ q, closed_calls q tr' = closed_calls q tr) ∨
  (∃ li l l' nfd a,
     ls !! li = Some l ∧ fdconns l !! nfd = None ∧ ls' = <[li := l']> ls ∧
     fdconns l' = <[nfd := np]> (fdconns l) ∧ count l' = wrap_int32 (count l + 1) ∧
     h' = <[np := new_conn nfd a li]> h ∧ np' = S np ∧
     ∀ q, closed_calls q tr' = closed_calls q tr) ∨
  (∃ li l l' p c,
     ls !! li = Some l ∧ h !! p = Some c ∧ fdconns l !! c_fd c = Some p ∧
     ls' = <[li := l']> ls ∧
     fdconns l' = delete (c_fd c) (fdconns l) ∧ count l' = wrap_int32 (count l - 1) ∧
     h' = h ∧ np' = np ∧
     ∀ q, closed_calls q tr' =
          (closed_calls q tr + if cl && Nat.eqb q p then 1 else 0)%nat).

Definition change (s s' : server) : Prop :=
  events s' = events s ∧
  change_core (bool_decide (is_Some (Closed (events s))))
    (loops s) (loops s') (heap s) (heap s')
    (nextptr s) (nextptr s') (trace s) (trace s').

End Evio.

(** ** Steps of a running server *)

Section Steps.

Context {U Sockaddr Addr Ctx : Type}.
Variable SockaddrToAddr : Sockaddr → Addr.

(** One atomic step: a loop handles a ready fd or a user event, some thread
    calls [conn.Write], or the closing server closes a connection that is
    still in a map. *)
Inductive step : @server U Sockaddr Addr Ctx → @server U Sockaddr Addr Ctx → Prop :=
| step_fd li fd k s :
    fresh_accept li k s → step s (OnFdEvent SockaddrToAddr li fd k s).1
| step_event li ev s :
    step s (OnEvent li ev s).1
| step_write p data k s :
    step s (conn_Write p data k s).1
| step_close li l fd p s :
    loops s !! li = Some l → fdconns l !! fd = Some p →
    step s (loopCloseConn li p None s).1.

(** A server that has accepted nothing yet. *)
Definition pristine (s : @server U Sockaddr Addr Ctx) : Prop :=
  heap s = ∅ ∧ nextptr s = 0%nat ∧
  (∀ li l, loops s !! li = Some l → fdconns l = ∅ ∧ count l = 0) ∧
  (∀ p, closed_calls p (trace s) = 0%nat).

Definition reachable (s : @server U Sockaddr Addr Ctx) : Prop :=
  ∃ s0, pristine s0 ∧ rtc step s0 s.

End Steps.

(** ** The life of a connection, as its callbacks show it *)

Section Lifecycle.

Context {U Sockaddr Addr Ctx : Type}.
Variable SockaddrToAddr : Sockaddr → Addr.
Variable NumCPU : Z.

(** A server reached from what [serve] built, by any number of steps. *)
Definition running (ev : @Events U Sockaddr Addr Ctx) (lsn : listener) (u : U)
    (s : @server U Sockaddr Addr Ctx) : Prop :=
  rtc (step SockaddrToAddr) (serve NumCPU ev lsn u).1 s.

(** [l.idx] is the position of the loop in [s.loops]. *)
Definition idx_ok (s : @server U Sockaddr Addr Ctx) : Prop :=
  ∀ li l, loops s !! li = Some l → idx l = Z.of_nat li.

(** Every loop reads into a buffer of [0xFFFF] bytes. *)
Definition packet_ok (s : @server U Sockaddr Addr Ctx) : Prop :=
  ∀ li l, loops s !! li = Some l → length (packet l) = packetSize.

(** The part of the loops that no handler changes. *)
Definition shape_of (ls : list loop) : list (Z * nat) :=
  (λ l, (idx l, length (packet l))) <$> ls.

(** The callbacks that are about one connection. *)
Definition is_conn_call (o : obs) : bool :=
  match o with
  | CallOpened _ | CallData _ _ _ | CallClosed _ _ => true
  | _ => false
  end.

Inductive kind := KOpened | KData | KClosed.

Definition kind_of (p : ptr) (o : obs) : option kind :=
  match o with
  | CallOpened q => if Nat.eqb p q then Some KOpened else None
  | CallData q _ _ => if Nat.eqb p q then Some KData else None
  | CallClosed q _ => if Nat.eqb p q then Some KClosed else None
  | _ => None
  end.

(** The callbacks made for connection [p], oldest first. *)
Definition calls_of (p : ptr) (tr : list obs) : list kind := omap (kind_of p) tr.

(** Where a connection stands: no callback yet; [Opened] seen; [Closed]
    seen. *)
Inductive phase := PNew | POpen | PClosed.

(** [Opened] comes first, [Data] only after it, [Closed] last and at any
    time; nothing else is allowed. *)
Definition next_phase (ph : phase) (k : kind) : option phase :=
  match ph, k with
  | PNew, KOpened => Some POpen
  | POpen, KData => Some POpen
  | PNew, KClosed | POpen, KClosed => Some PClosed
  | _, _ => None
  end.

Fixpoint run_phase (ph : phase) (ks : list kind) : option phase :=
  match ks with
  | [] => Some ph
  | k :: ks =>
    match next_phase ph k with
    | Some ph' => run_phase ph' ks
    | None => None
    end
  end.

(** The callbacks of every connection follow [next_phase], and end where
    the connection stands: in a map and not opened, in a map and opened,
    or out of the maps. *)
Definition lifecycle_ok (s : @server U Sockaddr Addr Ctx) : Prop :=
  ∀ p,
    (∀ li l fd c, loops s !! li = Some l → fdconns l !! fd = Some p →
       heap s !! p = Some c →
       run_phase PNew (calls_of p (trace s))
       = Some (if opened c then POpen else PNew)) ∧
    (¬ live_in (loops s) p → (p < nextptr s)%nat →
       run_phase PNew (calls_of p (trace s)) = Some PClosed) ∧
    ((nextptr s ≤ p)%nat → calls_of p (trace s) = []).

(** What [Data] may be handed: at least one byte, at most a buffer full. *)
Definition data_fine (o : obs) : Prop :=
  match o with
  | CallData _ input _ => input ≠ [] ∧ (length input ≤ packetSize)%nat
  | _ => True
  end.

(** A store through a connection pointer keeps fd, loop and [opened]. *)
Definition same_flags (h h' : gmap ptr (@conn Sockaddr Addr Ctx)) : Prop :=
  ∀ p, match h !! p, h' !! p with
       | Some c, Some c' =>
         c_fd c' = c_fd c ∧ c_loop c' = c_loop c ∧ opened c' = opened c
       | None, None => True
       | _, _ => False
       end.

(** What one step does to the life of the connections: nothing; an accept;
    a close; the opening of a connection in a map; a [Data] call for an
    opened connection in a map.  [tl] is what the step adds to the trace. *)
Definition lchange (s s' : @server U Sockaddr Addr Ctx) : Prop :=
  events s' = events s ∧ shape_of (loops s') = shape_of (loops s) ∧
  ∃ tl, trace s' = trace s ++ tl ∧
  ((maps_of (loops s') = maps_of (loops s) ∧ same_flags (heap s) (heap s') ∧
    nextptr s' = nextptr s ∧ List.filter is_conn_call tl = []) ∨
   (∃ li l l' nfd a,
      loops s !! li = Some l ∧ fdconns l !! nfd = None ∧
      loops s' = <[li := l']> (loops s) ∧
      fdconns l' = <[nfd := nextptr s]> (fdconns l) ∧
      heap s' = <[nextptr s := new_conn nfd a li]> (heap s) ∧
      nextptr s' = S (nextptr s) ∧ List.filter is_conn_call tl = []) ∨
   (∃ li l l' p c err,
      loops s !! li = Some l ∧ heap s !! p = Some c ∧
      fdconns l !! c_fd c = Some p ∧ loops s' = <[li := l']> (loops s) ∧
      fdconns l' = delete (c_fd c) (fdconns l) ∧
      heap s' = heap s ∧ nextptr s' = nextptr s ∧
      List.filter is_conn_call tl = closed_obs s p err) ∨
   (∃ li l p c c',
      loops s !! li = Some l ∧ heap s !! p = Some c ∧
      fdconns l !! c_fd c = Some p ∧ opened c = false ∧
      maps_of (loops s') = maps_of (loops s) ∧
      heap s' = <[p := c']> (heap s) ∧
      c_fd c' = c_fd c ∧ c_loop c' = c_loop c ∧ opened c' = true ∧
      nextptr s' = nextptr s ∧
      List.filter is_conn_call tl
      = match Opened (events s) with Some _ => [CallOpened p] | None => [] end) ∨
   (∃ li l p c input b,
      loops s !! li = Some l ∧ heap s !! p = Some c ∧
      fdconns l !! c_fd c = Some p ∧ opened c = true ∧
      maps_of (loops s') = maps_of (loops s) ∧ same_flags (heap s) (heap s') ∧
      nextptr s' = nextptr s ∧
      List.filter is_conn_call tl = [CallData p input b] ∧
      input ≠ [] ∧ (length input ≤ length (packet l))%nat)).

End Lifecycle.

(** ** Concrete servers *)

Module Fixtures.

Definition ln0 : @listener unit := {| ln_fd := 3; lnaddr := tt; isTCP := true |}.

(** Counts the callbacks it runs; never asks for anything. *)
Definition quiet (n : Z) (lb : LoadBalance) : @Events nat unit unit unit :=
  {| NumLoops := n; ev_LoadBalance := lb;
     Serving := Some (λ u _, (S u, Action.None));
     Opened := Some (λ u _ _, (S u, ([], {| TCPKeepAlive := 0; ReuseInputBuffer := false |}, Action.None)));
     Closed := Some (λ u _ _ _, (S u, Action.None));
     Data := Some (λ u _ _ input, (S u, (input, Action.None)));
     Tick := None |}.

(** Refuses to serve. *)
Definition refusing (n : Z) : @Events nat unit unit unit :=
  {| NumLoops := n; ev_LoadBalance := Random;
     Serving := Some (λ u _, (u, Action.Shutdown));
     Opened := None; Closed := None; Data := None; Tick := None |}.

Definition k_eagain : @kernel unit :=
  {| k_accept := inr EAGAIN; k_setnonblock := None; k_keepalive := None;
     k_write := inr EAGAIN; k_read := inr EAGAIN; k_fire := None |}.

(** Two loops under [RoundRobin], on a four-CPU machine. *)
Definition rr2 : @server nat unit unit unit := (serve 4 (quiet 2 RoundRobin) ln0 0%nat).1.

(** The kernel hands out fd [nfd] on accept; every other call succeeds,
    writes take [n] bytes and reads deliver [input]. *)
Definition k_ok (nfd n : Z) (input : list byte) : @kernel unit :=
  {| k_accept := inl (nfd, tt); k_setnonblock := None; k_keepalive := None;
     k_write := inl n; k_read := inl input; k_fire := None |}.

(** One loop; then a connection accepted on fd 5; then opened. *)
Definition one : @server nat unit unit unit := (serve 4 (quiet 1 Random) ln0 0%nat).1.
Definition one_accepted := (OnFdEvent id 0 3 (k_ok 5 0 []) one).1.
Definition one_opened := (OnFdEvent id 0 5 k_eagain one_accepted).1.

(** Greets every connection with two bytes and asks for keep-alive, as the
    test suite's [Opened] does; echoes its input. *)
Definition greeter : @Events nat unit unit unit :=
  {| NumLoops := 1; ev_LoadBalance := Random;
     Serving := None;
     Opened := Some (λ u _ _, (S u, ([x68; x69],
                 {| TCPKeepAlive := 300 * second; ReuseInputBuffer := false |},
                 Action.None)));
     Closed := Some (λ u _ _ _, (S u, Action.None));
     Data := Some (λ u _ _ input, (S u, (input, Action.None)));
     Tick := None |}.

(** [SetKeepAlive] fails with [EINVAL]. *)
Definition k_keepalive_fails : @kernel unit :=
  {| k_accept := inr EAGAIN; k_setnonblock := None; k_keepalive := Some (Errno 22);
     k_write := inr EAGAIN; k_read := inr EAGAIN; k_fire := None |}.

(** One loop of [greeter]; a connection accepted on fd 5; then opened, its
    greeting pending. *)
Definition greeting : @server nat unit unit unit := (serve 4 greeter ln0 0%nat).1.
Definition greeting_accepted := (OnFdEvent id 0 3 (k_ok 5 0 []) greeting).1.
Definition greeting_opened := (OnFdEvent id 0 5 (k_ok 5 0 []) greeting_accepted).1.

End Fixtures.

(** More servers and kernels. *)
Module Scenes.

(** Says three bytes to every connection and asks to close it; shuts the
    server down when a connection closes; ticks once a second. *)
Definition closer : @Events nat unit unit unit :=
  {| NumLoops := 1; ev_LoadBalance := Random;
     Serving := None;
     Opened := Some (λ u _ _, (S u, ([x62; x79; x65],
                 {| TCPKeepAlive := 0; ReuseInputBuffer := false |},
                 Action.Close)));
     Closed := Some (λ u _ _ _, (S u, Action.Shutdown));
     Data := None;
     Tick := Some (λ u, (S u, (second, Action.None))) |}.

(** One loop of [closer]; a connection accepted on fd 5; then opened, three
    bytes and a [Close] pending; then written to in full. *)
Definition closing : @server nat unit unit unit :=
  (serve 4 closer Fixtures.ln0 0%nat).1.
Definition closing_accepted := (OnFdEvent id 0 3 (Fixtures.k_ok 5 0 []) closing).1.
Definition closing_opened := (OnFdEvent id 0 5 (Fixtures.k_ok 5 0 []) closing_accepted).1.
Definition closing_drained := (OnFdEvent id 0 5 (Fixtures.k_ok 6 3 []) closing_opened).1.

(** Two loops under [LeastConnections]; then loop 0 has one connection. *)
Definition lc2 : @server nat unit unit unit :=
  (serve 4 (Fixtures.quiet 2 LeastConnections) Fixtures.ln0 0%nat).1.
Definition lc2_accepted := (OnFdEvent id 0 3 (Fixtures.k_ok 5 0 []) lc2).1.

(** Nothing to accept and no room to write; reads deliver [input]. *)
Definition k_reads (input : list byte) : @kernel unit :=
  {| k_accept := inr EAGAIN; k_setnonblock := None; k_keepalive := None;
     k_write := inr EAGAIN; k_read := inl input; k_fire := None |}.

(** [Fixtures.one_opened] after one byte was read and handed to [Data]. *)
Definition one_read := (OnFdEvent id 0 5 (k_reads [x61]) Fixtures.one_opened).1.

End Scenes.

(** * Properties *)

Section Properties.

Context {U Sockaddr Addr Ctx : Type}.
Variable SockaddrToAddr : Sockaddr → Addr.
Variable NumCPU : Z.

Implicit Types (s : @server U Sockaddr Addr Ctx) (c : @conn Sockaddr Addr Ctx).
Implicit Types (k : @kernel Sockaddr) (ev : @Events U Sockaddr Addr Ctx).
Implicit Types (l : loop) (li : nat) (p : ptr) (fd : Z).

(** ** Normal forms of the state updates *)

Ltac st_simpl :=
  cbn [events loops ln balance accepted tch heap nextptr ustate trace
       emit put_conn alloc_conn upd_loop set_loops set_accepted push_tch
       set_ustate sys_close with_state fst snd].

Ltac st_simpl_in H :=
  cbn [events loops ln balance accepted tch heap nextptr ustate trace
       emit put_conn alloc_conn upd_loop set_loops set_accepted push_tch
       set_ustate sys_close with_state fst snd] in H.

Lemma server_ext s1 s2 :
  events s1 = events s2 → loops s1 = loops s2 → ln s1 = ln s2 →
  balance s1 = balance s2 → accepted s1 = accepted s2 → tch s1 = tch s2 →
  heap s1 = heap s2 → nextptr s1 = nextptr s2 → ustate s1 = ustate s2 →
  trace s1 = trace s2 → s1 = s2.
Proof. destruct s1, s2. cbn. by intros -> -> -> -> -> -> -> -> -> ->. Qed.

(** Two results are equal when all fields of their states and their
    return values are. *)
Ltac st_eq := f_equal; try apply server_ext; st_simpl; try reflexivity.

Lemma alter_at {A} (f : A → A) (i : nat) (ls : list A) (x : A) :
  ls !! i = Some x → alter f i ls = <[i := f x]> ls.
Proof.
  intros Hx. apply list_eq. intros j. destruct (decide (i = j)) as [<-|Hne].
  - rewrite list_lookup_alter_eq, Hx.
    by rewrite list_lookup_insert_eq by (by eapply lookup_lt_Some).
  - by rewrite list_lookup_alter_ne, list_lookup_insert_ne.
Qed.

Lemma alter_insert_at {A} (f : A → A) (i : nat) (ls : list A) (y : A) :
  (i < length ls)%nat → alter f i (<[i := y]> ls) = <[i := f y]> ls.
Proof.
  intros Hi. rewrite (alter_at f i _ y) by (by apply list_lookup_insert_eq).
  by rewrite list_insert_insert_eq.
Qed.

Ltac norm_loops Hl :=
  rewrite ?(alter_at _ _ _ _ Hl);
  rewrite ?alter_insert_at by (by eapply lookup_lt_Some, Hl).

Lemma server_eta s :
  s = with_state s (loops s) (heap s) (nextptr s) (ustate s) (trace s).
Proof. by destruct s. Qed.

Lemma loopCloseConn_eq li p err s l c :
  loops s !! li = Some l → heap s !! p = Some c →
  loopCloseConn li p err s =
    (with_state s (<[li := closed_loop (c_fd c) l]> (loops s)) (heap s) (nextptr s)
       (closed_ustate s p c err) (trace s ++ SysClose (c_fd c) :: closed_obs s p err),
     closed_ret s p c err).
Proof.
  intros Hl Hc. unfold loopCloseConn, closed_obs, closed_ustate, closed_ret.
  rewrite Hl, Hc. st_simpl.
  destruct (Closed (events s)) as [cb|].
  - destruct (cb (ustate s) p c err) as [u a].
    destruct a; st_eq; solve [by norm_loops Hl | by rewrite <- app_assoc].
  - st_eq. by norm_loops Hl.
Qed.

Lemma do_accept_eq li k s l :
  loops s !! li = Some l →
  do_accept li k s =
    match k_accept k with
    | inr err =>
      (emit (SysAccept (ln_fd (ln s))) s,
       if decide (err = EAGAIN) then Ret None else Ret (Some err))
    | inl (nfd, a) =>
      match k_setnonblock k with
      | Some err =>
        (emit (SysSetNonblock nfd) (emit (SysAccept (ln_fd (ln s))) s), Ret (Some err))
      | None =>
        (with_state s (<[li := accepted_loop nfd (nextptr s) l]> (loops s))
           (<[nextptr s := new_conn nfd a li]> (heap s)) (S (nextptr s)) (ustate s)
           (trace s ++ [SysAccept (ln_fd (ln s)); SysSetNonblock nfd]),
         Ret None)
      end
    end.
Proof.
  intros Hl. unfold do_accept. destruct (k_accept k) as [[nfd a]|err]; [|by case_decide].
  destruct (k_setnonblock k); [done|]. st_eq.
  - by norm_loops Hl.
  - by rewrite <- app_assoc.
Qed.

(** ** Round robin *)

Lemma do_accept_accepted li k s : accepted (do_accept li k s).1 = accepted s.
Proof.
  unfold do_accept. destruct (k_accept k) as [[nfd a]|err]; [|by case_decide].
  by destruct (k_setnonblock k).
Qed.

Lemma do_accept_trace li k s :
  ∃ tl, trace (do_accept li k s).1 = trace s ++ SysAccept (ln_fd (ln s)) :: tl.
Proof.
  unfold do_accept. destruct (k_accept k) as [[nfd a]|err].
  - destruct (k_setnonblock k); eexists; cbn; by rewrite <- app_assoc.
  - case_decide; by eexists.
Qed.

Lemma rr_turn_mod s :
  0 ≤ accepted s < 2 ^ 63 → 0 < len (loops s) →
  rr_turn s = accepted s mod len (loops s).
Proof.
  intros [H0 H1] Hn. unfold rr_turn, int_of_uintptr.
  destruct (Z.ltb_spec (accepted s) (2 ^ 63)); [|lia].
  by apply Z.rem_mod_nonneg.
Qed.

(** C1 (amended).  With more than one loop under [RoundRobin], a loop whose
    index differs from [int(accepted) % N] returns at once: the counter, and
    the whole server, is unchanged and no accept is attempted.  A loop whose
    index matches increments the counter (modulo 2^64) and then attempts the
    accept; the increment does not depend on what the accept returns.  For a
    counter below 2^63 the Go remainder is the mathematical [mod]. *)
Theorem round_robin_gate s li l k :
  loops s !! li = Some l → 1 < len (loops s) → balance s = RoundRobin →
  (rr_turn s ≠ idx l → loopAccept li k s = (s, Ret None)) ∧
  (rr_turn s = idx l →
     accepted (loopAccept li k s).1 = wrap_uintptr (accepted s + 1) ∧
     ∃ tl, trace (loopAccept li k s).1 = trace s ++ SysAccept (ln_fd (ln s)) :: tl) ∧
  (0 ≤ accepted s < 2 ^ 63 → rr_turn s = accepted s mod len (loops s)).
Proof.
  intros Hl Hn Hb. unfold loopAccept. rewrite Hl, Hb.
  destruct (Z.ltb_spec 1 (len (loops s))); [|lia].
  split; [|split].
  - intros Hne. by destruct (Z.eqb_spec (rr_turn s) (idx l)).
  - intros Heq. destruct (Z.eqb_spec (rr_turn s) (idx l)); [|done]. cbn [negb].
    split; [by rewrite do_accept_accepted|].
    apply (do_accept_trace li k (set_accepted _ s)).
  - intros Hr. apply rr_turn_mod; [done|lia].
Qed.

(** ** The number of loops *)

Lemma serve_numLoops_cases ev :
  serve_numLoops NumCPU ev =
    if NumLoops ev =? 0 then 1 else if NumLoops ev <? 0 then NumCPU else NumLoops ev.
Proof.
  unfold serve_numLoops.
  destruct (Z.leb_spec (NumLoops ev) 0), (Z.eqb_spec (NumLoops ev) 0),
    (Z.ltb_spec (NumLoops ev) 0); lia.
Qed.

(** C3 (amended).  When the [Serving] callback is nil or returns anything
    but [Shutdown], [serve] creates one loop if [NumLoops] is 0, one per CPU
    if it is negative and [NumLoops] loops if it is positive; when [Serving]
    returns [Shutdown], [serve] returns nil before creating any loop. *)
Theorem serve_loop_count ev (lsn : listener) (u : U) :
  0 < NumCPU →
  let svr := {| svr_NumLoops := serve_numLoops NumCPU ev; svr_Addr := lnaddr lsn |} in
  ((∀ cb, Serving ev = Some cb → (cb u svr).2 ≠ Action.Shutdown) →
     len (loops (serve NumCPU ev lsn u).1) =
       if NumLoops ev =? 0 then 1 else if NumLoops ev <? 0 then NumCPU else NumLoops ev) ∧
  (∀ cb, Serving ev = Some cb → (cb u svr).2 = Action.Shutdown →
     loops (serve NumCPU ev lsn u).1 = [] ∧ (serve NumCPU ev lsn u).2 = None).
Proof.
  intros Hcpu svr. split.
  - intros Hgo. rewrite <- serve_numLoops_cases.
    assert (0 ≤ serve_numLoops NumCPU ev) as Hn.
    { rewrite serve_numLoops_cases.
      destruct (Z.eqb_spec (NumLoops ev) 0), (Z.ltb_spec (NumLoops ev) 0); lia. }
    assert (∀ s, len (loops (set_loops
       (newLoop (ln_fd lsn) <$> seqZ 0 (serve_numLoops NumCPU ev)) s))
       = serve_numLoops NumCPU ev) as Hlen.
    { intros s. unfold len. cbn [loops set_loops].
      rewrite length_fmap, length_seqZ. lia. }
    unfold serve. destruct (Serving ev) as [cb|] eqn:Hs; [|apply Hlen].
    specialize (Hgo cb eq_refl). fold svr. destruct (cb u svr) as [u' a].
    destruct a; cbn [snd] in Hgo; try done; apply Hlen.
  - intros cb Hs Ha. unfold serve. rewrite Hs. fold svr.
    destruct (cb u svr) as [u' a]. cbn [snd] in Ha. by subst a.
Qed.

(** ** Dispatch of fd readiness *)

Lemma len_eqb_0 {A} (x : list A) : (len x =? 0) = true ↔ x = [].
Proof.
  unfold len. destruct x; cbn [length]; split; intros H; try done.
Qed.

Lemma len_eqb_0_false {A} (x : list A) : (len x =? 0) = false ↔ x ≠ [].
Proof. rewrite <- len_eqb_0. by destruct (len x =? 0). Qed.

Lemma len_pos {A} (x : list A) : 0 < len x ↔ x ≠ [].
Proof. unfold len. destruct x; cbn [length]; split; intros H; try done; lia. Qed.

Lemma len_nonpos {A} (x : list A) : len x ≤ 0 ↔ x = [].
Proof. unfold len. destruct x; cbn [length]; split; intros H; try done; lia. Qed.

Lemma is_None_true (a : Action.t) : Action.is_None a = true ↔ a = Action.None.
Proof. by destruct a. Qed.

Lemma is_None_false (a : Action.t) : Action.is_None a = false ↔ a ≠ Action.None.
Proof. by destruct a. Qed.

(** C4.  [OnFdEvent] runs exactly the transition that the priority table
    selects: accept when the fd has no connection in the loop's map;
    otherwise [Opened] when the connection is not opened; otherwise a write
    when the outbound buffer is non-empty; otherwise the action when it is
    not [None]; otherwise a read. *)
Theorem fd_event_dispatch s li l fd k :
  loops s !! li = Some l →
  (∀ p, fdconns l !! fd = Some p → is_Some (heap s !! p)) →
  (∃ t, spec_select (fdconns l !! fd ≫= λ p, heap s !! p) = Some t ∧
        OnFdEvent SockaddrToAddr li fd k s
        = run_transition SockaddrToAddr li (fdconns l !! fd) k t s) ∧
  (fdconns l !! fd = None →
     OnFdEvent SockaddrToAddr li fd k s = loopAccept li k s) ∧
  (∀ p c, fdconns l !! fd = Some p → heap s !! p = Some c →
     (opened c = false →
        OnFdEvent SockaddrToAddr li fd k s = loopOpened SockaddrToAddr li p k s) ∧
     (opened c = true → out c ≠ [] →
        OnFdEvent SockaddrToAddr li fd k s = loopWrite li p k s) ∧
     (opened c = true → out c = [] → action c ≠ Action.None →
        OnFdEvent SockaddrToAddr li fd k s = loopAction li p s) ∧
     (opened c = true → out c = [] → action c = Action.None →
        OnFdEvent SockaddrToAddr li fd k s = loopRead li p k s)).
Proof.
  intros Hl Hheap. unfold OnFdEvent. rewrite Hl.
  destruct (fdconns l !! fd) as [p|] eqn:Hfd.
  - destruct (Hheap p eq_refl) as [c Hc]. rewrite Hc. cbn [mbind option_bind].
    rewrite Hc. split; [|split; [done|]].
    + unfold spec_select, spec_table. cbn [from_option negb List.find fst].
      destruct (opened c); cbn [negb]; [|by eexists].
      destruct (len (out c) =? 0); cbn [negb]; [|by eexists].
      destruct (Action.is_None (action c)); cbn [negb]; by eexists.
    + intros p' c' [= <-] Hc'. rewrite Hc in Hc'. injection Hc' as <-.
      repeat split.
      * by intros ->.
      * intros -> Ho%len_eqb_0_false. by rewrite Ho.
      * intros -> Ho%len_eqb_0 Ha%is_None_false. by rewrite Ho, Ha.
      * intros -> Ho%len_eqb_0 Ha%is_None_true. by rewrite Ho, Ha.
  - split; [by exists TAccept|]. split; [done|]. by intros p c [=].
Qed.

(** ** The write transition *)

Lemma narrow_if_idle_eq li c s :
  narrow_if_idle li c s = if idle c then upd_loop li (upd_poll (ModRead (c_fd c))) s else s.
Proof. reflexivity. Qed.

Lemma widen_if_busy_eq li c s :
  widen_if_busy li c s
  = if idle c then s else upd_loop li (upd_poll (ModReadWrite (c_fd c))) s.
Proof.
  unfold widen_if_busy, idle.
  by destruct (len (out c) =? 0), (Action.is_None (action c)).
Qed.

Lemma idle_spec c : idle c = true ↔ out c = [] ∧ action c = Action.None.
Proof. unfold idle. rewrite andb_true_iff, len_eqb_0, is_None_true. tauto. Qed.

Lemma drop_all_iff {A} (x : list A) (n : Z) :
  0 ≤ n ≤ len x → drop (Z.to_nat n) x = [] ↔ n = len x.
Proof.
  unfold len. intros Hn. split.
  - intros Hd. apply (f_equal length) in Hd. rewrite length_drop in Hd.
    cbn [length] in Hd. lia.
  - intros ->. rewrite Nat2Z.id. apply drop_all.
Qed.

Lemma loopWrite_ok li p k s l c n :
  loops s !! li = Some l → heap s !! p = Some c →
  k_write k = inl n → 0 ≤ n ≤ len (out c) →
  let c' := set_out (drop (Z.to_nat n) (out c)) c in
  loopWrite li p k s =
    (with_state s (<[li := if idle c' then upd_poll (ModRead (c_fd c)) l else l]> (loops s))
       (<[p := c']> (heap s)) (nextptr s) (ustate s)
       (trace s ++ [SysWrite (c_fd c) (out c)]), Ret None).
Proof.
  intros Hl Hc Hk Hn c'. unfold loopWrite. rewrite Hl, Hc, Hk.
  assert (loops s = <[li := l]> (loops s)) as Hid by (by rewrite list_insert_id).
  destruct (Z.eqb_spec n (len (out c))) as [->|Hne].
  - replace (set_out [] c) with c'.
    2:{ unfold c', len. by rewrite Nat2Z.id, drop_all. }
    rewrite narrow_if_idle_eq. destruct (idle c'); st_eq; [by norm_loops Hl|done].
  - destruct (Z.leb_spec 0 n), (Z.leb_spec n (len (out c))); try lia. cbn [andb].
    fold c'. rewrite narrow_if_idle_eq. destruct (idle c'); st_eq; [by norm_loops Hl|done].
Qed.

(** C6.  A write transition is the one [OnFdEvent] takes for an opened
    connection with a non-empty outbound buffer.  On [EAGAIN] the server is
    left as it was, but for the trace entry of the attempt, and no callback
    runs.  When [n] bytes were written, the buffer becomes its unwritten
    remainder and, if that is empty while the action is [None], the interest
    is narrowed with [ModRead]; nothing else changes and no callback runs.
    On any other error the connection is closed through [loopCloseConn] with
    that error passed to [Closed]. *)
Theorem write_transition s li l fd p c k :
  loops s !! li = Some l → fdconns l !! fd = Some p → heap s !! p = Some c →
  opened c = true → out c ≠ [] →
  let r := OnFdEvent SockaddrToAddr li fd k s in
  (k_write k = inr EAGAIN →
     r = (emit (SysWrite (c_fd c) (out c)) s, Ret None)) ∧
  (∀ n, k_write k = inl n → 0 ≤ n ≤ len (out c) →
     r.2 = Ret None ∧
     heap r.1 = <[p := set_out (drop (Z.to_nat n) (out c)) c]> (heap s) ∧
     loops r.1 = <[li := if decide (n = len (out c) ∧ action c = Action.None)
                         then upd_poll (ModRead (c_fd c)) l else l]> (loops s) ∧
     trace r.1 = trace s ++ [SysWrite (c_fd c) (out c)] ∧
     ustate r.1 = ustate s) ∧
  (∀ e, k_write k = inr e → e ≠ EAGAIN →
     r.2 = closed_ret s p c (Some e) ∧
     heap r.1 = heap s ∧
     loops r.1 = <[li := closed_loop (c_fd c) l]> (loops s) ∧
     trace r.1 = trace s ++ SysWrite (c_fd c) (out c) :: SysClose (c_fd c)
                         :: closed_obs s p (Some e)).
Proof.
  intros Hl Hfd Hc Hop Hout r.
  assert (r = loopWrite li p k s) as ->.
  { unfold r, OnFdEvent. rewrite Hl, Hfd, Hc, Hop. cbn [negb].
    apply len_eqb_0_false in Hout. by rewrite Hout. }
  split; [|split].
  - intros Hk. unfold loopWrite. rewrite Hl, Hc, Hk. by case_decide.
  - intros n Hk Hn. rewrite (loopWrite_ok li p k s l c n) by done. st_simpl.
    repeat split; try done. f_equal.
    set (c' := set_out _ c).
    destruct (idle c') eqn:Hi; case_decide as Hd; try done.
    + apply idle_spec in Hi as [Hi1 Hi2]. cbn in Hi1, Hi2.
      apply drop_all_iff in Hi1; [|done]. tauto.
    + destruct Hd as [Hd1 Hd2]. apply not_true_iff_false in Hi. destruct Hi.
      apply idle_spec. split; [|done]. cbn. by apply drop_all_iff.
  - intros e Hk He. unfold loopWrite. rewrite Hl, Hc, Hk.
    rewrite decide_False by done.
    rewrite (loopCloseConn_eq li p (Some e) _ l c) by done. st_simpl.
    repeat split; try done. by rewrite <- app_assoc.
Qed.

(** ** The read transition *)

Lemma new_obs_app s s' tl : trace s' = trace s ++ tl → new_obs s s' = tl.
Proof. intros H. unfold new_obs. rewrite H. by rewrite drop_app_length. Qed.

Lemma trace_narrow_if_idle li c s : trace (narrow_if_idle li c s) = trace s.
Proof. rewrite narrow_if_idle_eq. by destruct (idle c). Qed.

Lemma trace_widen_if_busy li c s : trace (widen_if_busy li c s) = trace s.
Proof. rewrite widen_if_busy_eq. by destruct (idle c). Qed.

Lemma trace_loopCloseConn li p err s :
  ∃ tl, trace (loopCloseConn li p err s).1 = trace s ++ tl ∧
        ∀ o, o ∈ tl → (∃ fd, o = SysClose fd) ∨ o = CallClosed p err.
Proof.
  unfold loopCloseConn.
  destruct (loops s !! li) as [l|]; [|exists []; split; [by rewrite app_nil_r|set_solver]].
  destruct (heap s !! p) as [c|]; [|exists []; split; [by rewrite app_nil_r|set_solver]].
  st_simpl. destruct (Closed (events s)) as [cb|].
  - destruct (cb (ustate s) p c err) as [u a].
    exists [SysClose (c_fd c); CallClosed p err].
    split; [destruct a; st_simpl; by rewrite <- app_assoc|].
    intros o [->|[->|[]%elem_of_nil]%elem_of_cons]%elem_of_cons; eauto.
  - exists [SysClose (c_fd c)]. split; [done|].
    intros o [->|[]%elem_of_nil]%elem_of_cons; eauto.
Qed.

(** The callbacks and system calls of [loopOpened], in order. *)
Lemma trace_loopOpened li p k s :
  ∃ tl, trace (loopOpened SockaddrToAddr li p k s).1 = trace s ++ tl ∧
        ∀ o, o ∈ tl → o = CallOpened p ∨ ∃ fd secs, o = SysSetKeepAlive fd secs.
Proof.
  unfold loopOpened.
  destruct (loops s !! li) as [l|]; [|exists []; split; [by rewrite app_nil_r|set_solver]].
  destruct (heap s !! p) as [c|]; [|exists []; split; [by rewrite app_nil_r|set_solver]].
  st_simpl. destruct (Opened (events s)) as [cb|].
  2:{ exists []. cbn [fst]. rewrite trace_narrow_if_idle. st_simpl.
      split; [by rewrite app_nil_r|set_solver]. }
  destruct (cb _ _ _) as [u [[o opts] a]]. st_simpl.
  destruct ((0 <? TCPKeepAlive opts) && isTCP (ln s)).
  - eexists [CallOpened p; SysSetKeepAlive _ _]. split.
    + destruct (k_keepalive k); cbn [fst]; rewrite ?trace_narrow_if_idle; st_simpl;
        by rewrite <- app_assoc.
    + intros x [->|[->|[]%elem_of_nil]%elem_of_cons]%elem_of_cons; eauto.
  - exists [CallOpened p]. cbn [fst]. rewrite trace_narrow_if_idle. split; [done|].
    intros x [->|[]%elem_of_nil]%elem_of_cons; eauto.
Qed.

Lemma trace_loopWrite li p k s :
  ∃ tl, trace (loopWrite li p k s).1 = trace s ++ tl ∧
        ∀ o, o ∈ tl → (∃ fd d, o = SysWrite fd d) ∨ (∃ fd, o = SysClose fd) ∨
                      ∃ err, o = CallClosed p err.
Proof.
  unfold loopWrite.
  destruct (loops s !! li) as [l|]; [|exists []; split; [by rewrite app_nil_r|set_solver]].
  destruct (heap s !! p) as [c|]; [|exists []; split; [by rewrite app_nil_r|set_solver]].
  assert (∀ o, o ∈ [SysWrite (c_fd c) (out c)] →
     (∃ fd d, o = SysWrite fd d) ∨ (∃ fd, o = SysClose fd) ∨ ∃ err, o = CallClosed p err)
    as Hone by (intros o [->|[]%elem_of_nil]%elem_of_cons; eauto).
  destruct (k_write k) as [n|e].
  - destruct (n =? len (out c)); [|destruct ((0 <=? n) && (n <=? len (out c)))];
      cbn [fst]; rewrite ?trace_narrow_if_idle; by eexists.
  - case_decide; [by eexists|].
    destruct (trace_loopCloseConn li p (Some e) (emit (SysWrite (c_fd c) (out c)) s))
      as (tl & -> & Htl).
    exists (SysWrite (c_fd c) (out c) :: tl). st_simpl.
    split; [by rewrite <- app_assoc|].
    intros o [->|Ho]%elem_of_cons; [eauto|].
    destruct (Htl o Ho) as [?| ->]; eauto.
Qed.

Lemma take_read_into (pkt data : list byte) :
  take (length data) (read_into pkt data) = data.
Proof. unfold read_into. by rewrite take_app_length. Qed.

Lemma loopRead_data li p k s l c data cb :
  loops s !! li = Some l → heap s !! p = Some c →
  k_read k = inl data → data ≠ [] → len data ≤ len (packet l) →
  Data (events s) = Some cb →
  let oa := (cb (ustate s) p c data).2 in
  let c1 := set_action oa.2 c in
  let c' := if 0 <? len oa.1 then set_out oa.1 c1 else c1 in
  let l1 := set_packet (read_into (packet l) data) l in
  loopRead li p k s =
    (with_state s
       (<[li := if idle c' then l1 else upd_poll (ModReadWrite (c_fd c)) l1]> (loops s))
       (<[p := c']> (heap s)) (nextptr s) (cb (ustate s) p c data).1
       (trace s ++ [SysRead (c_fd c); CallData p data (reuse c)]), Ret None).
Proof.
  intros Hl Hc Hk Hne Hlen HD oa c1 c'. unfold loopRead. rewrite Hl, Hc, Hk.
  subst oa c1 c'. destruct data as [|b d]; [done|]. set (data := b :: d) in *.
  destruct (Z.ltb_spec (len (packet l)) (len data)); [lia|].
  st_simpl. rewrite HD, take_read_into.
  destruct (cb (ustate s) p c data) as [u [o a]]. cbn [fst snd].
  rewrite widen_if_busy_eq.
  destruct (idle _); st_eq; first [by norm_loops Hl | by rewrite <- app_assoc | idtac].
  norm_loops Hl. by destruct (0 <? len o).
Qed.

Lemma loopRead_close li p k s l c err :
  loops s !! li = Some l → heap s !! p = Some c →
  (k_read k = inl [] ∧ err = None) ∨
    (∃ e, k_read k = inr e ∧ e ≠ EAGAIN ∧ err = Some e) →
  loopRead li p k s = loopCloseConn li p err (emit (SysRead (c_fd c)) s).
Proof.
  intros Hl Hc Hk. unfold loopRead. rewrite Hl, Hc.
  destruct Hk as [[-> ->]|(e & -> & He & ->)]; [done|].
  by rewrite decide_False.
Qed.

Lemma heap_narrow_if_idle li c s : heap (narrow_if_idle li c s) = heap s.
Proof. rewrite narrow_if_idle_eq. by destruct (idle c). Qed.

(** [loopOpened] stores the [ReuseInputBuffer] option in [c.reuse]. *)
Lemma loopOpened_reuse li p k s l c cb :
  loops s !! li = Some l → heap s !! p = Some c → Opened (events s) = Some cb →
  let c0 := set_opened (lnaddr (ln s)) (SockaddrToAddr (sa c)) c in
  ∃ c1, heap (loopOpened SockaddrToAddr li p k s).1 !! p = Some c1 ∧
        reuse c1 = ReuseInputBuffer (cb (ustate s) p c0).2.1.2.
Proof.
  intros Hl Hc HO c0. unfold loopOpened. rewrite Hl, Hc. st_simpl. rewrite HO.
  fold c0. destruct (cb (ustate s) p c0) as [u [[o opts] a]]. st_simpl.
  destruct ((0 <? TCPKeepAlive opts) && isTCP (ln s)); [destruct (k_keepalive k)|];
    cbn [fst]; rewrite ?heap_narrow_if_idle; st_simpl;
    eexists; (split; [apply lookup_insert_eq|done]).
Qed.

(** C5.  For a connection with a non-empty outbound buffer [OnFdEvent]
    performs no read.  For an opened connection with an empty buffer and
    action [None] it takes the read transition: on [EAGAIN] the server is left as it was, but
    for the trace entry of the attempt, and no callback runs; on a zero-byte
    read (error nil) or any other error the connection is closed through
    [loopCloseConn] with that error passed to [Closed]; otherwise [Data]
    receives exactly the bytes read, as a copy unless the connection reuses
    the input buffer, its action is recorded, its bytes become the outbound
    buffer, and the interest is widened with [ModReadWrite] when the buffer
    is now non-empty or the action is not [None].  Whether a connection
    reuses the input buffer is the [ReuseInputBuffer] option that [Opened]
    returned for it. *)
Theorem read_transition s li l fd p c k :
  loops s !! li = Some l → fdconns l !! fd = Some p → heap s !! p = Some c →
  let r := OnFdEvent SockaddrToAddr li fd k s in
  (∀ s0 l0 p0 c0 k0 cb,
     loops s0 !! li = Some l0 → heap s0 !! p0 = Some c0 →
     Opened (events s0) = Some cb →
     ∃ c1, heap (loopOpened SockaddrToAddr li p0 k0 s0).1 !! p0 = Some c1 ∧
           reuse c1 = ReuseInputBuffer
             (cb (ustate s0) p0
                (set_opened (lnaddr (ln s0)) (SockaddrToAddr (sa c0)) c0)).2.1.2) ∧
  (out c ≠ [] → ∀ fd', SysRead fd' ∉ new_obs s r.1) ∧
  (opened c = true → out c = [] → action c = Action.None →
     (k_read k = inr EAGAIN → r = (emit (SysRead (c_fd c)) s, Ret None)) ∧
     (∀ err,
        (k_read k = inl [] ∧ err = None) ∨
          (∃ e, k_read k = inr e ∧ e ≠ EAGAIN ∧ err = Some e) →
        r.2 = closed_ret s p c err ∧
        heap r.1 = heap s ∧
        loops r.1 = <[li := closed_loop (c_fd c) l]> (loops s) ∧
        trace r.1 = trace s ++ SysRead (c_fd c) :: SysClose (c_fd c)
                            :: closed_obs s p err) ∧
     (∀ data cb,
        k_read k = inl data → data ≠ [] → len data ≤ len (packet l) →
        Data (events s) = Some cb →
        let oa := (cb (ustate s) p c data).2 in
        r.2 = Ret None ∧
        trace r.1 = trace s ++ [SysRead (c_fd c); CallData p data (reuse c)] ∧
        heap r.1 = <[p := set_out oa.1 (set_action oa.2 c)]> (heap s) ∧
        loops r.1 =
          <[li := (if decide (oa.1 ≠ [] ∨ oa.2 ≠ Action.None)
                   then upd_poll (ModReadWrite (c_fd c)) else id)
                    (set_packet (read_into (packet l) data) l)]> (loops s))).
Proof.
  intros Hl Hfd Hc r. split; [|split].
  - intros s0 l0 p0 c0 k0 cb Hl0 Hc0 HO. by eapply loopOpened_reuse.
  - intros Hout fd'. destruct (opened c) eqn:Hop.
    + assert (r = loopWrite li p k s) as ->.
      { unfold r, OnFdEvent. rewrite Hl, Hfd, Hc, Hop. cbn [negb].
        apply len_eqb_0_false in Hout. by rewrite Hout. }
      destruct (trace_loopWrite li p k s) as (tl & Htr & Htl).
      rewrite (new_obs_app _ _ _ Htr). intros Hin.
      destruct (Htl _ Hin) as [(? & ? & ?)|[(? & ?)|(? & ?)]]; discriminate.
    + assert (r = loopOpened SockaddrToAddr li p k s) as ->.
      { unfold r, OnFdEvent. by rewrite Hl, Hfd, Hc, Hop. }
      destruct (trace_loopOpened li p k s) as (tl & Htr & Htl).
      rewrite (new_obs_app _ _ _ Htr). intros Hin.
      destruct (Htl _ Hin) as [?|(? & ? & ?)]; discriminate.
  - intros Hop Hout Hact.
    assert (r = loopRead li p k s) as ->.
    { unfold r, OnFdEvent. rewrite Hl, Hfd, Hc, Hop, Hout, Hact. done. }
    split; [|split].
    + intros Hk. unfold loopRead. rewrite Hl, Hc, Hk. by case_decide.
    + intros err Hk. rewrite (loopRead_close li p k s l c err) by done.
      rewrite (loopCloseConn_eq li p err _ l c) by done. st_simpl.
      repeat split; try done. by rewrite <- app_assoc.
    + intros data cb Hk Hne Hlen HD oa.
      rewrite (loopRead_data li p k s l c data cb) by done. st_simpl.
      fold oa. repeat split; try done.
      * f_equal. destruct (Z.ltb_spec 0 (len oa.1)) as [Hlt|Hge]; [done|].
        apply len_nonpos in Hge as ->.
        destruct c. cbn in Hout. by subst.
      * f_equal.
        assert (idle (if 0 <? len oa.1 then set_out oa.1 (set_action oa.2 c)
                      else set_action oa.2 c)
                = negb (bool_decide (oa.1 ≠ [] ∨ oa.2 ≠ Action.None))) as ->.
        { destruct (Z.ltb_spec 0 (len oa.1)) as [Hlt|Hge].
          - apply len_pos in Hlt as Ho.
            rewrite bool_decide_eq_true_2 by auto. cbn [negb].
            apply not_true_iff_false. rewrite idle_spec. cbn. tauto.
          - apply len_nonpos in Hge as Ho.
            unfold idle. cbn [out action set_action]. rewrite Hout. cbn [len length Z.eqb Z.of_nat andb].
            destruct (decide (oa.2 = Action.None)) as [Ha|Ha].
            + rewrite Ha. cbn. rewrite bool_decide_eq_false_2; [done|]. tauto.
            + rewrite bool_decide_eq_true_2 by auto. cbn [negb].
              by apply is_None_false. }
        destruct (decide (oa.1 ≠ [] ∨ oa.2 ≠ Action.None)) as [Hd|Hd];
          [rewrite bool_decide_eq_true_2 by done
          |rewrite bool_decide_eq_false_2 by done]; done.
Qed.

(** ** Writes from any thread *)

Lemma conn_willWrite_eq p data k s c l :
  heap s !! p = Some c → loops s !! c_loop c = Some l →
  len (wch l) < writeEventBuf →
  let w := {| w_c := p; w_data := data |} in
  conn_willWrite p data k s =
    (with_state s
       (<[c_loop c := (if k_fire k is None then upd_poll (poll_enqueue EventWrite) else id)
                        (set_wch (wch l ++ [w]) l)]> (loops s))
       (heap s) (nextptr s) (ustate s) (trace s ++ [PollFire (c_loop c) EventWrite]),
     Ret (k_fire k)).
Proof.
  intros Hc Hl Hfull w. unfold conn_willWrite. rewrite Hc, Hl.
  destruct (Z.ltb_spec (len (wch l)) writeEventBuf); [|lia].
  destruct (k_fire k); st_eq; by norm_loops Hl.
Qed.

(** C7.  [conn.Write] first attempts the write on the fd.  On [EAGAIN] the
    whole data, and after a partial write of [n] bytes the data from [n] on,
    is appended to the pending-writes channel of the owning loop (as soon as
    the channel has room) and [FireEvent(EventWrite)] is called on that
    loop's poller.  On delivery of [EventWrite] the loop takes at most one
    pending write off the channel, appends its data to the outbound buffer
    of the connection it names and widens that fd's interest with
    [ModReadWrite]; with an empty channel it does nothing. *)
Theorem cross_loop_write s p c l data k :
  heap s !! p = Some c → loops s !! c_loop c = Some l →
  let r := conn_Write p data k s in
  (∃ tl, trace r.1 = trace s ++ SysWrite (c_fd c) data :: tl) ∧
  (∀ rest,
     (k_write k = inr EAGAIN ∧ rest = data) ∨
       (∃ n, k_write k = inl n ∧ 0 ≤ n < len data ∧ rest = drop (Z.to_nat n) data) →
     len (wch l) < writeEventBuf →
     r.2 = Ret (k_fire k) ∧
     heap r.1 = heap s ∧
     loops r.1 =
       <[c_loop c := (if k_fire k is None then upd_poll (poll_enqueue EventWrite) else id)
                       (set_wch (wch l ++ [{| w_c := p; w_data := rest |}]) l)]> (loops s) ∧
     trace r.1 = trace s ++ [SysWrite (c_fd c) data; PollFire (c_loop c) EventWrite]) ∧
  (∀ li l0, loops s !! li = Some l0 →
     let d := OnEvent li EventWrite s in
     (wch l0 = [] → d = (s, Ret None)) ∧
     (∀ w ws tc, wch l0 = w :: ws → heap s !! w_c w = Some tc →
        d.2 = Ret None ∧
        heap d.1 = <[w_c w := set_out (out tc ++ w_data w) tc]> (heap s) ∧
        loops d.1 = <[li := upd_poll (ModReadWrite (c_fd tc)) (set_wch ws l0)]> (loops s) ∧
        trace d.1 = trace s ∧
        (is_Some (interest (poll l0) !! c_fd tc) →
           ∃ l', loops d.1 !! li = Some l' ∧ wch l' = ws ∧
                 interest (poll l') !! c_fd tc = Some ReadWrite))).
Proof.
  intros Hc Hl r. split; [|split].
  - unfold r, conn_Write. rewrite Hc. destruct (k_write k) as [n|e].
    + destruct (n <? len data); [|by exists []].
      destruct (0 <=? n); [|by exists []].
      unfold conn_willWrite. st_simpl. rewrite Hc, Hl.
      destruct (len (wch l) <? writeEventBuf); [|by exists []].
      destruct (k_fire k); st_simpl; rewrite <- app_assoc; by eexists.
    + case_decide; [|by exists []].
      unfold conn_willWrite. st_simpl. rewrite Hc, Hl.
      destruct (len (wch l) <? writeEventBuf); [|by exists []].
      destruct (k_fire k); st_simpl; rewrite <- app_assoc; by eexists.
  - intros rest Hk Hfull.
    assert (r = conn_willWrite p rest k (emit (SysWrite (c_fd c) data) s)) as ->.
    { unfold r, conn_Write. rewrite Hc.
      destruct Hk as [[-> ->]|(n & -> & Hn & ->)]; [done|].
      destruct (Z.ltb_spec n (len data)); [|lia].
      destruct (Z.leb_spec 0 n); [done|lia]. }
    rewrite (conn_willWrite_eq p rest k _ c l) by done. st_simpl.
    repeat split; try done. by rewrite <- app_assoc.
  - intros li l0 Hl0 d. unfold d, OnEvent. rewrite Hl0. split.
    + by intros ->.
    + intros w ws tc -> Htc. st_simpl. rewrite Htc. st_simpl.
      norm_loops Hl0. repeat split; try done.
      intros [i Hi]. eexists. split.
      * apply list_lookup_insert_eq. by eapply lookup_lt_Some.
      * split; [done|]. cbn. by rewrite lookup_alter_eq, Hi.
Qed.

(** ** Keep-alive failure in [loopOpened] *)

Lemma loopOpened_keepalive_fail li p k s l c cb err :
  loops s !! li = Some l → heap s !! p = Some c →
  Opened (events s) = Some cb →
  let c0 := set_opened (lnaddr (ln s)) (SockaddrToAddr (sa c)) c in
  let res := cb (ustate s) p c0 in
  0 < TCPKeepAlive res.2.1.2 → isTCP (ln s) = true → k_keepalive k = Some err →
  let c1 := set_reuse (ReuseInputBuffer res.2.1.2)
              (set_action res.2.2
                 (if 0 <? len res.2.1.1 then set_out res.2.1.1 c0 else c0)) in
  loopOpened SockaddrToAddr li p k s =
    (with_state s (loops s) (<[p := c1]> (heap s)) (nextptr s) res.1
       (trace s ++ [CallOpened p;
                    SysSetKeepAlive (c_fd c) (TCPKeepAlive res.2.1.2 ÷ second)]),
     Ret (Some err)).
Proof.
  intros Hl Hc HO c0 res Hka Htcp Hk c1. unfold loopOpened.
  rewrite Hl, Hc. st_simpl. rewrite HO. fold c0. subst c1 res.
  destruct (cb (ustate s) p c0) as [u [[o opts] a]]. cbn [fst snd] in *.
  st_simpl. rewrite Htcp, Hk.
  destruct (Z.ltb_spec 0 (TCPKeepAlive opts)); [|lia]. cbn [andb].
  st_eq.
  - by rewrite insert_insert_eq.
  - rewrite <- app_assoc. by destruct (0 <? len o).
Qed.

Lemma OnFdEvent_io_error li fd k s l p c e :
  loops s !! li = Some l → fdconns l !! fd = Some p → heap s !! p = Some c →
  opened c = true → e ≠ EAGAIN →
  (out c ≠ [] ∧ k_write k = inr e) ∨
    (out c = [] ∧ action c = Action.None ∧ k_read k = inr e) →
  ∃ o, o ∈ [SysWrite (c_fd c) (out c); SysRead (c_fd c)] ∧
       OnFdEvent SockaddrToAddr li fd k s = loopCloseConn li p (Some e) (emit o s).
Proof.
  intros Hl Hfd Hc Hop He Hio. unfold OnFdEvent. rewrite Hl, Hfd, Hc, Hop. cbn [negb].
  destruct Hio as [[Ho Hk]|(Ho & Ha & Hk)].
  - apply len_eqb_0_false in Ho. rewrite Ho. cbn [negb].
    exists (SysWrite (c_fd c) (out c)). split; [set_solver|].
    unfold loopWrite. rewrite Hl, Hc, Hk. by rewrite decide_False.
  - rewrite Ha. apply len_eqb_0 in Ho as Ho'. rewrite Ho'. cbn [negb Action.is_None].
    exists (SysRead (c_fd c)). split; [set_solver|].
    unfold loopRead. rewrite Hl, Hc, Hk. by rewrite decide_False.
Qed.

(** C10.  When [Opened] asks for a positive [TCPKeepAlive] on a TCP
    listener and setting it fails, [loopOpened] returns the error, and the
    poller's [Wait] returns it: the loop handles no further wake.  The loop
    itself is untouched (the fd stays in its map, the count is the same),
    and the only calls made are [Opened] and the failed keep-alive: no
    [close], no [Closed].  By contrast, a read or write error other than
    [EAGAIN] on an opened connection closes that connection, invokes
    [Closed] with the error and, unless [Closed] asks for [Shutdown], lets
    the loop go on with its next wake. *)
Theorem keepalive_failure_ends_loop s li l fd p c k cb err ws :
  loops s !! li = Some l → fdconns l !! fd = Some p → heap s !! p = Some c →
  opened c = false → Opened (events s) = Some cb →
  let c0 := set_opened (lnaddr (ln s)) (SockaddrToAddr (sa c)) c in
  let opts := (cb (ustate s) p c0).2.1.2 in
  0 < TCPKeepAlive opts → isTCP (ln s) = true → k_keepalive k = Some err →
  let r := OnFdEvent SockaddrToAddr li fd k s in
  (r.2 = Ret (Some err) ∧
   loopRun SockaddrToAddr li (FdReady fd k :: ws) s = (r.1, Some (Ret (Some err))) ∧
   loops r.1 = loops s ∧
   new_obs s r.1 = [CallOpened p; SysSetKeepAlive (c_fd c) (TCPKeepAlive opts ÷ second)] ∧
   ∃ c', heap r.1 !! p = Some c' ∧ opened c' = true ∧ c_fd c' = c_fd c) ∧
  (∀ s2 l2 fd2 p2 c2 k2 e,
     loops s2 !! li = Some l2 → fdconns l2 !! fd2 = Some p2 → heap s2 !! p2 = Some c2 →
     opened c2 = true → e ≠ EAGAIN →
     (out c2 ≠ [] ∧ k_write k2 = inr e) ∨
       (out c2 = [] ∧ action c2 = Action.None ∧ k_read k2 = inr e) →
     let r2 := OnFdEvent SockaddrToAddr li fd2 k2 s2 in
     loops r2.1 = <[li := closed_loop (c_fd c2) l2]> (loops s2) ∧
     (is_Some (Closed (events s2)) → CallClosed p2 (Some e) ∈ new_obs s2 r2.1) ∧
     (closed_ret s2 p2 c2 (Some e) = Ret None →
        loopRun SockaddrToAddr li (FdReady fd2 k2 :: ws) s2
        = loopRun SockaddrToAddr li ws r2.1)).
Proof.
  intros Hl Hfd Hc Hop HO c0 opts Hka Htcp Hk r. split.
  - assert (r = loopOpened SockaddrToAddr li p k s) as Hr.
    { unfold r, OnFdEvent. by rewrite Hl, Hfd, Hc, Hop. }
    pose proof (loopOpened_keepalive_fail li p k s l c cb err Hl Hc HO Hka Htcp Hk) as Heq.
    cbn zeta in Heq. rewrite <- Hr in Heq.
    unfold loopRun. cbn [pollWait handle]. fold r. rewrite Heq. st_simpl.
    repeat split.
    + unfold new_obs. st_simpl. by rewrite drop_app_length.
    + eexists. split; [apply lookup_insert_eq|].
      cbn [opened c_fd set_reuse set_action]. by destruct (0 <? len _).
  - intros s2 l2 fd2 p2 c2 k2 e Hl2 Hfd2 Hc2 Hop2 He Hio r2.
    destruct (OnFdEvent_io_error li fd2 k2 s2 l2 p2 c2 e Hl2 Hfd2 Hc2 Hop2 He Hio)
      as (o & Ho & Heq).
    unfold loopRun. cbn [pollWait handle]. fold r2. subst r2. rewrite Heq.
    rewrite (loopCloseConn_eq li p2 (Some e) (emit o s2) l2 c2) by done.
    st_simpl. repeat split.
    + intros [cb2 Hcb]. unfold new_obs, closed_obs. st_simpl. rewrite Hcb.
      rewrite <- app_assoc, drop_app_length. do 3 constructor.
    + intros Hret. unfold closed_ret in *. st_simpl. by rewrite Hret.
Qed.

(** ** What a step does to the maps *)

Lemma maps_of_alter_frame (f : loop → loop) li (ls : list loop) :
  (∀ l, fdconns (f l) = fdconns l ∧ count (f l) = count l) →
  maps_of (alter f li ls) = maps_of ls.
Proof.
  intros Hf. unfold maps_of. apply list_eq. intros j.
  rewrite !list_lookup_fmap. destruct (decide (li = j)) as [<-|Hne].
  - rewrite list_lookup_alter_eq. destruct (ls !! li) as [l|]; [|done].
    cbn. destruct (Hf l) as [-> ->]. done.
  - by rewrite list_lookup_alter_ne.
Qed.

Lemma maps_of_lookup (ls ls' : list loop) li l' :
  maps_of ls' = maps_of ls → ls' !! li = Some l' →
  ∃ l, ls !! li = Some l ∧ fdconns l = fdconns l' ∧ count l = count l'.
Proof.
  intros Hm Hl'. apply (f_equal (λ x, x !! li)) in Hm. unfold maps_of in Hm.
  rewrite !list_lookup_fmap, Hl' in Hm. destruct (ls !! li) as [l|]; [|done].
  cbn in Hm. injection Hm as H1 H2. eauto.
Qed.

Lemma closed_calls_app p (t1 t2 : list obs) :
  closed_calls p (t1 ++ t2) = (closed_calls p t1 + closed_calls p t2)%nat.
Proof. unfold closed_calls. by rewrite List.filter_app, length_app. Qed.

Lemma frame_heap_refl (h : gmap ptr (@conn Sockaddr Addr Ctx)) : frame_heap h h.
Proof. intros p. by destruct (h !! p). Qed.

Lemma frame_heap_put (h : gmap ptr (@conn Sockaddr Addr Ctx)) p c c' :
  h !! p = Some c → c_fd c' = c_fd c → c_loop c' = c_loop c →
  frame_heap h (<[p := c']> h).
Proof.
  intros Hc Hfd Hlp q. destruct (decide (p = q)) as [<-|Hne].
  - by rewrite Hc, lookup_insert_eq.
  - rewrite lookup_insert_ne by done. by destruct (h !! q).
Qed.

Lemma change_frame_intro s s' :
  events s' = events s → maps_of (loops s') = maps_of (loops s) →
  frame_heap (heap s) (heap s') → nextptr s' = nextptr s →
  (∀ q, closed_calls q (trace s') = closed_calls q (trace s)) →
  change s s'.
Proof. intros. split; [done|]. left. done. Qed.

Lemma change_refl s : change s s.
Proof. apply change_frame_intro; try done. apply frame_heap_refl. Qed.

(** A step taken after an entry other than a [Closed] call was traced. *)
Lemma change_after_emit o s s' :
  (∀ q, is_closed_of q o = false) → change (emit o s) s' → change s s'.
Proof.
  intros Ho [Hev Hch]. split; [done|]. st_simpl_in Hch.
  assert (∀ q, closed_calls q (trace s ++ [o]) = closed_calls q (trace s)) as Hq.
  { intros q. rewrite closed_calls_app. unfold closed_calls at 2. cbn.
    rewrite Ho. cbn. lia. }
  destruct Hch as [(? & ? & ? & Hc)|[(li & l & l' & nfd & a & ? & ? & ? & ? & ? & ? & ? & Hc)
                  |(li & l & l' & p & c & ? & ? & ? & ? & ? & ? & ? & ? & Hc)]].
  - left. repeat split; try done. intros q. by rewrite Hc, Hq.
  - right. left. exists li, l, l', nfd, a. repeat split; try done.
    intros q. by rewrite Hc, Hq.
  - right. right. exists li, l, l', p, c. repeat split; try done.
    intros q. by rewrite Hc, Hq.
Qed.

Ltac frame_tac :=
  apply change_frame_intro; st_simpl;
  [ reflexivity
  | rewrite ?maps_of_alter_frame by (intros ?; split; reflexivity); reflexivity
  | rewrite ?insert_insert_eq;
    first [ apply frame_heap_refl
          | eapply frame_heap_put; [eassumption|..];
            repeat lazymatch goal with
                   | |- context [if ?b then _ else _] => destruct b
                   end; reflexivity ]
  | reflexivity
  | intros ?; rewrite ?closed_calls_app; unfold closed_calls; cbn; lia ].

Ltac split_idle :=
  rewrite ?narrow_if_idle_eq, ?widen_if_busy_eq;
  repeat lazymatch goal with
         | |- context [if idle ?c then _ else _] => destruct (idle c)
         end.

Lemma change_loopCloseConn s li l p c err :
  loops s !! li = Some l → heap s !! p = Some c → fdconns l !! c_fd c = Some p →
  change s (loopCloseConn li p err s).1.
Proof.
  intros Hl Hc Hfd. rewrite (loopCloseConn_eq li p err s l c) by done.
  split; [done|]. st_simpl. right. right.
  exists li, l, (closed_loop (c_fd c) l), p, c. repeat split; try done.
  intros q. rewrite closed_calls_app. f_equal. unfold closed_obs, closed_calls.
  destruct (Closed (events s)) as [cb|].
  - rewrite bool_decide_eq_true_2 by eauto. cbn. by destruct (q =? p)%nat.
  - rewrite bool_decide_eq_false_2 by (by intros [? ?]). done.
Qed.

Lemma change_do_accept s li l k :
  loops s !! li = Some l → fresh_accept li k s → change s (do_accept li k s).1.
Proof.
  intros Hl Hfresh. unfold do_accept.
  destruct (k_accept k) as [[nfd a]|err] eqn:Hk.
  2:{ case_decide; frame_tac. }
  destruct (k_setnonblock k); [frame_tac|].
  split; [done|]. st_simpl. right. left.
  exists li, l, (accepted_loop nfd (nextptr s) l), nfd, a.
  repeat split; try done.
  - by eapply Hfresh.
  - by norm_loops Hl.
  - intros q. rewrite !closed_calls_app. unfold closed_calls. cbn. lia.
Qed.

Lemma change_loopAccept s li k :
  fresh_accept li k s → change s (loopAccept li k s).1.
Proof.
  intros Hfresh. unfold loopAccept.
  destruct (loops s !! li) as [l|] eqn:Hl; [|apply change_refl].
  destruct (1 <? len (loops s)); [|by eapply change_do_accept].
  destruct (balance s).
  - by eapply change_do_accept.
  - destruct (negb _); [apply change_refl|].
    by apply (change_do_accept (set_accepted _ s) li l k).
  - destruct (someone_idler _ _); [apply change_refl|by eapply change_do_accept].
Qed.

Lemma change_loopOpened s li p k :
  change s (loopOpened SockaddrToAddr li p k s).1.
Proof.
  unfold loopOpened.
  destruct (loops s !! li) as [l|] eqn:Hl; [|apply change_refl].
  destruct (heap s !! p) as [c|] eqn:Hc; [|apply change_refl].
  st_simpl. destruct (Opened (events s)) as [cb|].
  - destruct (cb _ _ _) as [u [[o opts] a]]. st_simpl.
    destruct ((0 <? TCPKeepAlive opts) && isTCP (ln s)); [destruct (k_keepalive k)|];
      cbn [fst]; split_idle; frame_tac.
  - cbn [fst]. split_idle; frame_tac.
Qed.



Lemma change_loopWrite s li l p c k :
  loops s !! li = Some l → heap s !! p = Some c → fdconns l !! c_fd c = Some p →
  change s (loopWrite li p k s).1.
Proof.
  intros Hl Hc Hfd. unfold loopWrite. rewrite Hl, Hc.
  destruct (k_write k) as [n|e].
  - destruct (n =? len (out c)); [|destruct ((0 <=? n) && (n <=? len (out c)))];
      cbn [fst]; split_idle; frame_tac.
  - case_decide; [frame_tac|].
    eapply change_after_emit; [|by eapply change_loopCloseConn]. done.
Qed.

Lemma change_loopAction s li l p c :
  loops s !! li = Some l → heap s !! p = Some c → fdconns l !! c_fd c = Some p →
  change s (loopAction li p s).1.
Proof.
  intros Hl Hc Hfd. unfold loopAction. rewrite Hl, Hc.
  destruct (action c); first [by eapply change_loopCloseConn | apply change_refl | idtac];
    cbn [fst]; split_idle; frame_tac.
Qed.

Lemma change_loopRead s li l p c k :
  loops s !! li = Some l → heap s !! p = Some c → fdconns l !! c_fd c = Some p →
  change s (loopRead li p k s).1.
Proof.
  intros Hl Hc Hfd. unfold loopRead. rewrite Hl, Hc.
  destruct (k_read k) as [data|e].
  - destruct data as [|b d].
    { eapply change_after_emit; [|by eapply change_loopCloseConn]. done. }
    destruct (len (packet l) <? len (b :: d)); [frame_tac|].
    st_simpl. destruct (Data (events s)) as [cb|].
    + destruct (cb _ _ _ _) as [u [o a]]. cbn [fst]. split_idle; frame_tac.
    + cbn [fst]. split_idle; frame_tac.
  - case_decide; [frame_tac|].
    eapply change_after_emit; [|by eapply change_loopCloseConn]. done.
Qed.

Lemma wf_entry s li l fd p :
  wf s → loops s !! li = Some l → fdconns l !! fd = Some p →
  ∃ c, heap s !! p = Some c ∧ c_fd c = fd ∧ c_loop c = li.
Proof. intros [Hm _]. apply Hm. Qed.

Lemma change_OnFdEvent s li fd k :
  wf s → fresh_accept li k s → change s (OnFdEvent SockaddrToAddr li fd k s).1.
Proof.
  intros Hwf Hfresh. unfold OnFdEvent.
  destruct (loops s !! li) as [l|] eqn:Hl; [|apply change_refl].
  destruct (fdconns l !! fd) as [p|] eqn:Hfd; [|by apply change_loopAccept].
  destruct (wf_entry s li l fd p Hwf Hl Hfd) as (c & Hc & <- & _). rewrite Hc.
  destruct (negb (opened c)); [apply change_loopOpened|].
  destruct (negb (len (out c) =? 0)); [by eapply change_loopWrite|].
  destruct (negb (Action.is_None (action c)));
    [by eapply change_loopAction|by eapply change_loopRead].
Qed.

Lemma change_OnEvent s li (tag : Event) : change s (OnEvent li tag s).1.
Proof.
  unfold OnEvent. destruct (loops s !! li) as [l|] eqn:Hl; [|apply change_refl].
  destruct tag; try apply change_refl.
  - destruct (Tick (events s)) as [cb|]; [|apply change_refl].
    destruct (cb _) as [u [delay a]]. destruct a; frame_tac.
  - destruct (wch l) as [|w ws]; [apply change_refl|]. st_simpl.
    destruct (heap s !! w_c w) as [c|] eqn:Hc; frame_tac.
Qed.

Lemma change_conn_willWrite s p data k : change s (conn_willWrite p data k s).1.
Proof.
  unfold conn_willWrite.
  destruct (heap s !! p) as [c|]; [|apply change_refl].
  destruct (loops s !! c_loop c) as [l|]; [|apply change_refl].
  destruct (len (wch l) <? writeEventBuf); [|apply change_refl].
  destruct (k_fire k); frame_tac.
Qed.

Lemma change_conn_Write s p data k : change s (conn_Write p data k s).1.
Proof.
  unfold conn_Write. destruct (heap s !! p) as [c|] eqn:Hc; [|apply change_refl].
  destruct (k_write k) as [n|e].
  - destruct (n <? len data); [|frame_tac].
    destruct (0 <=? n); [|frame_tac].
    eapply change_after_emit; [|apply change_conn_willWrite]. done.
  - case_decide; [|frame_tac].
    eapply change_after_emit; [|apply change_conn_willWrite]. done.
Qed.

(** Every step is a frame step, an accept or a close. *)
Lemma step_change s s' : wf s → step SockaddrToAddr s s' → change s s'.
Proof.
  intros Hwf Hstep. destruct Hstep as [li fd k s Hf|li tag s|p data k s|li l fd p s Hl Hfd].
  - by apply change_OnFdEvent.
  - apply change_OnEvent.
  - apply change_conn_Write.
  - destruct (wf_entry s li l fd p Hwf Hl Hfd) as (c & Hc & <- & _).
    by eapply change_loopCloseConn.
Qed.

(** ** The invariants are kept by every change *)


Lemma insert_loop_lookup (ls : list loop) li l l' lj l2 :
  ls !! li = Some l → <[li := l']> ls !! lj = Some l2 →
  (lj = li ∧ l2 = l') ∨ (lj ≠ li ∧ ls !! lj = Some l2).
Proof.
  intros Hl H2. destruct (decide (li = lj)) as [<-|Hne].
  - rewrite list_lookup_insert_eq in H2 by (by eapply lookup_lt_Some).
    left. by injection H2.
  - rewrite list_lookup_insert_ne in H2 by done. right. done.
Qed.

Lemma change_wf s s' : wf s → change s s' → wf s'.
Proof.
  intros [Hm Hb] [_ Hch]. unfold wf, wf_core.
  destruct Hch as [(Hmaps & Hfr & -> & _)
    |[(li & l & l' & nfd & a & Hl & Hfresh & -> & Hfd' & _ & -> & -> & _)
     |(li & l & l' & p & c & Hl & Hc & Hfd & -> & Hfd' & _ & -> & -> & _)]].
  - split.
    + intros lj l2 fd p Hl2 Hp.
      destruct (maps_of_lookup _ _ _ _ Hmaps Hl2) as (l1 & Hl1 & Hf & _).
      rewrite <- Hf in Hp. destruct (Hm _ _ _ _ Hl1 Hp) as (c & Hc & ? & ?).
      specialize (Hfr p). rewrite Hc in Hfr.
      destruct (heap s' !! p) as [c'|]; [|done]. destruct Hfr as [Hf1 Hf2].
      exists c'. repeat split; congruence.
    + intros p [c' Hc']. apply Hb. specialize (Hfr p). revert Hfr.
      destruct (heap s !! p); [by eexists|]. by rewrite Hc'.
  - split.
    + intros lj l2 fd p Hl2 Hp.
      assert (∀ l1, loops s !! lj = Some l1 → fdconns l1 !! fd = Some p →
                ∃ c, <[nextptr s := new_conn nfd a li]> (heap s) !! p = Some c ∧
                     c_fd c = fd ∧ c_loop c = lj) as Hold.
      { intros l1 Hl1 Hp1. destruct (Hm _ _ _ _ Hl1 Hp1) as (c & Hc & ? & ?).
        exists c. rewrite lookup_insert_ne; [done|].
        intros <-. assert (nextptr s < nextptr s)%nat by (apply Hb; eauto). lia. }
      destruct (insert_loop_lookup _ _ _ _ _ _ Hl Hl2) as [[-> ->]|[Hne Hl2']]; [|eauto].
      rewrite Hfd' in Hp. destruct (decide (nfd = fd)) as [<-|Hnf].
      * rewrite lookup_insert_eq in Hp. injection Hp as <-.
        eexists. rewrite lookup_insert_eq. done.
      * rewrite lookup_insert_ne in Hp by done. eauto.
    + intros p [c' Hc']. destruct (decide (nextptr s = p)) as [<-|Hne]; [lia|].
      rewrite lookup_insert_ne in Hc' by done.
      assert (p < nextptr s)%nat by (apply Hb; eauto). lia.
  - split; [|done].
    intros lj l2 fd q Hl2 Hq.
    destruct (insert_loop_lookup _ _ _ _ _ _ Hl Hl2) as [[-> ->]|[Hne Hl2']]; [|eauto].
    rewrite Hfd' in Hq. apply lookup_delete_Some in Hq as [_ Hq]. eauto.
Qed.


Lemma live_in_maps_of (ls ls' : list loop) p :
  maps_of ls' = maps_of ls → live_in ls' p → live_in ls p.
Proof.
  intros Hmaps (li & l' & fd & Hl' & Hp).
  destruct (maps_of_lookup _ _ _ _ Hmaps Hl') as (l & Hl & Hf & _).
  exists li, l, fd. by rewrite Hf.
Qed.

Lemma change_closed_once s s' :
  wf s → closed_once s → is_Some (Closed (events s)) → change s s' → closed_once s'.
Proof.
  intros [Hm Hb] Hco Hcl [_ Hch]. unfold closed_once.
  rewrite bool_decide_eq_true_2 in Hch by done.
  destruct Hch as [(Hmaps & _ & -> & Hcc)
    |[(li & l & l' & nfd & a & Hl & Hfresh & -> & Hfd' & _ & _ & -> & Hcc)
     |(li & l & l' & p & c & Hl & Hc & Hfd & -> & Hfd' & _ & _ & -> & Hcc)]].
  - intros p. rewrite Hcc. destruct (Hco p) as (H1 & H2 & H3).
    repeat split; [|intros Hn; apply H2; intros Hl|done].
    + intros Hl. by eapply H1, live_in_maps_of.
    + by eapply Hn, live_in_maps_of.
  - assert (∀ p, live_in (<[li := l']> (loops s)) p ↔ live_in (loops s) p ∨ p = nextptr s)
      as Hlive.
    { intros p. split.
      - intros (lj & l2 & fd & Hl2 & Hp).
        destruct (insert_loop_lookup _ _ _ _ _ _ Hl Hl2) as [[-> ->]|[Hne Hl2']].
        + rewrite Hfd' in Hp. apply lookup_insert_Some in Hp as [[_ <-]|[_ Hp]]; [by right|].
          left. by exists li, l, fd.
        + left. by exists lj, l2, fd.
      - intros [(lj & l2 & fd & Hl2 & Hp)| ->].
        + destruct (decide (lj = li)) as [->|Hne].
          * exists li, l', fd. split; [by apply list_lookup_insert_eq; eapply lookup_lt_Some|].
            rewrite Hl in Hl2. injection Hl2 as <-. rewrite Hfd'.
            rewrite lookup_insert_ne; [done|]. intros <-. congruence.
          * exists lj, l2, fd. by rewrite list_lookup_insert_ne.
        + exists li, l', nfd. split; [by apply list_lookup_insert_eq; eapply lookup_lt_Some|].
          by rewrite Hfd', lookup_insert_eq. }
    intros p. rewrite Hcc, Hlive. destruct (Hco p) as (H1 & H2 & H3).
    repeat split.
    + intros [Hl'| ->]; [by apply H1|apply H3; lia].
    + intros Hn Hlt. apply H2; [tauto|].
      destruct (decide (p = nextptr s)); [tauto|lia].
    + intros Hge. apply H3. lia.
  - assert (∀ q, live_in (<[li := l']> (loops s)) q ↔ live_in (loops s) q ∧ q ≠ p)
      as Hlive.
    { intros q. split.
      - intros (lj & l2 & fd & Hl2 & Hq).
        destruct (insert_loop_lookup _ _ _ _ _ _ Hl Hl2) as [[-> ->]|[Hne Hl2']].
        + rewrite Hfd' in Hq. apply lookup_delete_Some in Hq as [Hnfd Hq].
          split; [by exists li, l, fd|]. intros ->.
          destruct (Hm _ _ _ _ Hl Hq) as (c2 & Hc2 & Hf2 & _). congruence.
        + split; [by exists lj, l2, fd|]. intros ->.
          destruct (Hm _ _ _ _ Hl2' Hq) as (c2 & Hc2 & _ & Hlp2).
          destruct (Hm _ _ _ _ Hl Hfd) as (c3 & Hc3 & _ & Hlp3). congruence.
      - intros [(lj & l2 & fd & Hl2 & Hq) Hne].
        destruct (decide (lj = li)) as [->|Hnl].
        + exists li, l', fd. split; [by apply list_lookup_insert_eq; eapply lookup_lt_Some|].
          rewrite Hl in Hl2. injection Hl2 as <-. rewrite Hfd'.
          apply lookup_delete_Some. split; [|done]. intros <-. congruence.
        + exists lj, l2, fd. by rewrite list_lookup_insert_ne. }
    intros q. rewrite Hcc, Hlive. destruct (Hco q) as (H1 & H2 & H3). cbn [andb].
    destruct (Nat.eqb_spec q p) as [->|Hne].
    + assert (live_in (loops s) p) as Hlp by (by exists li, l, (c_fd c)).
      assert (p < nextptr s)%nat by (apply Hb; eauto).
      repeat split; [tauto|intros _ _; rewrite (proj1 (Hco p)); [lia|done]|lia].
    + repeat split.
      * intros [Hl' _]. rewrite H1; [lia|done].
      * intros Hn Hlt. rewrite H2; [lia|tauto|done].
      * intros Hge. rewrite H3; [lia|done].
Qed.

(** ** Interest follows the connection state *)

(** A handler of loop [li] stored [c'] through [p] (registered on [fd]) and
    touched the interest of [fd] only. *)
Lemma interest_ok_at s s' li l l' fd p c c' :
  wf s → interest_ok s →
  loops s !! li = Some l → fdconns l !! fd = Some p → heap s !! p = Some c →
  loops s' = <[li := l']> (loops s) → fdconns l' = fdconns l →
  heap s' = <[p := c']> (heap s) →
  (∀ fd', fd' ≠ fd → interest (poll l') !! fd' = interest (poll l) !! fd') →
  interest (poll l') !! fd = Some (want c') →
  interest_ok s'.
Proof.
  intros [Hm Hb] Hi Hl Hfd Hc Hls Hfd' Hh Hoth Hat lj l2 fd2 q c2 Hl2 Hq Hc2.
  rewrite Hls in Hl2. rewrite Hh in Hc2.
  destruct (insert_loop_lookup _ _ _ _ _ _ Hl Hl2) as [[-> ->]|[Hne Hl2']].
  - rewrite Hfd' in Hq. destruct (decide (fd2 = fd)) as [->|Hnf].
    + rewrite Hfd in Hq. injection Hq as <-.
      rewrite lookup_insert_eq in Hc2. by injection Hc2 as <-.
    + rewrite Hoth by done.
      destruct (Hm _ _ _ _ Hl Hq) as (c3 & Hc3 & Hf3 & _).
      destruct (Hm _ _ _ _ Hl Hfd) as (c4 & Hc4 & Hf4 & _).
      rewrite lookup_insert_ne in Hc2 by congruence. eauto.
  - destruct (Hm _ _ _ _ Hl2' Hq) as (c3 & Hc3 & _ & Hlp3).
    destruct (Hm _ _ _ _ Hl Hfd) as (c4 & Hc4 & _ & Hlp4).
    rewrite lookup_insert_ne in Hc2 by congruence. eauto.
Qed.

Lemma interest_ok_close s s' li l fd :
  interest_ok s → loops s !! li = Some l →
  loops s' = <[li := closed_loop fd l]> (loops s) → heap s' = heap s →
  interest_ok s'.
Proof.
  intros Hi Hl Hls Hh lj l2 fd2 q c2 Hl2 Hq Hc2.
  rewrite Hls in Hl2. rewrite Hh in Hc2.
  destruct (insert_loop_lookup _ _ _ _ _ _ Hl Hl2) as [[-> ->]|[Hne Hl2']]; [|eauto].
  cbn in Hq |- *. apply lookup_delete_Some in Hq as [Hnf Hq].
  rewrite lookup_delete_ne by done. eauto.
Qed.

Lemma interest_ok_accept s s' li l nfd a :
  wf s → interest_ok s → loops s !! li = Some l →
  loops s' = <[li := accepted_loop nfd (nextptr s) l]> (loops s) →
  heap s' = <[nextptr s := new_conn nfd a li]> (heap s) →
  interest_ok s'.
Proof.
  intros [Hm Hb] Hi Hl Hls Hh lj l2 fd2 q c2 Hl2 Hq Hc2.
  rewrite Hls in Hl2. rewrite Hh in Hc2.
  assert (∀ l1, loops s !! lj = Some l1 → fdconns l1 !! fd2 = Some q →
            heap s !! q = Some c2) as Hold.
  { intros l1 Hl1 Hq1. destruct (Hm _ _ _ _ Hl1 Hq1) as (c3 & Hc3 & _).
    rewrite lookup_insert_ne in Hc2; [done|].
    intros <-. assert (nextptr s < nextptr s)%nat by (apply Hb; eauto). lia. }
  destruct (insert_loop_lookup _ _ _ _ _ _ Hl Hl2) as [[-> ->]|[Hne Hl2']]; [|eauto].
  cbn in Hq |- *. destruct (decide (nfd = fd2)) as [<-|Hnf].
  - rewrite lookup_insert_eq in Hq. rewrite lookup_insert_eq. injection Hq as <-.
    rewrite lookup_insert_eq in Hc2. by injection Hc2 as <-.
  - rewrite lookup_insert_ne in Hq by done. rewrite lookup_insert_ne by done. eauto.
Qed.

(** A step that leaves every fd map, interest set and connection alone. *)
Lemma interest_ok_frame s s' :
  interest_ok s → heap s' = heap s →
  (λ l, (fdconns l, interest (poll l))) <$> loops s'
  = (λ l, (fdconns l, interest (poll l))) <$> loops s →
  interest_ok s'.
Proof.
  intros Hi Hh Hls lj l2 fd2 q c2 Hl2 Hq Hc2. rewrite Hh in Hc2.
  apply (f_equal (λ x, x !! lj)) in Hls. rewrite !list_lookup_fmap, Hl2 in Hls.
  destruct (loops s !! lj) as [l1|] eqn:Hl1; [|done]. cbn in Hls.
  injection Hls as H1 H2. rewrite H2, H1 in *. eauto.
Qed.

Lemma ModRead_interest fd (pl : Poll) i :
  interest pl !! fd = Some i →
  interest (ModRead fd pl) !! fd = Some Read ∧
  ∀ fd', fd' ≠ fd → interest (ModRead fd pl) !! fd' = interest pl !! fd'.
Proof.
  intros Hi. cbn. split; [by rewrite lookup_alter_eq, Hi|].
  intros fd' Hne. by rewrite lookup_alter_ne.
Qed.

Lemma ModReadWrite_interest fd (pl : Poll) i :
  interest pl !! fd = Some i →
  interest (ModReadWrite fd pl) !! fd = Some ReadWrite ∧
  ∀ fd', fd' ≠ fd → interest (ModReadWrite fd pl) !! fd' = interest pl !! fd'.
Proof.
  intros Hi. cbn. split; [by rewrite lookup_alter_eq, Hi|].
  intros fd' Hne. by rewrite lookup_alter_ne.
Qed.

Lemma interest_loopCloseConn s li l p c err :
  interest_ok s → loops s !! li = Some l → heap s !! p = Some c →
  interest_ok (loopCloseConn li p err s).1.
Proof.
  intros Hi Hl Hc. rewrite (loopCloseConn_eq li p err s l c) by done.
  by eapply interest_ok_close.
Qed.

Lemma interest_loopAccept s li k :
  wf s → interest_ok s → interest_ok (loopAccept li k s).1.
Proof.
  intros Hwf Hi. unfold loopAccept.
  destruct (loops s !! li) as [l|] eqn:Hl; [|done].
  assert (∀ s1, wf s1 → interest_ok s1 → loops s1 !! li = Some l →
            interest_ok (do_accept li k s1).1) as Hacc.
  { intros s1 Hwf1 Hi1 Hl1. unfold do_accept.
    destruct (k_accept k) as [[nfd a]|e]; [|by case_decide].
    destruct (k_setnonblock k); [done|].
    eapply (interest_ok_accept s1 _ li l nfd a); try done.
    st_simpl. by norm_loops Hl1. }
  destruct (1 <? len (loops s)); [|by apply Hacc].
  destruct (balance s).
  - by apply Hacc.
  - destruct (negb _); [done|]. by apply Hacc.
  - destruct (someone_idler _ _); [done|by apply Hacc].
Qed.

Lemma want_not_opened c : opened c = false → want c = ReadWrite.
Proof. unfold want. by intros ->. Qed.

Lemma want_busy c : idle c = false → want c = ReadWrite.
Proof. unfold want. intros ->. by rewrite andb_false_r. Qed.

Lemma want_idle c : opened c = true → idle c = true → want c = Read.
Proof. unfold want. by intros -> ->. Qed.

(** The end of [loopOpened], [loopWrite] and [loopAction]: the connection
    [c'] was stored and the interest narrowed if it is idle. *)
Lemma interest_narrow s li l fd p c c' s1 :
  wf s → interest_ok s →
  loops s !! li = Some l → fdconns l !! fd = Some p → heap s !! p = Some c →
  loops s1 = loops s → heap s1 = <[p := c']> (heap s) →
  c_fd c' = fd → opened c' = true → (idle c' = false → want c = ReadWrite) →
  interest_ok (narrow_if_idle li c' s1).
Proof.
  intros Hwf Hi Hl Hfd Hc Hls Hh Hcfd Hop Hbusy. rewrite narrow_if_idle_eq.
  pose proof (Hi _ _ _ _ _ Hl Hfd Hc) as Hat.
  destruct (idle c') eqn:Hidle.
  - destruct (ModRead_interest fd (poll l) _ Hat) as [H1 H2].
    eapply (interest_ok_at s _ li l (upd_poll (ModRead fd) l) fd p c c'); try done.
    + st_simpl. rewrite Hls, Hcfd. by norm_loops Hl.
    + cbn [poll upd_poll]. by rewrite H1, want_idle.
  - eapply (interest_ok_at s _ li l l fd p c c'); try done.
    + by rewrite Hls, list_insert_id.
    + by rewrite Hat, Hbusy, want_busy.
Qed.

Lemma interest_loopOpened s li l fd p c k :
  wf s → interest_ok s →
  loops s !! li = Some l → fdconns l !! fd = Some p → heap s !! p = Some c →
  opened c = false →
  (loopOpened SockaddrToAddr li p k s).2 = Ret None →
  interest_ok (loopOpened SockaddrToAddr li p k s).1.
Proof.
  intros Hwf Hi Hl Hfd Hc Hop. unfold loopOpened. rewrite Hl, Hc. st_simpl.
  destruct (wf_entry s li l fd p Hwf Hl Hfd) as (c0 & Hc0 & Hcfd & _).
  rewrite Hc in Hc0. injection Hc0 as <-.
  pose proof (want_not_opened c Hop) as Hw.
  destruct (Opened (events s)) as [cb|].
  - destruct (cb _ _ _) as [u [[o opts] a]]. st_simpl.
    destruct ((0 <? TCPKeepAlive opts) && isTCP (ln s)); [destruct (k_keepalive k)|];
      cbn [fst snd]; intros Hr; try discriminate;
      (eapply (interest_narrow s li l fd p c); try done;
       [st_simpl; by rewrite insert_insert_eq | by destruct (0 <? len o)
       | by destruct (0 <? len o)]).
  - cbn [fst snd]. intros _. by eapply (interest_narrow s li l fd p c).
Qed.

Lemma interest_loopWrite s li l fd p c k :
  wf s → interest_ok s →
  loops s !! li = Some l → fdconns l !! fd = Some p → heap s !! p = Some c →
  opened c = true → out c ≠ [] →
  interest_ok (loopWrite li p k s).1.
Proof.
  intros Hwf Hi Hl Hfd Hc Hop Hout. unfold loopWrite. rewrite Hl, Hc.
  destruct (wf_entry s li l fd p Hwf Hl Hfd) as (c0 & Hc0 & Hcfd & _).
  rewrite Hc in Hc0. injection Hc0 as <-.
  assert (want c = ReadWrite) as Hw.
  { apply want_busy, not_true_iff_false. rewrite idle_spec. tauto. }
  destruct (k_write k) as [n|e].
  - destruct (n =? len (out c)); [|destruct ((0 <=? n) && (n <=? len (out c)))];
      cbn [fst]; try done; by eapply (interest_narrow s li l fd p c).
  - case_decide; [done|]. by eapply (interest_loopCloseConn (emit _ s)).
Qed.

Lemma interest_loopAction s li l fd p c :
  wf s → interest_ok s →
  loops s !! li = Some l → fdconns l !! fd = Some p → heap s !! p = Some c →
  opened c = true → out c = [] →
  interest_ok (loopAction li p s).1.
Proof.
  intros Hwf Hi Hl Hfd Hc Hop Hout. unfold loopAction. rewrite Hl, Hc.
  destruct (wf_entry s li l fd p Hwf Hl Hfd) as (c0 & Hc0 & Hcfd & _).
  rewrite Hc in Hc0. injection Hc0 as <-.
  assert (idle (set_action Action.None c) = false → want c = ReadWrite) as Hb.
  { intros Hf. apply not_true_iff_false in Hf. destruct Hf.
    by apply idle_spec. }
  destruct (action c); cbn [fst]; try done;
    first [by eapply interest_loopCloseConn
          | by eapply (interest_narrow s li l fd p c)].
Qed.

Lemma interest_loopRead s li l fd p c k :
  wf s → interest_ok s →
  loops s !! li = Some l → fdconns l !! fd = Some p → heap s !! p = Some c →
  opened c = true → out c = [] → action c = Action.None →
  interest_ok (loopRead li p k s).1.
Proof.
  intros Hwf Hi Hl Hfd Hc Hop Hout Hact. unfold loopRead. rewrite Hl, Hc.
  destruct (wf_entry s li l fd p Hwf Hl Hfd) as (c0 & Hc0 & Hcfd & _).
  rewrite Hc in Hc0. injection Hc0 as <-. subst fd.
  pose proof (Hi _ _ _ _ _ Hl Hfd Hc) as Hat.
  assert (idle c = true) as Hidle by (by apply idle_spec).
  destruct (k_read k) as [data|e].
  2:{ case_decide; [done|]. by eapply (interest_loopCloseConn (emit _ s)). }
  destruct data as [|b d]; [by eapply (interest_loopCloseConn (emit _ s))|].
  destruct (len (packet l) <? len (b :: d)); [done|]. st_simpl.
  set (l1 := set_packet (read_into (packet l) (b :: d)) l).
  assert (∀ c', heap s !! p = Some c → c_fd c' = c_fd c → opened c' = true →
     ∀ s1, loops s1 = <[li := l1]> (loops s) → heap s1 = <[p := c']> (heap s) →
     interest_ok (widen_if_busy li c' s1)) as Hend.
  { intros c' _ Hcfd' Hop' s1 Hls Hh. rewrite widen_if_busy_eq.
    destruct (idle c') eqn:Hidle'.
    - eapply (interest_ok_at s _ li l l1 (c_fd c) p c c'); try done.
      subst l1. cbn [poll set_packet]. by rewrite Hat, !want_idle.
    - destruct (ModReadWrite_interest (c_fd c) (poll l) _ Hat) as [H1 H2].
      eapply (interest_ok_at s _ li l (upd_poll (ModReadWrite (c_fd c)) l1)
                (c_fd c) p c c'); try done.
      + st_simpl. rewrite Hls, Hcfd'. apply alter_insert_at. by eapply lookup_lt_Some.
      + subst l1. cbn [poll upd_poll set_packet]. by rewrite H1, want_busy. }
  destruct (Data (events s)) as [cb|].
  - destruct (cb _ _ _ _) as [u [o a]]. cbn [fst].
    apply Hend; try done; try (by destruct (0 <? len o)).
    st_simpl. by norm_loops Hl.
  - cbn [fst]. apply Hend; try done.
    + st_simpl. by norm_loops Hl.
    + st_simpl. by rewrite insert_id.
Qed.

Lemma interest_OnFdEvent s li fd k :
  wf s → interest_ok s →
  (OnFdEvent SockaddrToAddr li fd k s).2 = Ret None →
  interest_ok (OnFdEvent SockaddrToAddr li fd k s).1.
Proof.
  intros Hwf Hi. unfold OnFdEvent.
  destruct (loops s !! li) as [l|] eqn:Hl; [|done].
  destruct (fdconns l !! fd) as [p|] eqn:Hfd; [|intros _; by apply interest_loopAccept].
  destruct (wf_entry s li l fd p Hwf Hl Hfd) as (c & Hc & _). rewrite Hc.
  destruct (opened c) eqn:Hop; cbn [negb]; [|by eapply interest_loopOpened].
  destruct (len (out c) =? 0) eqn:Hout; cbn [negb].
  2:{ intros _. apply len_eqb_0_false in Hout. by eapply interest_loopWrite. }
  apply len_eqb_0 in Hout. intros _.
  destruct (Action.is_None (action c)) eqn:Hact; cbn [negb].
  - apply is_None_true in Hact. by eapply interest_loopRead.
  - by eapply interest_loopAction.
Qed.

Lemma interest_OnEvent s li (tag : Event) :
  wf s → interest_ok s → head_write_live li s →
  interest_ok (OnEvent li tag s).1.
Proof.
  intros Hwf Hi Hhead. unfold OnEvent.
  destruct (loops s !! li) as [l|] eqn:Hl; [|done].
  destruct tag; try done.
  - destruct (Tick (events s)) as [cb|]; [|done].
    destruct (cb _) as [u [delay a]]. by destruct a.
  - destruct (wch l) as [|w ws] eqn:Hw; [done|].
    destruct (Hhead l w ws Hl Hw) as (Hdata & c & Hc & Hfd).
    st_simpl. rewrite Hc. cbn [fst c_fd set_out].
    pose proof (Hi _ _ _ _ _ Hl Hfd Hc) as Hat.
    destruct (ModReadWrite_interest (c_fd c) (poll l) _ Hat) as [H1 H2].
    eapply (interest_ok_at s _ li l (upd_poll (ModReadWrite (c_fd c)) (set_wch ws l))
              (c_fd c) (w_c w) c (set_out (out c ++ w_data w) c)); try done.
    + st_simpl. by norm_loops Hl.
    + cbn [poll upd_poll set_wch]. rewrite H1, want_busy; [done|].
      apply not_true_iff_false. rewrite idle_spec. cbn [out set_out].
      intros [Happ _]. apply app_eq_nil in Happ. tauto.
Qed.

Lemma interest_conn_Write s p data k :
  interest_ok s → interest_ok (conn_Write p data k s).1.
Proof.
  intros Hi.
  assert (∀ d s1, interest_ok s1 → interest_ok (conn_willWrite p d k s1).1) as Hww.
  { intros d s1 Hi1. unfold conn_willWrite.
    destruct (heap s1 !! p) as [c|]; [|done].
    destruct (loops s1 !! c_loop c) as [l|] eqn:Hl; [|done].
    destruct (len (wch l) <? writeEventBuf); [|done].
    destruct (k_fire k); cbn [fst]; (apply (interest_ok_frame s1); [done|done|]);
      st_simpl; norm_loops Hl; rewrite list_fmap_insert; cbn;
      apply list_insert_id; by rewrite list_lookup_fmap, Hl. }
  unfold conn_Write. destruct (heap s !! p) as [c|]; [|done].
  destruct (k_write k) as [n|e].
  - destruct (n <? len data); [|done]. destruct (0 <=? n); [|done]. by apply Hww.
  - case_decide; [|done]. by apply Hww.
Qed.

(** ** Servers that have accepted nothing yet *)

Lemma pristine_wf s : pristine s → wf s.
Proof.
  intros (Hh & Hn & Hl & _). split.
  - intros li l fd p Hli Hp. destruct (Hl _ _ Hli) as [He _].
    rewrite He in Hp. by rewrite lookup_empty in Hp.
  - intros p [c Hc]. rewrite Hh in Hc. by rewrite lookup_empty in Hc.
Qed.


Lemma pristine_interest_ok s : pristine s → interest_ok s.
Proof.
  intros (_ & _ & Hl & _) li l fd p c Hli Hp. destruct (Hl _ _ Hli) as [He _].
  rewrite He in Hp. by rewrite lookup_empty in Hp.
Qed.

Lemma pristine_closed_once s : pristine s → closed_once s.
Proof.
  intros (_ & Hn & Hl & Hc) p. unfold closed_once. rewrite Hn. repeat split; try done.
  - lia.
Qed.

Lemma serve_pristine ev (lsn : listener) (u : U) : pristine (serve NumCPU ev lsn u).1.
Proof.
  assert (∀ n s, pristine s → loops s = [] →
            pristine (set_loops (newLoop (ln_fd lsn) <$> seqZ 0 n) s)) as Hstart.
  { intros n s (Hh & Hn & _ & Hc) _. repeat split; try done;
      st_simpl_in H; apply list_lookup_fmap_Some in H as (i & -> & _); done. }
  assert (∀ s, heap s = ∅ → nextptr s = 0%nat → loops s = [] →
            (∀ p, closed_calls p (trace s) = 0%nat) → pristine s) as Hnone.
  { intros s Hh Hn Hl Hc. repeat split; try done; rewrite Hl in H; done. }
  unfold serve. destruct (Serving ev) as [cb|].
  - destruct (cb _ _) as [u' a]. destruct a; cbn [fst];
      first [by apply Hnone | apply Hstart; [by apply Hnone|done]].
  - cbn [fst]. apply Hstart; [by apply Hnone|done].
Qed.

(** C2 (amended).  Write [want c] for read-only when [c] is opened with an
    empty outbound buffer and action [None], and read+write otherwise (so
    read+write for a connection accepted but not yet opened).  A server
    fresh from [serve] keeps interest [want c] for every connection in a
    loop's map, and so does the server after every handler that returns nil
    to the poller's wait: accept, [Opened], write, action, read, and the
    delivery of a pending write that is non-empty and for a connection still
    in the loop's map; [conn.Write] itself touches no interest. *)
Theorem interest_follows_state s li :
  wf s → interest_ok s →
  (∀ ev (lsn : listener) (u : U), interest_ok (serve NumCPU ev lsn u).1) ∧
  (∀ fd k, (OnFdEvent SockaddrToAddr li fd k s).2 = Ret None →
     interest_ok (OnFdEvent SockaddrToAddr li fd k s).1) ∧
  (∀ tag : Event, head_write_live li s → interest_ok (OnEvent li tag s).1) ∧
  (∀ p data k, interest_ok (conn_Write p data k s).1).
Proof.
  intros Hwf Hi. repeat split.
  - intros ev lsn u. apply pristine_interest_ok, serve_pristine.
  - intros fd k. by apply interest_OnFdEvent.
  - intros tag. by apply interest_OnEvent.
  - intros p data k. by apply interest_conn_Write.
Qed.


(** ** Reachable servers *)

Lemma rtc_step_wf s0 s :
  rtc (step SockaddrToAddr) s0 s → wf s0 → wf s ∧ events s = events s0.
Proof.
  induction 1 as [s|s1 s2 s3 Hstep _ IH]; [done|].
  intros Hwf. pose proof (step_change _ _ Hwf Hstep) as Hch.
  destruct (IH (change_wf _ _ Hwf Hch)) as [Hwf3 Hev]. split; [done|].
  rewrite Hev. apply Hch.
Qed.

Lemma rtc_step_closed_once s0 s :
  rtc (step SockaddrToAddr) s0 s → wf s0 → closed_once s0 →
  is_Some (Closed (events s0)) → closed_once s.
Proof.
  induction 1 as [s|s1 s2 s3 Hstep _ IH]; [done|].
  intros Hwf Hco Hcl. pose proof (step_change _ _ Hwf Hstep) as Hch.
  apply IH.
  - by eapply change_wf.
  - by eapply change_closed_once.
  - destruct Hch as [-> _]. done.
Qed.

Lemma reachable_inv s :
  reachable SockaddrToAddr s → is_Some (Closed (events s)) →
  wf s ∧ closed_once s.
Proof.
  intros (s0 & Hp & Hrtc) Hcl.
  destruct (rtc_step_wf _ _ Hrtc (pristine_wf _ Hp)) as [Hwf Hev]. split; [done|].
  eapply rtc_step_closed_once; try done.
  - by apply pristine_wf.
  - by apply pristine_closed_once.
  - by rewrite <- Hev.
Qed.

(** ** The closing loop of [serve] *)

Lemma closed_ret_Ret s p c err : ∃ e, closed_ret s p c err = Ret e.
Proof.
  unfold closed_ret. destruct (Closed (events s)) as [cb|]; [|by eexists].
  destruct (cb _ _ _ _).2; by eexists.
Qed.

Lemma closeConns_spec li es : ∀ s l,
  wf s → closed_once s → is_Some (Closed (events s)) → loops s !! li = Some l →
  ∃ s' l' tl,
    closeConns li es s = (s', Ret None) ∧
    wf s' ∧ closed_once s' ∧ events s' = events s ∧ nextptr s' = nextptr s ∧
    loops s' = <[li := l']> (loops s) ∧
    (∀ fd p, fdconns l' !! fd = Some p → fdconns l !! fd = Some p) ∧
    (∀ fd p, (fd, p) ∈ es → fdconns l' !! fd ≠ Some p) ∧
    trace s' = trace s ++ tl ∧
    (∀ fd p, (fd, p) ∈ es → fdconns l !! fd = Some p → CallClosed p None ∈ tl).
Proof.
  induction es as [|[fd p] es IH]; intros s l Hwf Hco Hcl Hl.
  - exists s, l, []. cbn [closeConns]. split_and!; try done.
    + by rewrite list_insert_id.
    + intros fd p Hin. by apply elem_of_nil in Hin.
    + by rewrite app_nil_r.
    + intros fd p Hin. by apply elem_of_nil in Hin.
  - cbn [closeConns]. rewrite Hl. case_decide as Hfd.
    + destruct (wf_entry s li l fd p Hwf Hl Hfd) as (c & Hc & Hcfd & _).
      assert (fdconns l !! c_fd c = Some p) as Hfd' by (by rewrite Hcfd).
      pose proof (change_loopCloseConn s li l p c None Hl Hc Hfd') as Hch.
      pose proof (change_wf _ _ Hwf Hch) as Hwf1.
      pose proof (change_closed_once _ _ Hwf Hco Hcl Hch) as Hco1.
      revert Hch Hwf1 Hco1.
      rewrite (loopCloseConn_eq li p None s l c Hl Hc).
      destruct (closed_ret_Ret s p c None) as [e ->]. cbn [fst].
      set (s1 := with_state _ _ _ _ _ _). intros Hch Hwf1 Hco1.
      assert (loops s1 !! li = Some (closed_loop (c_fd c) l)) as Hl1.
      { apply list_lookup_insert_eq. by eapply lookup_lt_Some. }
      destruct (IH s1 _ Hwf1 Hco1 Hcl Hl1)
        as (s' & l' & tl & Heq & Hwf' & Hco' & Hev & Hnp & Hls & Hsub & Hgone & Htr & Hin).
      exists s', l', (SysClose (c_fd c) :: closed_obs s p None ++ tl).
      rewrite Heq. split_and!; try done.
      * rewrite Hls. subst s1. st_simpl. by rewrite list_insert_insert_eq.
      * intros fd2 q Hq. apply Hsub in Hq. cbn in Hq.
        by apply lookup_delete_Some in Hq as [_ Hq].
      * intros fd2 q [[= -> ->]|Hin2]%elem_of_cons; [|by apply Hgone].
        intros Hq. apply Hsub in Hq. cbn in Hq. rewrite Hcfd in Hq.
        by rewrite lookup_delete_eq in Hq.
      * rewrite Htr. subst s1. st_simpl. rewrite <- app_assoc. done.
      * intros fd2 q Hin2 Hq. unfold closed_obs.
        destruct Hcl as [cb Hcb]. rewrite Hcb.
        destruct (decide (fd2 = fd)) as [->|Hne].
        { rewrite Hfd in Hq. injection Hq as <-. do 2 constructor. }
        apply elem_of_cons in Hin2 as [[= ? ?]|Hin2]; [done|].
        do 2 constructor. apply (Hin fd2 q Hin2). cbn. rewrite Hcfd.
        by rewrite lookup_delete_ne.
    + destruct (IH s l Hwf Hco Hcl Hl)
        as (s' & l' & tl & Heq & Hwf' & Hco' & Hev & Hnp & Hls & Hsub & Hgone & Htr & Hin).
      exists s', l', tl. split_and!; try done.
      * intros fd2 q [[= -> ->]|Hin2]%elem_of_cons; [|by apply Hgone].
        intros Hq. by apply Hsub in Hq.
      * intros fd2 q [[= -> ->]|Hin2]%elem_of_cons; [done|by apply Hin].
Qed.

Lemma closeLoop_spec li s l :
  wf s → closed_once s → is_Some (Closed (events s)) → loops s !! li = Some l →
  ∃ s' l' tl,
    closeLoop li s = (s', Ret None) ∧
    wf s' ∧ closed_once s' ∧ events s' = events s ∧ nextptr s' = nextptr s ∧
    loops s' = <[li := l']> (loops s) ∧
    fdconns l' = ∅ ∧ pclosed (poll l') = true ∧
    trace s' = trace s ++ tl ++ [PollClose li] ∧
    (∀ fd p, fdconns l !! fd = Some p → CallClosed p None ∈ tl).
Proof.
  intros Hwf Hco Hcl Hl. unfold closeLoop. rewrite Hl.
  destruct (closeConns_spec li (map_to_list (fdconns l)) s l Hwf Hco Hcl Hl)
    as (s1 & l1 & tl & -> & Hwf1 & Hco1 & Hev & Hnp & Hls & Hsub & Hgone & Htr & Hin).
  assert (loops s1 !! li = Some l1) as Hl1.
  { rewrite Hls. apply list_lookup_insert_eq. by eapply lookup_lt_Some. }
  set (s2 := emit (PollClose li) (upd_loop li (upd_poll poll_Close) s1)).
  assert (change s1 s2) as Hch by (subst s2; frame_tac).
  exists s2, (upd_poll poll_Close l1), tl. split_and!; try done.
  - by eapply change_wf.
  - eapply change_closed_once; try done. by rewrite Hev.
  - subst s2. st_simpl. norm_loops Hl1. rewrite Hls. by rewrite list_insert_insert_eq.
  - apply map_eq. intros fd. rewrite lookup_empty.
    destruct (fdconns l1 !! fd) as [p|] eqn:Hp; [|done].
    destruct (Hgone fd p); [|done]. apply elem_of_map_to_list. by apply Hsub.
  - subst s2. st_simpl. by rewrite Htr, <- app_assoc.
  - intros fd p Hp. apply (Hin fd p); [|done]. by apply elem_of_map_to_list.
Qed.

Lemma closeLoops_spec lis : ∀ s,
  wf s → closed_once s → is_Some (Closed (events s)) →
  NoDup lis → (∀ li, li ∈ lis → is_Some (loops s !! li)) →
  ∃ s' tl,
    closeLoops lis s = (s', Ret None) ∧
    wf s' ∧ closed_once s' ∧ nextptr s' = nextptr s ∧
    (∀ li l', li ∈ lis → loops s' !! li = Some l' →
       fdconns l' = ∅ ∧ pclosed (poll l') = true) ∧
    (∀ li, li ∉ lis → loops s' !! li = loops s !! li) ∧
    trace s' = trace s ++ tl ∧
    (∀ li l fd p, li ∈ lis → loops s !! li = Some l → fdconns l !! fd = Some p →
       ∃ t1 t2 t3, tl = t1 ++ CallClosed p None :: t2 ++ PollClose li :: t3).
Proof.
  induction lis as [|li lis IH]; intros s Hwf Hco Hcl Hnd Hdom.
  - exists s, []. cbn [closeLoops]. split_and!; try done.
    + intros li l' Hin. by apply elem_of_nil in Hin.
    + by rewrite app_nil_r.
    + intros li l fd p Hin. by apply elem_of_nil in Hin.
  - apply NoDup_cons in Hnd as [Hni Hnd].
    destruct (Hdom li) as [l Hl]; [by left|].
    destruct (closeLoop_spec li s l Hwf Hco Hcl Hl)
      as (s1 & l1 & tl1 & Heq & Hwf1 & Hco1 & Hev & Hnp & Hls & Hemp & Hpc & Htr & Hin).
    assert (∀ lj, lj ≠ li → loops s1 !! lj = loops s !! lj) as Hoth.
    { intros lj Hne. rewrite Hls. by apply list_lookup_insert_ne. }
    assert (loops s1 !! li = Some l1) as Hl1.
    { rewrite Hls. apply list_lookup_insert_eq. by eapply lookup_lt_Some. }
    destruct (IH s1 Hwf1 Hco1) as (s' & tl2 & Heq2 & Hwf' & Hco' & Hnp' & Hdone & Hrest & Htr' & Hord).
    { by rewrite Hev. }
    { done. }
    { intros lj Hlj. rewrite Hoth; [apply Hdom; by right|]. by intros ->. }
    exists s', (tl1 ++ [PollClose li] ++ tl2).
    cbn [closeLoops]. rewrite Heq, Heq2. split_and!; try done.
    + congruence.
    + intros lj l' [->|Hlj]%elem_of_cons Hl'; [|by eapply Hdone].
      rewrite Hrest, Hl1 in Hl' by done. by injection Hl' as <-.
    + intros lj Hlj. apply not_elem_of_cons in Hlj as [Hne Hlj].
      rewrite Hrest by done. by apply Hoth.
    + rewrite Htr', Htr. by rewrite <- !app_assoc.
    + intros lj l2 fd p [->|Hlj]%elem_of_cons Hl2 Hp.
      * rewrite Hl in Hl2. injection Hl2 as <-.
        destruct (list_elem_of_split _ _ (Hin fd p Hp)) as (t1 & t2 & ->).
        exists t1, t2, tl2. by rewrite <- !app_assoc.
      * assert (lj ≠ li) as Hne by (by intros ->).
        rewrite <- Hoth in Hl2 by done.
        destruct (Hord lj l2 fd p Hlj Hl2 Hp) as (t1 & t2 & t3 & ->).
        exists (tl1 ++ PollClose li :: t1), t2, t3. by rewrite <- !app_assoc.
Qed.

(** C8.  Take a server reached by any run from a server that has accepted
    nothing, with a [Closed] callback set.  The closing loop of [serve]
    runs to its end, and then: every loop's map is empty and its poller is
    closed; for every connection that was still in the map of a loop,
    [Closed(conn, nil)] was invoked, before that loop's poller was closed;
    and every connection ever accepted has by now seen [Closed] exactly
    once. *)
Theorem shutdown_closes_all s :
  reachable SockaddrToAddr s → is_Some (Closed (events s)) →
  ∃ s',
    serve_shutdown s = (s', Ret None) ∧
    (∀ li l', loops s' !! li = Some l' → fdconns l' = ∅ ∧ pclosed (poll l') = true) ∧
    (∀ li l fd p, loops s !! li = Some l → fdconns l !! fd = Some p →
       ∃ t1 t2 t3, new_obs s s' = t1 ++ CallClosed p None :: t2 ++ PollClose li :: t3) ∧
    nextptr s' = nextptr s ∧
    (∀ p, (p < nextptr s')%nat → closed_calls p (trace s') = 1%nat).
Proof.
  intros Hreach Hcl. destruct (reachable_inv s Hreach Hcl) as [Hwf Hco].
  destruct (closeLoops_spec (seq 0 (length (loops s))) s Hwf Hco Hcl)
    as (s' & tl & Heq & Hwf' & Hco' & Hnp & Hdone & Hrest & Htr & Hord).
  { apply NoDup_seq. }
  { intros li Hli. apply elem_of_seq in Hli. apply lookup_lt_is_Some. lia. }
  assert (∀ li, is_Some (loops s' !! li) → li ∈ seq 0 (length (loops s))) as Hall.
  { intros li Hli. destruct (decide (li ∈ seq 0 (length (loops s)))) as [|Hni]; [done|].
    rewrite Hrest in Hli by done. apply lookup_lt_is_Some in Hli.
    apply elem_of_seq. lia. }
  exists s'. unfold serve_shutdown. split_and!; try done.
  - intros li l' Hl'. eapply Hdone; [|done]. apply Hall. eauto.
  - intros li l fd p Hl Hp. rewrite (new_obs_app _ _ _ Htr).
    eapply Hord; try done. apply elem_of_seq.
    apply lookup_lt_Some in Hl. lia.
  - intros p Hlt. apply (Hco' p); [|done].
    intros (li & l' & fd & Hl' & Hp).
    destruct (Hdone li l') as [Hemp _]; [apply Hall; eauto|done|].
    rewrite Hemp in Hp. by rewrite lookup_empty in Hp.
Qed.

End Properties.

(** * The properties at concrete servers *)

(** Loop 0 of two takes its turn at counter 0. *)
Lemma round_robin_gate_witness :
  (accepted (loopAccept 0 Fixtures.k_eagain Fixtures.rr2).1 = 1 ∧
   ∃ tl, trace (loopAccept 0 Fixtures.k_eagain Fixtures.rr2).1
         = trace Fixtures.rr2 ++ SysAccept 3 :: tl).
Proof.
  refine (proj1 (proj2 (round_robin_gate Fixtures.rr2 0%nat
            (newLoop 3 0) Fixtures.k_eagain _ _ _)) _).
  - reflexivity.
  - by vm_compute.
  - reflexivity.
  - by vm_compute.
Defined.

(** [NumLoops = -1] on a four-CPU machine. *)
Lemma serve_loop_count_witness :
  len (loops (serve 4 (Fixtures.quiet (-1) Random) Fixtures.ln0 0%nat).1) = 4.
Proof.
  refine (proj1 (serve_loop_count 4 (Fixtures.quiet (-1) Random) Fixtures.ln0 0%nat _) _).
  - lia.
  - intros cb [= <-]. cbn. discriminate.
Defined.

(** C3, counterexample.  [NumLoops] is 3 and [Serving] returns [Shutdown]:
    [serve] returns nil and has created no loop. *)
Lemma serve_refused_creates_no_loop :
  NumLoops (Fixtures.refusing 3) = 3 ∧
  serve 4 (Fixtures.refusing 3) Fixtures.ln0 0%nat
  = ({| events := Fixtures.refusing 3; loops := []; ln := Fixtures.ln0;
        balance := Random; accepted := 0; tch := []; heap := ∅;
        nextptr := 0%nat; ustate := 0%nat; trace := [CallServing 3] |}, None).
Proof. split; reflexivity. Qed.

(** The first readiness of a new connection runs [Opened]. *)
Lemma fd_event_dispatch_witness :
  OnFdEvent id 0 5 Fixtures.k_eagain Fixtures.one_accepted
  = loopOpened id 0 0%nat Fixtures.k_eagain Fixtures.one_accepted.
Proof.
  eapply (fd_event_dispatch id Fixtures.one_accepted 0%nat _ 5 Fixtures.k_eagain).
  - reflexivity.
  - intros p Hp. vm_compute in Hp. injection Hp as <-. vm_compute. by eexists.
  - reflexivity.
  - reflexivity.
  - reflexivity.
Defined.

(** The two-byte greeting is written in full. *)
Lemma write_transition_witness :
  let r := OnFdEvent id 0 5 (Fixtures.k_ok 6 2 []) Fixtures.greeting_opened in
  r.2 = Ret None ∧ out <$> heap r.1 !! 0%nat = Some [].
Proof.
  odestruct (write_transition id Fixtures.greeting_opened 0%nat _ 5 0%nat _
               (Fixtures.k_ok 6 2 [])) as (_ & H & _).
  - reflexivity.
  - by vm_compute.
  - reflexivity.
  - reflexivity.
  - by vm_compute.
  - destruct (H 2) as (H1 & H2 & _); [reflexivity|by vm_compute|].
    cbv zeta. split; [exact H1|]. rewrite H2. by rewrite lookup_insert_eq.
Defined.

(** One byte arrives on an idle connection that does not reuse the buffer. *)
Lemma read_transition_witness :
  let r := OnFdEvent id 0 5 (Fixtures.k_ok 6 0 [x61]) Fixtures.one_opened in
  r.2 = Ret None ∧
  trace r.1 = trace Fixtures.one_opened ++ [SysRead 5; CallData 0%nat [x61] false].
Proof.
  odestruct (read_transition id Fixtures.one_opened 0%nat _ 5 0%nat _
               (Fixtures.k_ok 6 0 [x61])) as (_ & _ & H).
  - reflexivity.
  - by vm_compute.
  - reflexivity.
  - destruct H as (_ & _ & H); [reflexivity|reflexivity|reflexivity|].
    edestruct (H [x61]) as (H1 & H2 & _);
      [reflexivity|discriminate|by vm_compute|reflexivity|].
    cbv zeta. split; [exact H1|exact H2].
Defined.

(** A write of two bytes takes one; the other is queued. *)
Lemma cross_loop_write_witness :
  let r := conn_Write 0%nat [x61; x62] (Fixtures.k_ok 6 1 []) Fixtures.one_opened in
  r.2 = Ret None ∧
  trace r.1 = trace Fixtures.one_opened ++ [SysWrite 5 [x61; x62]; PollFire 0%nat EventWrite] ∧
  wch <$> loops r.1 !! 0%nat = Some [{| w_c := 0%nat; w_data := [x62] |}].
Proof.
  odestruct (cross_loop_write Fixtures.one_opened 0%nat _ _ [x61; x62]
               (Fixtures.k_ok 6 1 [])) as (_ & H & _).
  - reflexivity.
  - reflexivity.
  - edestruct (H [x62]) as (H1 & _ & H3 & H4).
    + right. exists 1. split; [reflexivity|]. split; [by vm_compute|reflexivity].
    + by vm_compute.
    + cbv zeta. split; [exact H1|]. split; [exact H4|]. rewrite H3. by vm_compute.
Defined.

(** [SetKeepAlive] fails for the first connection of [greeter]. *)
Lemma keepalive_failure_ends_loop_witness :
  let s := Fixtures.greeting_accepted in
  let r := OnFdEvent id 0 5 Fixtures.k_keepalive_fails s in
  r.2 = Ret (Some (Errno 22)) ∧
  loopRun id 0 [FdReady 5 Fixtures.k_keepalive_fails; UserEvent EventTick] s
  = (r.1, Some (Ret (Some (Errno 22)))) ∧
  loops r.1 = loops s ∧
  new_obs s r.1 = [CallOpened 0%nat; SysSetKeepAlive 5 300].
Proof.
  odestruct (keepalive_failure_ends_loop id Fixtures.greeting_accepted 0%nat _ 5 0%nat _
               Fixtures.k_keepalive_fails _ (Errno 22) [UserEvent EventTick])
    as ((H1 & H2 & H3 & H4 & _) & _).
  - reflexivity.
  - by vm_compute.
  - reflexivity.
  - reflexivity.
  - reflexivity.
  - by vm_compute.
  - reflexivity.
  - reflexivity.
  - cbv zeta. split; [exact H1|]. split; [exact H2|]. split; [exact H3|exact H4].
Defined.

(** Facts about the concrete servers. *)

Lemma one_pristine : pristine Fixtures.one.
Proof. apply serve_pristine. Qed.

Lemma one_fresh k : fresh_accept 0 k Fixtures.one.
Proof.
  intros l nfd a Hl _. destruct one_pristine as (_ & _ & Hemp & _).
  destruct (Hemp _ _ Hl) as [-> _]. apply lookup_empty.
Qed.

Lemma one_accepted_step :
  step id Fixtures.one Fixtures.one_accepted.
Proof. apply (step_fd id 0%nat 3 (Fixtures.k_ok 5 0 []) Fixtures.one), one_fresh. Qed.

Lemma one_accepted_wf : wf Fixtures.one_accepted.
Proof.
  eapply change_wf; [apply pristine_wf, one_pristine|].
  apply step_change with id; [apply pristine_wf, one_pristine|apply one_accepted_step].
Qed.

Lemma one_accepted_interest_ok : interest_ok Fixtures.one_accepted.
Proof.
  apply (interest_OnFdEvent id Fixtures.one).
  - apply pristine_wf, one_pristine.
  - apply pristine_interest_ok, one_pristine.
  - by vm_compute.
Qed.

(** [Opened] on the connection accepted by [one]. *)
Lemma interest_follows_state_witness :
  interest_ok (OnFdEvent id 0 5 Fixtures.k_eagain Fixtures.one_accepted).1.
Proof.
  apply (interest_follows_state id 4 Fixtures.one_accepted 0%nat).
  - apply one_accepted_wf.
  - apply one_accepted_interest_ok.
  - by vm_compute.
Defined.


(** Shutdown with one connection accepted and never opened. *)
Lemma shutdown_closes_all_witness :
  ∃ s', serve_shutdown Fixtures.one_accepted = (s', Ret None) ∧
        closed_calls 0 (trace s') = 1%nat.
Proof.
  destruct (shutdown_closes_all id Fixtures.one_accepted) as (s' & Heq & _ & _ & Hnp & Hall).
  - exists Fixtures.one. split; [apply one_pristine|].
    eapply rtc_l; [apply one_accepted_step|apply rtc_refl].
  - vm_compute. by eexists.
  - exists s'. split; [exact Heq|]. apply Hall. rewrite Hnp. vm_compute. lia.
Defined.

(** C2, counterexample.  Loop 0 has just accepted a connection on fd 5 and
    returned nil to its poller: the outbound buffer is empty and the action
    is [None], yet the interest for fd 5 is read+write. *)
Lemma accepted_conn_has_write_interest :
  let r := OnFdEvent id 0 3 (Fixtures.k_ok 5 0 []) Fixtures.one in
  r.2 = Ret None ∧
  ∃ l c, loops r.1 !! 0%nat = Some l ∧ fdconns l !! 5 = Some 0%nat ∧
         heap r.1 !! 0%nat = Some c ∧ out c = [] ∧ action c = Action.None ∧
         interest (poll l) !! 5 = Some ReadWrite.
Proof.
  cbv zeta. split; [by vm_compute|].
  eexists _, _. split; [reflexivity|]. split; [by vm_compute|].
  split; [reflexivity|]. split; [reflexivity|]. split; [reflexivity|]. by vm_compute.
Qed.

(** C1, counterexample.  The accept of loop 0 fails with [EAGAIN]: nothing
    is accepted, yet the counter went from 0 to 1. *)
Lemma round_robin_counts_failed_accept :
  let r := loopAccept 0 Fixtures.k_eagain Fixtures.rr2 in
  k_accept Fixtures.k_eagain = inr EAGAIN ∧
  accepted Fixtures.rr2 = 0 ∧ r.2 = Ret None ∧
  heap r.1 = ∅ ∧ fdconns <$> loops r.1 = [∅; ∅] ∧ accepted r.1 = 1.
Proof. vm_compute. repeat split; reflexivity. Qed.

(** * Further properties of the loop *)

Section Further.

Context {U Sockaddr Addr Ctx : Type}.
Variable SockaddrToAddr : Sockaddr → Addr.
Variable NumCPU : Z.

Implicit Types (s : @server U Sockaddr Addr Ctx) (c : @conn Sockaddr Addr Ctx).
Implicit Types (k : @kernel Sockaddr) (ev : @Events U Sockaddr Addr Ctx).
Implicit Types (l : loop) (li : nat) (p : ptr) (fd : Z).

Ltac st_simpl :=
  cbn [events loops ln balance accepted tch heap nextptr ustate trace
       emit put_conn alloc_conn upd_loop set_loops set_accepted push_tch
       set_ustate sys_close with_state fst snd].

Ltac st_simpl_in H :=
  cbn [events loops ln balance accepted tch heap nextptr ustate trace
       emit put_conn alloc_conn upd_loop set_loops set_accepted push_tch
       set_ustate sys_close with_state fst snd] in H.

Ltac st_eq := f_equal; try apply server_ext; st_simpl; try reflexivity.

Ltac norm_loops Hl :=
  rewrite ?(alter_at _ _ _ _ Hl);
  rewrite ?alter_insert_at by (by eapply lookup_lt_Some, Hl).

(** ** Accepting *)

(** A loop whose [count] is the least of all. *)
Lemma least_count_exists (ls : list loop) :
  ls ≠ [] → ∃ j m, ls !! j = Some m ∧ ∀ lp, lp ∈ ls → count m ≤ count lp.
Proof.
  induction ls as [|a ls IH]; [done|]. intros _.
  destruct ls as [|b ls'].
  - exists 0%nat, a. split; [done|]. intros lp [->|[]%elem_of_nil]%elem_of_cons. lia.
  - destruct IH as (j & m & Hj & Hmin); [done|].
    destruct (Z.le_gt_cases (count a) (count m)) as [Hle|Hgt].
    + exists 0%nat, a. split; [done|].
      intros lp [->|Hin]%elem_of_cons; [lia|]. specialize (Hmin lp Hin). lia.
    + exists (S j), m. split; [done|].
      intros lp [->|Hin]%elem_of_cons; [lia|]. by apply Hmin.
Qed.

Lemma someone_idler_true l (ls : list loop) :
  someone_idler l ls = true ↔ ∃ lp, lp ∈ ls ∧ idx lp ≠ idx l ∧ count lp < count l.
Proof.
  unfold someone_idler. rewrite existsb_exists. split.
  - intros (lp & Hin & Hb). apply andb_true_iff in Hb as [H1 H2].
    exists lp. split; [by apply list_elem_of_In|].
    apply negb_true_iff, Z.eqb_neq in H1. apply Z.ltb_lt in H2. done.
  - intros (lp & Hin & H1 & H2). exists lp. split; [by apply list_elem_of_In|].
    apply andb_true_iff. split; [by apply negb_true_iff, Z.eqb_neq|by apply Z.ltb_lt].
Qed.

(** X1.  Under [LeastConnections] with more than one loop, a loop declines
    exactly when a loop of another index has strictly fewer connections,
    and then leaves the server untouched; otherwise it goes on to accept.
    A loop whose count is least never declines, so at every readiness some
    loop accepts.  The round-robin counter is not touched. *)
Theorem least_connections_gate s li l k :
  loops s !! li = Some l → 1 < len (loops s) → balance s = LeastConnections →
  ((∃ lp, lp ∈ loops s ∧ idx lp ≠ idx l ∧ count lp < count l) →
     loopAccept li k s = (s, Ret None)) ∧
  ((∀ lp, lp ∈ loops s → idx lp ≠ idx l → count l ≤ count lp) →
     loopAccept li k s = do_accept li k s) ∧
  (∃ lj lm, loops s !! lj = Some lm ∧
            (∀ lp, lp ∈ loops s → count lm ≤ count lp) ∧
            loopAccept lj k s = do_accept lj k s) ∧
  accepted (loopAccept li k s).1 = accepted s.
Proof.
  intros Hl Hn Hb.
  assert (∀ lj lm, loops s !! lj = Some lm →
            loopAccept lj k s
            = if someone_idler lm (loops s) then (s, Ret None) else do_accept lj k s)
    as Heq.
  { intros lj lm Hlm. unfold loopAccept. rewrite Hlm, Hb.
    by destruct (Z.ltb_spec 1 (len (loops s))); [|lia]. }
  split_and!.
  - intros Hex. rewrite (Heq _ _ Hl).
    by rewrite (proj2 (someone_idler_true l (loops s)) Hex).
  - intros Hmin. rewrite (Heq _ _ Hl).
    destruct (someone_idler l (loops s)) eqn:Hs; [|done].
    apply someone_idler_true in Hs as (lp & Hin & Hne & Hlt).
    specialize (Hmin lp Hin Hne). lia.
  - destruct (least_count_exists (loops s)) as (lj & lm & Hlm & Hmin).
    { intros Hnil. rewrite Hnil in Hn. unfold len in Hn. cbn in Hn. lia. }
    exists lj, lm. split_and!; try done. rewrite (Heq _ _ Hlm).
    destruct (someone_idler lm (loops s)) eqn:Hs; [|done].
    apply someone_idler_true in Hs as (lp & Hin & Hne & Hlt).
    specialize (Hmin lp Hin). lia.
  - rewrite (Heq _ _ Hl). destruct (someone_idler l (loops s)); [done|].
    apply do_accept_accepted.
Qed.

(** X2.  When the policy lets the loop accept (a single loop, or [Random])
    and the accept does not yield a usable connection, nothing is
    registered: no map, connection object or count changes.  [EAGAIN] is
    swallowed and every other accept error is returned.  When making the
    new fd non-blocking fails, that error is returned and the new fd is
    neither registered nor closed. *)
Theorem accept_failures s li l k :
  loops s !! li = Some l → len (loops s) ≤ 1 ∨ balance s = Random →
  let r := loopAccept li k s in
  (∀ e, k_accept k = inr e →
     r = (emit (SysAccept (ln_fd (ln s))) s,
          if decide (e = EAGAIN) then Ret None else Ret (Some e))) ∧
  (∀ nfd a e, k_accept k = inl (nfd, a) → k_setnonblock k = Some e →
     r.2 = Ret (Some e) ∧
     loops r.1 = loops s ∧ heap r.1 = heap s ∧ nextptr r.1 = nextptr s ∧
     new_obs s r.1 = [SysAccept (ln_fd (ln s)); SysSetNonblock nfd]).
Proof.
  intros Hl Hpol r.
  assert (r = do_accept li k s) as ->.
  { unfold r, loopAccept. rewrite Hl. destruct (Z.ltb_spec 1 (len (loops s))); [|done].
    destruct Hpol as [Hle| ->]; [lia|done]. }
  rewrite (do_accept_eq li k s l Hl). split.
  - intros e ->. done.
  - intros nfd a e -> ->. st_simpl. split_and!; try done.
    unfold new_obs. st_simpl. by rewrite <- app_assoc, drop_app_length.
Qed.


(** ** The transitions of an accepted connection *)

Lemma dispatch_opened s li l fd p c k :
  loops s !! li = Some l → fdconns l !! fd = Some p → heap s !! p = Some c →
  opened c = false →
  OnFdEvent SockaddrToAddr li fd k s = loopOpened SockaddrToAddr li p k s.
Proof. intros Hl Hfd Hc Hop. unfold OnFdEvent. by rewrite Hl, Hfd, Hc, Hop. Qed.

Lemma dispatch_write s li l fd p c k :
  loops s !! li = Some l → fdconns l !! fd = Some p → heap s !! p = Some c →
  opened c = true → out c ≠ [] →
  OnFdEvent SockaddrToAddr li fd k s = loopWrite li p k s.
Proof.
  intros Hl Hfd Hc Hop Hout. unfold OnFdEvent. rewrite Hl, Hfd, Hc, Hop.
  apply len_eqb_0_false in Hout. by rewrite Hout.
Qed.

Lemma dispatch_action s li l fd p c k :
  loops s !! li = Some l → fdconns l !! fd = Some p → heap s !! p = Some c →
  opened c = true → out c = [] → action c ≠ Action.None →
  OnFdEvent SockaddrToAddr li fd k s = loopAction li p s.
Proof.
  intros Hl Hfd Hc Hop Hout Hact. unfold OnFdEvent. rewrite Hl, Hfd, Hc, Hop, Hout.
  apply is_None_false in Hact. by rewrite Hact.
Qed.

Lemma dispatch_read s li l fd p c k :
  loops s !! li = Some l → fdconns l !! fd = Some p → heap s !! p = Some c →
  opened c = true → out c = [] → action c = Action.None →
  OnFdEvent SockaddrToAddr li fd k s = loopRead li p k s.
Proof.
  intros Hl Hfd Hc Hop Hout Hact. unfold OnFdEvent.
  by rewrite Hl, Hfd, Hc, Hop, Hout, Hact.
Qed.

Lemma loopOpened_ok li p k s l c cb :
  loops s !! li = Some l → heap s !! p = Some c → Opened (events s) = Some cb →
  let c0 := set_opened (lnaddr (ln s)) (SockaddrToAddr (sa c)) c in
  let res := cb (ustate s) p c0 in
  let ka := (0 <? TCPKeepAlive res.2.1.2) && isTCP (ln s) in
  (ka = true → k_keepalive k = None) →
  let c1 := set_reuse (ReuseInputBuffer res.2.1.2)
              (set_action res.2.2
                 (if 0 <? len res.2.1.1 then set_out res.2.1.1 c0 else c0)) in
  loopOpened SockaddrToAddr li p k s =
    (with_state s
       (<[li := if idle c1 then upd_poll (ModRead (c_fd c)) l else l]> (loops s))
       (<[p := c1]> (heap s)) (nextptr s) res.1
       (trace s ++ CallOpened p ::
          if ka then [SysSetKeepAlive (c_fd c) (TCPKeepAlive res.2.1.2 ÷ second)]
          else []),
     Ret None).
Proof.
  intros Hl Hc HO c0 res ka Hka c1. unfold loopOpened.
  rewrite Hl, Hc. st_simpl. rewrite HO. fold c0. subst c1 ka res.
  destruct (cb (ustate s) p c0) as [u [[o opts] a]]. cbn [fst snd] in *.
  st_simpl.
  assert (loops s = <[li := l]> (loops s)) as Hid by (by rewrite list_insert_id).
  assert (c_fd (set_reuse (ReuseInputBuffer opts) (set_action a
             (if 0 <? len o then set_out o c0 else c0))) = c_fd c) as Hfd
    by (by destruct (0 <? len o)).
  destruct ((0 <? TCPKeepAlive opts) && isTCP (ln s)) eqn:Hb.
  - rewrite Hka by done. rewrite narrow_if_idle_eq.
    destruct (idle _); st_eq; rewrite ?insert_insert_eq, ?Hfd;
      first [by norm_loops Hl | by rewrite <- app_assoc | done].
  - rewrite narrow_if_idle_eq.
    destruct (idle _); st_eq; rewrite ?insert_insert_eq, ?Hfd;
      first [by norm_loops Hl | done].
Qed.

(** X4.  The first readiness of an accepted connection runs [Opened] once
    and returns nil, unless keep-alive is asked for and fails.  The
    connection becomes opened with the listener's address as local and the
    converted socket address as remote address; bytes returned by [Opened]
    replace the outbound buffer (none returned: the buffer is kept); the
    returned action and [ReuseInputBuffer] are stored.  Keep-alive is set
    only for a positive [TCPKeepAlive] on a TCP listener, in whole seconds
    rounded down.  The interest is narrowed to read-only exactly when the
    connection is then idle. *)
Theorem opened_transition s li l fd p c k cb :
  loops s !! li = Some l → fdconns l !! fd = Some p → heap s !! p = Some c →
  opened c = false → Opened (events s) = Some cb →
  let c0 := set_opened (lnaddr (ln s)) (SockaddrToAddr (sa c)) c in
  let res := cb (ustate s) p c0 in
  let ka := (0 <? TCPKeepAlive res.2.1.2) && isTCP (ln s) in
  (ka = true → k_keepalive k = None) →
  let r := OnFdEvent SockaddrToAddr li fd k s in
  r.2 = Ret None ∧ ustate r.1 = res.1 ∧
  new_obs s r.1 =
    CallOpened p ::
      (if ka then [SysSetKeepAlive (c_fd c) (TCPKeepAlive res.2.1.2 ÷ second)]
       else []) ∧
  ∃ c',
    heap r.1 = <[p := c']> (heap s) ∧
    opened c' = true ∧
    localAddr c' = Some (lnaddr (ln s)) ∧
    remoteAddr c' = Some (SockaddrToAddr (sa c)) ∧
    out c' = (if decide (res.2.1.1 = []) then out c else res.2.1.1) ∧
    action c' = res.2.2 ∧
    reuse c' = ReuseInputBuffer res.2.1.2 ∧
    c_fd c' = c_fd c ∧ c_loop c' = c_loop c ∧ ctx c' = ctx c ∧ sa c' = sa c ∧
    loops r.1 = <[li := if idle c' then upd_poll (ModRead (c_fd c)) l else l]> (loops s).
Proof.
  intros Hl Hfd Hc Hop HO c0 res ka Hka r. subst r.
  rewrite (dispatch_opened s li l fd p c k) by done.
  rewrite (loopOpened_ok li p k s l c cb) by done.
  fold c0 res ka. st_simpl. split_and!; try done.
  - unfold new_obs. st_simpl. by rewrite drop_app_length.
  - eexists. split; [reflexivity|].
    split_and!; try done; cbn; try (by destruct (0 <? len res.2.1.1)).
    destruct (Z.ltb_spec 0 (len res.2.1.1)) as [Hlt|Hge].
    + apply len_pos in Hlt. by rewrite decide_False.
    + apply len_nonpos in Hge. by rewrite decide_True.
Qed.

(** X5.  An opened connection with an empty outbound buffer and a pending
    action has the action applied: [Close] closes it with a nil error;
    [Shutdown] returns the closing error and leaves the server as it was,
    the connection still open; any other value is cleared to [None] and the
    interest narrowed to read-only, with no callback. *)
Theorem action_transition s li l fd p c k :
  loops s !! li = Some l → fdconns l !! fd = Some p → heap s !! p = Some c →
  opened c = true → out c = [] → action c ≠ Action.None →
  let r := OnFdEvent SockaddrToAddr li fd k s in
  (action c = Action.Close →
     r.2 = closed_ret s p c None ∧ heap r.1 = heap s ∧
     loops r.1 = <[li := closed_loop (c_fd c) l]> (loops s) ∧
     new_obs s r.1 = SysClose (c_fd c) :: closed_obs s p None) ∧
  (action c = Action.Shutdown → r = (s, Ret (Some errClosing))) ∧
  (∀ code, action c = Action.Other code →
     r.2 = Ret None ∧ trace r.1 = trace s ∧ ustate r.1 = ustate s ∧
     heap r.1 = <[p := set_action Action.None c]> (heap s) ∧
     loops r.1 = <[li := upd_poll (ModRead (c_fd c)) l]> (loops s)).
Proof.
  intros Hl Hfd Hc Hop Hout Hact r. subst r.
  rewrite (dispatch_action s li l fd p c k) by done.
  unfold loopAction. rewrite Hl, Hc. split_and!.
  - intros ->. rewrite (loopCloseConn_eq li p None s l c) by done. st_simpl.
    split_and!; try done. unfold new_obs. st_simpl. by rewrite drop_app_length.
  - by intros ->.
  - intros code ->. rewrite narrow_if_idle_eq.
    assert (idle (set_action Action.None c) = true) as ->
      by (by apply idle_spec).
    st_simpl. split_and!; try done. by norm_loops Hl.
Qed.

(** ** How the transitions compose *)

Lemma drop_len {A} (x : list A) : drop (Z.to_nat (len x)) x = [].
Proof. unfold len. by rewrite Nat2Z.id, drop_all. Qed.

(** The server after [loopWrite] took [n] bytes. *)
Lemma after_write s li l p c k n :
  loops s !! li = Some l → heap s !! p = Some c →
  k_write k = inl n → 0 ≤ n ≤ len (out c) →
  let c1 := set_out (drop (Z.to_nat n) (out c)) c in
  let l1 := if idle c1 then upd_poll (ModRead (c_fd c)) l else l in
  let s1 := (loopWrite li p k s).1 in
  (loopWrite li p k s).2 = Ret None ∧
  loops s1 = <[li := l1]> (loops s) ∧ loops s1 !! li = Some l1 ∧
  fdconns l1 = fdconns l ∧
  heap s1 = <[p := c1]> (heap s) ∧ heap s1 !! p = Some c1 ∧
  trace s1 = trace s ++ [SysWrite (c_fd c) (out c)] ∧
  events s1 = events s ∧ ustate s1 = ustate s.
Proof.
  intros Hl Hc Hk Hn c1 l1 s1. subst s1.
  rewrite (loopWrite_ok li p k s l c n) by done. fold c1 l1. st_simpl.
  split_and!; try done.
  - apply list_lookup_insert_eq. by eapply lookup_lt_Some.
  - subst l1. by destruct (idle c1).
  - apply lookup_insert_eq.
Qed.

(** X6.  A pending [Close] waits for the outbound buffer: while bytes are
    pending the connection is written to, not closed, and the write that
    drains the buffer keeps the interest at read+write; the readiness after
    that closes the connection with a nil error. *)
Theorem close_waits_for_drain s li l fd p c k1 k2 :
  loops s !! li = Some l → fdconns l !! fd = Some p → heap s !! p = Some c →
  opened c = true → out c ≠ [] → action c = Action.Close →
  k_write k1 = inl (len (out c)) →
  let r1 := OnFdEvent SockaddrToAddr li fd k1 s in
  let r2 := OnFdEvent SockaddrToAddr li fd k2 r1.1 in
  r1.2 = Ret None ∧
  loops r1.1 = loops s ∧
  heap r1.1 = <[p := set_out [] c]> (heap s) ∧
  new_obs s r1.1 = [SysWrite (c_fd c) (out c)] ∧
  r2.2 = closed_ret r1.1 p (set_out [] c) None ∧
  loops r2.1 = <[li := closed_loop (c_fd c) l]> (loops s) ∧
  heap r2.1 = heap r1.1 ∧
  new_obs r1.1 r2.1 = SysClose (c_fd c) :: closed_obs s p None.
Proof.
  intros Hl Hfd Hc Hop Hout Hact Hk r1 r2.
  assert (0 ≤ len (out c) ≤ len (out c)) as Hn by (unfold len; lia).
  destruct (after_write s li l p c k1 _ Hl Hc Hk Hn)
    as (Hr & Hls & Hl1 & Hfd1 & Hh & Hc1 & Htr & Hev & _).
  assert (r1 = loopWrite li p k1 s) as Hr1 by (by eapply dispatch_write).
  revert Hr Hls Hl1 Hfd1 Hh Hc1 Htr Hev. rewrite <- Hr1.
  rewrite drop_len.
  assert (idle (set_out [] c) = false) as ->.
  { apply not_true_iff_false. rewrite idle_spec. cbn. rewrite Hact. by intros [_ ?]. }
  intros Hr Hls Hl1 Hfd1 Hh Hc1 Htr Hev.
  rewrite list_insert_id in Hls by done.
  assert (r2 = loopCloseConn li p None r1.1) as Hr2.
  { unfold r2. rewrite (dispatch_action r1.1 li l fd p (set_out [] c) k2); try done.
    - unfold loopAction. rewrite Hl1, Hc1. cbn [action set_out]. by rewrite Hact.
    - cbn. by rewrite Hact. }
  rewrite Hr2, (loopCloseConn_eq li p None r1.1 l (set_out [] c)) by done.
  st_simpl. split_and!; try done.
  - by apply new_obs_app.
  - by rewrite Hls.
  - unfold new_obs, closed_obs. st_simpl. rewrite drop_app_length. by rewrite Hev.
Qed.

(** X7.  Partial writes hand the buffer to the kernel in order: after a
    write of [n1] bytes and then one of [n2], the second write was given
    exactly the bytes from [n1] on, the buffer holds the bytes from
    [n1 + n2] on, and no callback ran. *)
Theorem write_progress s li l fd p c k1 k2 n1 n2 :
  loops s !! li = Some l → fdconns l !! fd = Some p → heap s !! p = Some c →
  opened c = true →
  k_write k1 = inl n1 → 0 ≤ n1 < len (out c) →
  k_write k2 = inl n2 → 0 ≤ n2 ≤ len (out c) - n1 →
  let r1 := OnFdEvent SockaddrToAddr li fd k1 s in
  let r2 := OnFdEvent SockaddrToAddr li fd k2 r1.1 in
  r1.2 = Ret None ∧ r2.2 = Ret None ∧
  new_obs s r2.1 =
    [SysWrite (c_fd c) (out c); SysWrite (c_fd c) (drop (Z.to_nat n1) (out c))] ∧
  heap r2.1 = <[p := set_out (drop (Z.to_nat (n1 + n2)) (out c)) c]> (heap s) ∧
  take (Z.to_nat n1) (out c) ++ take (Z.to_nat n2) (drop (Z.to_nat n1) (out c))
  = take (Z.to_nat (n1 + n2)) (out c).
Proof.
  intros Hl Hfd Hc Hop Hk1 Hn1 Hk2 Hn2 r1 r2.
  assert (out c ≠ []) as Hout by (apply len_pos; lia).
  assert (0 ≤ n1 ≤ len (out c)) as Hn1' by lia.
  destruct (after_write s li l p c k1 n1 Hl Hc Hk1 Hn1')
    as (Hr & Hls & Hl1 & Hfd1 & Hh & Hc1 & Htr & Hev & _).
  assert (r1 = loopWrite li p k1 s) as Hr1 by (by eapply dispatch_write).
  revert Hr Hls Hl1 Hfd1 Hh Hc1 Htr Hev. rewrite <- Hr1.
  set (c1 := set_out (drop (Z.to_nat n1) (out c)) c).
  assert (len (out c1) = len (out c) - n1) as Hlen1.
  { unfold len, c1. cbn [out set_out]. rewrite length_drop. unfold len in Hn1. lia. }
  assert (out c1 ≠ []) as Hout1 by (apply len_pos; lia).
  set (l1 := if idle c1 then _ else l). intros Hr Hls Hl1 Hfd1 Hh Hc1 Htr Hev.
  rewrite <- Hfd1 in Hfd.
  assert (0 ≤ n2 ≤ len (out c1)) as Hn2' by lia.
  destruct (after_write r1.1 li l1 p c1 k2 n2 Hl1 Hc1 Hk2 Hn2')
    as (Hr' & _ & _ & _ & Hh' & _ & Htr' & _).
  assert (r2 = loopWrite li p k2 r1.1) as Hr2 by (by eapply dispatch_write).
  revert Hr' Hh' Htr'. rewrite <- Hr2. intros Hr' Hh' Htr'.
  split_and!; try done.
  - apply new_obs_app. rewrite Htr', Htr. by rewrite <- app_assoc.
  - rewrite Hh', Hh, insert_insert_eq. f_equal. unfold c1. cbn [out set_out].
    rewrite drop_drop. unfold set_out. cbn. do 2 f_equal. lia.
  - rewrite Z2Nat.inj_add by lia. by rewrite take_take_drop.
Qed.

(** X8.  What [Data] returns is what the next write hands to the kernel:
    after a read on an idle connection for which [Data] returns bytes, the
    next readiness writes exactly those bytes; when they are taken in full
    and the returned action is [None], the connection is idle again with
    read-only interest.  In between it had read+write interest. *)
Theorem data_reply_is_written s li l fd p c k1 k2 data cb :
  loops s !! li = Some l → fdconns l !! fd = Some p → heap s !! p = Some c →
  opened c = true → out c = [] → action c = Action.None →
  Data (events s) = Some cb →
  k_read k1 = inl data → data ≠ [] → len data ≤ len (packet l) →
  let oa := (cb (ustate s) p c data).2 in
  oa.1 ≠ [] → k_write k2 = inl (len oa.1) →
  let r1 := OnFdEvent SockaddrToAddr li fd k1 s in
  let r2 := OnFdEvent SockaddrToAddr li fd k2 r1.1 in
  r1.2 = Ret None ∧ r2.2 = Ret None ∧
  new_obs s r2.1 =
    [SysRead (c_fd c); CallData p data (reuse c); SysWrite (c_fd c) oa.1] ∧
  heap r1.1 = <[p := set_out oa.1 (set_action oa.2 c)]> (heap s) ∧
  heap r2.1 = <[p := set_out [] (set_action oa.2 c)]> (heap s) ∧
  (∀ i, interest (poll l) !! c_fd c = Some i →
     (∃ l1, loops r1.1 !! li = Some l1 ∧
            interest (poll l1) !! c_fd c = Some ReadWrite) ∧
     (oa.2 = Action.None →
        ∃ l2, loops r2.1 !! li = Some l2 ∧ fdconns l2 = fdconns l ∧
              interest (poll l2) !! c_fd c = Some Read)).
Proof.
  intros Hl Hfd Hc Hop Hout Hact HD Hk1 Hne Hlen oa Ho Hk2 r1 r2.
  assert (r1 = loopRead li p k1 s) as Hr1 by (by eapply dispatch_read).
  pose proof (loopRead_data li p k1 s l c data cb Hl Hc Hk1 Hne Hlen HD) as Heq.
  cbn zeta in Heq. fold oa in Heq. rewrite <- Hr1 in Heq.
  apply len_pos in Ho as Hpos. apply Z.ltb_lt in Hpos. rewrite Hpos in Heq.
  set (c1 := set_out oa.1 (set_action oa.2 c)) in *.
  assert (idle c1 = false) as Hbusy.
  { apply not_true_iff_false. rewrite idle_spec. cbn. by intros [? _]. }
  rewrite Hbusy in Heq.
  set (l1 := upd_poll (ModReadWrite (c_fd c)) _) in Heq.
  assert (loops r1.1 !! li = Some l1) as Hl1.
  { rewrite Heq. st_simpl. apply list_lookup_insert_eq. by eapply lookup_lt_Some. }
  assert (heap r1.1 !! p = Some c1) as Hc1.
  { rewrite Heq. st_simpl. apply lookup_insert_eq. }
  assert (0 ≤ len (out c1) ≤ len (out c1)) as Hn by (unfold len; lia).
  destruct (after_write r1.1 li l1 p c1 k2 _ Hl1 Hc1 Hk2 Hn)
    as (Hr' & Hls' & Hl2 & _ & Hh' & _ & Htr' & _).
  assert (r2 = loopWrite li p k2 r1.1) as Hr2 by (by eapply dispatch_write).
  revert Hr' Hls' Hl2 Hh' Htr'. rewrite <- Hr2. cbn [out c1 set_out].
  rewrite drop_len. intros Hr' Hls' Hl2 Hh' Htr'.
  split_and!; try done.
  - by rewrite Heq.
  - apply new_obs_app. rewrite Htr', Heq. st_simpl. by rewrite <- app_assoc.
  - by rewrite Heq.
  - rewrite Hh', Heq. st_simpl. by rewrite insert_insert_eq.
  - intros i Hi. split.
    + exists l1. split; [done|]. subst l1. cbn. by rewrite lookup_alter_eq, Hi.
    + intros Hnone. eexists. split; [exact Hl2|].
      assert (idle (set_out [] c1) = true) as -> by (apply idle_spec; by cbn).
      subst l1. cbn. split; [done|]. by rewrite !lookup_alter_eq, Hi.
Qed.

(** ** Writes from other threads *)

(** X9.  Pending writes are delivered in the order they were posted.  A
    [conn.Write] that cannot finish posts the unwritten bytes behind every
    write already pending.  On an empty channel the next delivery appends
    exactly those bytes to the connection's outbound buffer and widens its
    interest; on a non-empty channel the next delivery takes the oldest
    pending write and the new one stays last. *)
Theorem write_then_deliver s p c l data k rest :
  heap s !! p = Some c → loops s !! c_loop c = Some l →
  len (wch l) < writeEventBuf → k_fire k = None →
  (k_write k = inr EAGAIN ∧ rest = data) ∨
    (∃ n, k_write k = inl n ∧ 0 ≤ n < len data ∧ rest = drop (Z.to_nat n) data) →
  let w := {| w_c := p; w_data := rest |} in
  let r1 := conn_Write p data k s in
  let r2 := OnEvent (c_loop c) EventWrite r1.1 in
  r1.2 = Ret None ∧
  (∃ l1, loops r1.1 !! c_loop c = Some l1 ∧ wch l1 = wch l ++ [w] ∧
         fired (poll l1) = fired (poll l) ++ [EventWrite]) ∧
  (wch l = [] →
     r2.2 = Ret None ∧
     heap r2.1 = <[p := set_out (out c ++ rest) c]> (heap s) ∧
     ∃ l2, loops r2.1 !! c_loop c = Some l2 ∧ wch l2 = [] ∧
           fdconns l2 = fdconns l ∧
           interest (poll l2) = alter (λ _, ReadWrite) (c_fd c) (interest (poll l))) ∧
  (∀ w0 ws c0, wch l = w0 :: ws → heap s !! w_c w0 = Some c0 →
     r2.2 = Ret None ∧
     heap r2.1 = <[w_c w0 := set_out (out c0 ++ w_data w0) c0]> (heap s) ∧
     ∃ l2, loops r2.1 !! c_loop c = Some l2 ∧ wch l2 = ws ++ [w]).
Proof.
  intros Hc Hl Hroom Hfire Hq w r1 r2.
  assert (r1 = conn_willWrite p rest k (emit (SysWrite (c_fd c) data) s)) as Hr1.
  { unfold r1, conn_Write. rewrite Hc.
    destruct Hq as [[-> ->]|(n & -> & Hn & ->)]; [done|].
    destruct (Z.ltb_spec n (len data)); [|lia].
    destruct (Z.leb_spec 0 n); [done|lia]. }
  pose proof (conn_willWrite_eq p rest k (emit (SysWrite (c_fd c) data) s) c l
                Hc Hl Hroom) as Heq.
  cbn zeta in Heq. rewrite <- Hr1, Hfire in Heq. st_simpl_in Heq. subst w.
  set (l1 := upd_poll (poll_enqueue EventWrite) (set_wch (wch l ++ [_]) l)) in Heq.
  assert (loops r1.1 !! c_loop c = Some l1) as Hl1.
  { rewrite Heq. st_simpl. apply list_lookup_insert_eq. by eapply lookup_lt_Some. }
  assert (heap r1.1 = heap s) as Hh1 by (by rewrite Heq).
  split_and!.
  - by rewrite Heq.
  - by exists l1.
  - intros Hemp. unfold r2, OnEvent. rewrite Hl1. cbn [wch l1 upd_poll set_wch].
    rewrite Hemp. cbn [app w_c w_data]. st_simpl. rewrite Hh1, Hc. st_simpl.
    rewrite ?Hh1. split_and!; try done. eexists. split.
    + norm_loops Hl1. apply list_lookup_insert_eq. by eapply lookup_lt_Some.
    + done.
  - intros w0 ws c0 Hw Hc0. unfold r2, OnEvent. rewrite Hl1.
    cbn [wch l1 upd_poll set_wch]. rewrite Hw. cbn [app w_c w_data]. st_simpl.
    rewrite Hh1, Hc0. st_simpl. rewrite ?Hh1. split_and!; try done. eexists. split.
    + norm_loops Hl1. apply list_lookup_insert_eq. by eapply lookup_lt_Some.
    + done.
Qed.

Lemma conn_willWrite_leaves p data k s :
  let r := conn_willWrite p data k s in
  heap r.1 = heap s ∧ ustate r.1 = ustate s ∧ accepted r.1 = accepted s ∧
  nextptr r.1 = nextptr s ∧
  (λ l, (idx l, fdconns l, count l, interest (poll l), packet l)) <$> loops r.1
  = (λ l, (idx l, fdconns l, count l, interest (poll l), packet l)) <$> loops s ∧
  ∃ tl, trace r.1 = trace s ++ tl ∧
        ∀ o, o ∈ tl → ∃ lj, o = PollFire lj EventWrite.
Proof.
  cbv zeta. unfold conn_willWrite.
  assert (∃ tl, trace s = trace s ++ tl ∧ ∀ o, o ∈ tl → ∃ lj, o = PollFire lj EventWrite)
    as Hnil by (exists []; split; [by rewrite app_nil_r|set_solver]).
  destruct (heap s !! p) as [c|]; [|done].
  destruct (loops s !! c_loop c) as [l|] eqn:Hl; [|done].
  destruct (len (wch l) <? writeEventBuf); [|done].
  assert (∀ f : loop → loop,
     (∀ x, (idx (f x), fdconns (f x), count (f x), interest (poll (f x)), packet (f x))
           = (idx x, fdconns x, count x, interest (poll x), packet x)) →
     (λ l, (idx l, fdconns l, count l, interest (poll l), packet l))
       <$> alter f (c_loop c) (loops s)
     = (λ l, (idx l, fdconns l, count l, interest (poll l), packet l)) <$> loops s)
    as Hframe.
  { intros f Hf. apply list_eq. intros j. rewrite !list_lookup_fmap.
    destruct (decide (c_loop c = j)) as [<-|Hne].
    - rewrite list_lookup_alter_eq, Hl. cbn. by rewrite Hf.
    - by rewrite list_lookup_alter_ne. }
  destruct (k_fire k); st_simpl; (split_and!; try done).
  - by apply Hframe.
  - eexists [_]. split; [done|]. intros o [->|[]%elem_of_nil]%elem_of_cons. eauto.
  - rewrite list_alter_alter_eq. by apply Hframe.
  - eexists [_]. split; [done|]. intros o [->|[]%elem_of_nil]%elem_of_cons. eauto.
Qed.

(** X10.  [conn.Write] never touches a connection object, a loop's fd map,
    count, interest set or read buffer, the round-robin counter or the user
    state, and it runs no callback: whatever the kernel answers, all it can
    do besides the write attempt is to append to one channel and fire the
    write event. *)
Theorem conn_Write_leaves_loops_alone s p data k :
  let r := conn_Write p data k s in
  heap r.1 = heap s ∧ ustate r.1 = ustate s ∧ accepted r.1 = accepted s ∧
  nextptr r.1 = nextptr s ∧
  (λ l, (idx l, fdconns l, count l, interest (poll l), packet l)) <$> loops r.1
  = (λ l, (idx l, fdconns l, count l, interest (poll l), packet l)) <$> loops s ∧
  ∀ o, o ∈ new_obs s r.1 →
       (∃ fd' d, o = SysWrite fd' d) ∨ ∃ lj, o = PollFire lj EventWrite.
Proof.
  cbv zeta. unfold conn_Write.
  assert (∀ o, o ∈ new_obs s s →
            (∃ fd' d, o = SysWrite fd' d) ∨ ∃ lj, o = PollFire lj EventWrite) as Hnil.
  { intros o. unfold new_obs. rewrite drop_all. by intros []%elem_of_nil. }
  destruct (heap s !! p) as [c|]; [|done].
  assert (∀ o, o ∈ new_obs s (emit (SysWrite (c_fd c) data) s) →
            (∃ fd' d, o = SysWrite fd' d) ∨ ∃ lj, o = PollFire lj EventWrite) as Hone.
  { intros o. unfold new_obs. st_simpl. rewrite drop_app_length.
    intros [->|[]%elem_of_nil]%elem_of_cons. eauto. }
  assert (∀ d, let r := conn_willWrite p d k (emit (SysWrite (c_fd c) data) s) in
     heap r.1 = heap s ∧ ustate r.1 = ustate s ∧ accepted r.1 = accepted s ∧
     nextptr r.1 = nextptr s ∧
     (λ l, (idx l, fdconns l, count l, interest (poll l), packet l)) <$> loops r.1
     = (λ l, (idx l, fdconns l, count l, interest (poll l), packet l)) <$> loops s ∧
     ∀ o, o ∈ new_obs s r.1 →
          (∃ fd' d, o = SysWrite fd' d) ∨ ∃ lj, o = PollFire lj EventWrite) as Hww.
  { intros d.
    destruct (conn_willWrite_leaves p d k (emit (SysWrite (c_fd c) data) s))
      as (H1 & H2 & H3 & H4 & H5 & tl & Htr & Htl).
    cbv zeta. split_and!; try done.
    intros o. unfold new_obs. rewrite Htr. st_simpl.
    rewrite <- app_assoc, drop_app_length.
    intros [->|Hin]%elem_of_cons; [eauto|]. right. by apply Htl. }
  destruct (k_write k) as [n|e].
  - destruct (n <? len data); [|done]. destruct (0 <=? n); [apply Hww|done].
  - case_decide; [apply Hww|done].
Qed.

(** ** User events *)

(** X11.  Of the user events, [EventClose] returns the closing error and
    an unknown tag returns nil, both leaving the server as it was.  On
    [EventTick] the [Tick] callback runs once; only [Shutdown] stops the
    loop, and then no delay is published; any other action, [Close]
    included, publishes the returned delay for the ticker and returns nil.
    No connection and no loop is touched by a tick. *)
Theorem user_event_tags s li l :
  loops s !! li = Some l →
  OnEvent li EventClose s = (s, Ret (Some errClosing)) ∧
  (∀ tag, OnEvent li (EventOther tag) s = (s, Ret None)) ∧
  (∀ cb, Tick (events s) = Some cb →
     let res := cb (ustate s) in
     let r := OnEvent li EventTick s in
     new_obs s r.1 = [CallTick] ∧ ustate r.1 = res.1 ∧
     loops r.1 = loops s ∧ heap r.1 = heap s ∧
     (res.2.2 = Action.Shutdown →
        r.2 = Ret (Some errClosing) ∧ tch r.1 = tch s) ∧
     (res.2.2 ≠ Action.Shutdown →
        r.2 = Ret None ∧ tch r.1 = tch s ++ [res.2.1])).
Proof.
  intros Hl. unfold OnEvent. rewrite Hl. split_and!; try done.
  intros cb ->. cbv zeta. destruct (cb (ustate s)) as [u [delay a]]. cbn [fst snd].
  assert (∀ s', trace s' = trace s ++ [CallTick] → new_obs s s' = [CallTick]) as Hobs
    by (intros s'; apply new_obs_app).
  destruct a; st_simpl; split_and!; try done; by apply Hobs.
Qed.

(** ** Closing *)

Lemma OnFdEvent_closes li fd k s l p c err :
  loops s !! li = Some l → fdconns l !! fd = Some p → heap s !! p = Some c →
  opened c = true →
  (out c ≠ [] ∧ ∃ e, k_write k = inr e ∧ e ≠ EAGAIN ∧ err = Some e) ∨
  (out c = [] ∧ action c = Action.None ∧
     ∃ e, k_read k = inr e ∧ e ≠ EAGAIN ∧ err = Some e) ∨
  (out c = [] ∧ action c = Action.None ∧ k_read k = inl [] ∧ err = None) ∨
  (out c = [] ∧ action c = Action.Close ∧ err = None) →
  ∃ tl, OnFdEvent SockaddrToAddr li fd k s
        = (with_state s (<[li := closed_loop (c_fd c) l]> (loops s)) (heap s)
             (nextptr s) (closed_ustate s p c err)
             (trace s ++ tl ++ SysClose (c_fd c) :: closed_obs s p err),
           closed_ret s p c err) ∧
        (tl = [] ∨ tl = [SysWrite (c_fd c) (out c)] ∨ tl = [SysRead (c_fd c)]).
Proof.
  intros Hl Hfd Hc Hop Hcase.
  assert (∀ o, loopCloseConn li p err (emit o s)
     = (with_state s (<[li := closed_loop (c_fd c) l]> (loops s)) (heap s)
          (nextptr s) (closed_ustate s p c err)
          (trace s ++ [o] ++ SysClose (c_fd c) :: closed_obs s p err),
        closed_ret s p c err)) as Hemit.
  { intros o. rewrite (loopCloseConn_eq li p err (emit o s) l c) by done.
    st_eq. by rewrite <- app_assoc. }
  destruct Hcase as [(Hout & e & Hk & He & ->)
    |[(Hout & Hact & e & Hk & He & ->)|[(Hout & Hact & Hk & ->)|(Hout & Hact & ->)]]].
  - rewrite (dispatch_write s li l fd p c k) by done.
    unfold loopWrite. rewrite Hl, Hc, Hk, decide_False by done.
    eexists. split; [apply Hemit|]. auto.
  - rewrite (dispatch_read s li l fd p c k) by done.
    unfold loopRead. rewrite Hl, Hc, Hk, decide_False by done.
    eexists. split; [apply Hemit|]. auto.
  - rewrite (dispatch_read s li l fd p c k) by done.
    unfold loopRead. rewrite Hl, Hc, Hk.
    eexists. split; [apply Hemit|]. auto.
  - rewrite (dispatch_action s li l fd p c k); try done; [|by rewrite Hact].
    unfold loopAction. rewrite Hl, Hc, Hact.
    exists []. split; [|auto]. by rewrite (loopCloseConn_eq li p None s l c).
Qed.

(** X12.  Whenever a connection is closed from a readiness event (a write
    or read error other than [EAGAIN], a zero-byte read, or a pending
    [Close] on an empty buffer), its entry leaves the map, the count goes
    down by one, the fd is closed and only then [Closed] is called with the
    error (nil for a zero-byte read and for [Close]).  The loop ends with
    the closing error exactly when [Closed] returns [Shutdown]; otherwise,
    and when there is no [Closed] callback, it goes on to its next wake. *)
Theorem close_from_event s li l fd p c k err ws :
  loops s !! li = Some l → fdconns l !! fd = Some p → heap s !! p = Some c →
  opened c = true →
  (out c ≠ [] ∧ ∃ e, k_write k = inr e ∧ e ≠ EAGAIN ∧ err = Some e) ∨
  (out c = [] ∧ action c = Action.None ∧
     ∃ e, k_read k = inr e ∧ e ≠ EAGAIN ∧ err = Some e) ∨
  (out c = [] ∧ action c = Action.None ∧ k_read k = inl [] ∧ err = None) ∨
  (out c = [] ∧ action c = Action.Close ∧ err = None) →
  let r := OnFdEvent SockaddrToAddr li fd k s in
  (∃ l', loops r.1 = <[li := l']> (loops s) ∧
         fdconns l' = delete (c_fd c) (fdconns l) ∧
         count l' = wrap_int32 (count l - 1) ∧
         interest (poll l') = delete (c_fd c) (interest (poll l))) ∧
  heap r.1 = heap s ∧
  (∃ tl, new_obs s r.1 = tl ++ SysClose (c_fd c) :: closed_obs s p err ∧
         ∀ o, o ∈ tl → o = SysWrite (c_fd c) (out c) ∨ o = SysRead (c_fd c)) ∧
  (∀ cb, Closed (events s) = Some cb →
     (cb (ustate s) p c err).2 = Action.Shutdown →
     r.2 = Ret (Some errClosing) ∧
     loopRun SockaddrToAddr li (FdReady fd k :: ws) s
     = (r.1, Some (Ret (Some errClosing)))) ∧
  ((∀ cb, Closed (events s) = Some cb →
      (cb (ustate s) p c err).2 ≠ Action.Shutdown) →
     r.2 = Ret None ∧
     loopRun SockaddrToAddr li (FdReady fd k :: ws) s
     = loopRun SockaddrToAddr li ws r.1).
Proof.
  intros Hl Hfd Hc Hop Hcase r.
  destruct (OnFdEvent_closes li fd k s l p c err Hl Hfd Hc Hop Hcase) as (tl & Heq & Htl).
  unfold loopRun. subst r. cbn [pollWait handle]. rewrite Heq. st_simpl.
  split_and!.
  - by eexists.
  - done.
  - exists tl. split; [by apply new_obs_app|].
    intros o Ho. destruct Htl as [->|[->| ->]].
    + by apply elem_of_nil in Ho.
    + apply elem_of_cons in Ho as [->|[]%elem_of_nil]. by left.
    + apply elem_of_cons in Ho as [->|[]%elem_of_nil]. by right.
  - intros cb Hcb Hsh. unfold closed_ret. by rewrite Hcb, Hsh.
  - intros Hno. unfold closed_ret.
    destruct (Closed (events s)) as [cb|]; [|done].
    specialize (Hno cb eq_refl). by destruct (cb _ _ _ _).2.
Qed.

(** ** What a step does to the life of the connections *)

Lemma shape_of_alter (f : loop → loop) li (ls : list loop) :
  (∀ l, (idx (f l), length (packet (f l))) = (idx l, length (packet l))) →
  shape_of (alter f li ls) = shape_of ls.
Proof.
  intros Hf. unfold shape_of. apply list_eq. intros j.
  rewrite !list_lookup_fmap. destruct (decide (li = j)) as [<-|Hne].
  - rewrite list_lookup_alter_eq. destruct (ls !! li) as [l|]; [|done].
    cbn. by rewrite Hf.
  - by rewrite list_lookup_alter_ne.
Qed.

Lemma shape_of_read (ls : list loop) li l (data : list byte) :
  ls !! li = Some l → (length data ≤ length (packet l))%nat →
  shape_of (alter (set_packet (read_into (packet l) data)) li ls) = shape_of ls.
Proof.
  intros Hl Hlen. unfold shape_of. apply list_eq. intros j.
  rewrite !list_lookup_fmap. destruct (decide (li = j)) as [<-|Hne].
  - rewrite list_lookup_alter_eq, Hl. cbn. unfold read_into.
    rewrite length_app, length_drop. do 3 f_equal. lia.
  - by rewrite list_lookup_alter_ne.
Qed.

Lemma shape_of_insert (ls : list loop) li l l' :
  ls !! li = Some l → idx l' = idx l → length (packet l') = length (packet l) →
  shape_of (<[li := l']> ls) = shape_of ls.
Proof.
  intros Hl Hi Hp. unfold shape_of. rewrite list_fmap_insert. cbn.
  rewrite Hi, Hp. apply list_insert_id. by rewrite list_lookup_fmap, Hl.
Qed.

Lemma same_flags_refl (h : gmap ptr (@conn Sockaddr Addr Ctx)) : same_flags h h.
Proof. intros p. by destruct (h !! p). Qed.

Lemma same_flags_put (h : gmap ptr (@conn Sockaddr Addr Ctx)) p c c' :
  h !! p = Some c → c_fd c' = c_fd c → c_loop c' = c_loop c →
  opened c' = opened c → same_flags h (<[p := c']> h).
Proof.
  intros Hc Hfd Hlp Hop q. destruct (decide (p = q)) as [<-|Hne].
  - by rewrite Hc, lookup_insert_eq.
  - rewrite lookup_insert_ne by done. by destruct (h !! q).
Qed.

Lemma lchange_refl s : lchange s s.
Proof.
  split; [done|]. split; [done|]. exists []. split; [by rewrite app_nil_r|].
  left. split_and!; try done. apply same_flags_refl.
Qed.

(** A step taken after an entry that is no connection callback was traced. *)
Lemma lchange_after_emit o s s' :
  is_conn_call o = false → lchange (emit o s) s' → lchange s s'.
Proof.
  intros Ho (Hev & Hsh & tl & Htr & Hcase). split; [done|]. split; [done|].
  exists (o :: tl). st_simpl_in Htr. split; [by rewrite Htr, <- app_assoc|].
  cbn [List.filter]. rewrite Ho. exact Hcase.
Qed.

Ltac quiet_tac :=
  split; [reflexivity|];
  split; [st_simpl; rewrite ?shape_of_alter by (intros ?; reflexivity); reflexivity|];
  eexists; split;
  [ st_simpl; rewrite <- ?app_assoc; first [reflexivity | symmetry; apply app_nil_r]
  | left; st_simpl; split_and!;
    [ rewrite ?maps_of_alter_frame by (intros ?; split; reflexivity); reflexivity
    | rewrite ?insert_insert_eq;
      first [ apply same_flags_refl
            | eapply same_flags_put; [eassumption|..];
              repeat lazymatch goal with
                     | |- context [if ?b then _ else _] => destruct b
                     end; reflexivity ]
    | reflexivity
    | reflexivity ] ].

Ltac split_idle :=
  rewrite ?narrow_if_idle_eq, ?widen_if_busy_eq;
  repeat lazymatch goal with
         | |- context [if idle ?c then _ else _] => destruct (idle c)
         end.

Lemma lchange_loopCloseConn s li l p c err :
  loops s !! li = Some l → heap s !! p = Some c → fdconns l !! c_fd c = Some p →
  lchange s (loopCloseConn li p err s).1.
Proof.
  intros Hl Hc Hfd. rewrite (loopCloseConn_eq li p err s l c) by done.
  split; [done|]. split; [st_simpl; by apply (shape_of_insert _ _ l)|].
  eexists. split; [reflexivity|]. right. right. left.
  exists li, l, (closed_loop (c_fd c) l), p, c, err. split_and!; try done.
  cbn [List.filter is_conn_call]. unfold closed_obs.
  by destruct (Closed (events s)).
Qed.

Lemma lchange_do_accept s li l k :
  loops s !! li = Some l → fresh_accept li k s → lchange s (do_accept li k s).1.
Proof.
  intros Hl Hfresh. unfold do_accept.
  destruct (k_accept k) as [[nfd a]|err] eqn:Hk.
  2:{ case_decide; quiet_tac. }
  destruct (k_setnonblock k); [quiet_tac|].
  split; [done|].
  split; [st_simpl; rewrite ?shape_of_alter by (intros ?; reflexivity); reflexivity|].
  eexists. split; [st_simpl; rewrite <- ?app_assoc; reflexivity|].
  right. left. exists li, l, (accepted_loop nfd (nextptr s) l), nfd, a.
  st_simpl. split_and!; try done.
  - by eapply Hfresh.
  - by norm_loops Hl.
Qed.

Lemma lchange_loopAccept s li k :
  fresh_accept li k s → lchange s (loopAccept li k s).1.
Proof.
  intros Hfresh. unfold loopAccept.
  destruct (loops s !! li) as [l|] eqn:Hl; [|apply lchange_refl].
  destruct (1 <? len (loops s)); [|by eapply lchange_do_accept].
  destruct (balance s).
  - by eapply lchange_do_accept.
  - destruct (negb _); [apply lchange_refl|].
    by apply (lchange_do_accept (set_accepted _ s) li l k).
  - destruct (someone_idler _ _); [apply lchange_refl|by eapply lchange_do_accept].
Qed.

Lemma lchange_loopOpened s li l p c k :
  loops s !! li = Some l → heap s !! p = Some c → fdconns l !! c_fd c = Some p →
  opened c = false →
  lchange s (loopOpened SockaddrToAddr li p k s).1.
Proof.
  intros Hl Hc Hfd Hop. unfold loopOpened. rewrite Hl, Hc. st_simpl.
  assert (∀ s1 c1 tl,
     events s1 = events s → loops s1 = loops s → nextptr s1 = nextptr s →
     heap s1 = <[p := c1]> (heap s) → trace s1 = trace s ++ tl →
     c_fd c1 = c_fd c → c_loop c1 = c_loop c → opened c1 = true →
     List.filter is_conn_call tl
     = match Opened (events s) with Some _ => [CallOpened p] | None => [] end →
     ∀ s2, s2 = s1 ∨ s2 = upd_loop li (upd_poll (ModRead (c_fd c1))) s1 →
     lchange s s2) as Hend.
  { intros s1 c1 tl Hev Hls Hnp Hh Htr H1 H2 H3 Hf s2 Hs2.
    assert (events s2 = events s ∧ nextptr s2 = nextptr s ∧ heap s2 = heap s1 ∧
            trace s2 = trace s1 ∧
            (loops s2 = loops s ∨
             loops s2 = alter (upd_poll (ModRead (c_fd c1))) li (loops s)))
      as (Hev2 & Hnp2 & Hh2 & Htr2 & Hls2).
    { destruct Hs2 as [->| ->]; st_simpl; rewrite ?Hls; split_and!; auto. }
    split; [done|]. split.
    { destruct Hls2 as [->| ->]; [done|]. by apply shape_of_alter. }
    exists tl. split; [by rewrite Htr2|]. right. right. right. left.
    exists li, l, p, c, c1. rewrite Hh2. split_and!; try done.
    destruct Hls2 as [->| ->]; [done|]. by apply maps_of_alter_frame. }
  destruct (Opened (events s)) as [cb|].
  - destruct (cb _ _ _) as [u [[o opts] a]]. st_simpl.
    destruct ((0 <? TCPKeepAlive opts) && isTCP (ln s)); [destruct (k_keepalive k)|];
      cbn [fst]; rewrite ?narrow_if_idle_eq;
      (eapply Hend;
       [..|lazymatch goal with
           | |- context [if idle ?x then _ else _] => destruct (idle x); auto
           | |- _ => left; reflexivity
           end]);
      st_simpl; rewrite <- ?app_assoc, ?insert_insert_eq;
      try reflexivity; by destruct (0 <? len o).
  - cbn [fst]. rewrite narrow_if_idle_eq.
    eapply (Hend _ _ []);
      [..|lazymatch goal with
          | |- context [if idle ?x then _ else _] => destruct (idle x); auto
          end];
      st_simpl; rewrite ?app_nil_r; reflexivity.
Qed.

Lemma lchange_loopWrite s li l p c k :
  loops s !! li = Some l → heap s !! p = Some c → fdconns l !! c_fd c = Some p →
  lchange s (loopWrite li p k s).1.
Proof.
  intros Hl Hc Hfd. unfold loopWrite. rewrite Hl, Hc.
  destruct (k_write k) as [n|e].
  - destruct (n =? len (out c)); [|destruct ((0 <=? n) && (n <=? len (out c)))];
      cbn [fst]; split_idle; quiet_tac.
  - case_decide; [quiet_tac|].
    eapply lchange_after_emit; [|by eapply lchange_loopCloseConn]. done.
Qed.

Lemma lchange_loopAction s li l p c :
  loops s !! li = Some l → heap s !! p = Some c → fdconns l !! c_fd c = Some p →
  lchange s (loopAction li p s).1.
Proof.
  intros Hl Hc Hfd. unfold loopAction. rewrite Hl, Hc.
  destruct (action c); first [by eapply lchange_loopCloseConn | apply lchange_refl | idtac];
    cbn [fst]; split_idle; quiet_tac.
Qed.

Lemma lchange_loopRead s li l p c k :
  loops s !! li = Some l → heap s !! p = Some c → fdconns l !! c_fd c = Some p →
  opened c = true →
  lchange s (loopRead li p k s).1.
Proof.
  intros Hl Hc Hfd Hop. unfold loopRead. rewrite Hl, Hc.
  destruct (k_read k) as [data|e].
  2:{ case_decide; [quiet_tac|].
      eapply lchange_after_emit; [|by eapply lchange_loopCloseConn]. done. }
  destruct data as [|b d].
  { eapply lchange_after_emit; [|by eapply lchange_loopCloseConn]. done. }
  set (data := b :: d).
  destruct (len (packet l) <? len data) eqn:Hlen; [quiet_tac|].
  assert (length data ≤ length (packet l))%nat as Hle.
  { apply Z.ltb_ge in Hlen. unfold len in Hlen. lia. }
  assert (take (length data) (read_into (packet l) data) = data) as Htake.
  { unfold read_into. by rewrite take_app_length. }
  pose proof (shape_of_read (loops s) li l data Hl Hle) as Hshape.
  st_simpl. rewrite Htake. destruct (Data (events s)) as [cb|].
  - destruct (cb _ _ _ _) as [u [o a]]. cbn [fst].
    split; [split_idle; reflexivity|].
    split.
    { rewrite widen_if_busy_eq.
      lazymatch goal with
      | |- context [if idle ?x then _ else _] => destruct (idle x)
      end; st_simpl;
        rewrite ?shape_of_alter by (intros ?; reflexivity); exact Hshape. }
    exists [SysRead (c_fd c); CallData p data (reuse c)].
    split.
    { rewrite widen_if_busy_eq.
      lazymatch goal with
      | |- context [if idle ?x then _ else _] => destruct (idle x)
      end; st_simpl; by rewrite <- app_assoc. }
    do 4 right. exists li, l, p, c, data, (reuse c).
    split_and!; try done.
    + rewrite widen_if_busy_eq.
      lazymatch goal with
      | |- context [if idle ?x then _ else _] => destruct (idle x)
      end; st_simpl;
        rewrite ?maps_of_alter_frame by (intros ?; split; reflexivity); reflexivity.
    + rewrite widen_if_busy_eq.
      lazymatch goal with
      | |- context [if idle ?x then _ else _] => destruct (idle x)
      end; st_simpl; (eapply same_flags_put; [eassumption|..]);
        by destruct (0 <? len o).
    + split_idle; reflexivity.
  - cbn [fst]. split; [split_idle; reflexivity|].
    split.
    { split_idle; st_simpl;
        rewrite ?shape_of_alter by (intros ?; reflexivity); exact Hshape. }
    exists [SysRead (c_fd c)].
    split; [split_idle; reflexivity|]. left.
    split_and!; try done.
    + split_idle; st_simpl;
        rewrite ?maps_of_alter_frame by (intros ?; split; reflexivity); reflexivity.
    + split_idle; apply same_flags_refl.
    + split_idle; reflexivity.
Qed.

Lemma lchange_OnFdEvent s li fd k :
  wf s → fresh_accept li k s → lchange s (OnFdEvent SockaddrToAddr li fd k s).1.
Proof.
  intros Hwf Hfresh. unfold OnFdEvent.
  destruct (loops s !! li) as [l|] eqn:Hl; [|apply lchange_refl].
  destruct (fdconns l !! fd) as [p|] eqn:Hfd; [|by apply lchange_loopAccept].
  destruct (wf_entry s li l fd p Hwf Hl Hfd) as (c & Hc & <- & _). rewrite Hc.
  destruct (opened c) eqn:Hop; cbn [negb]; [|by eapply lchange_loopOpened].
  destruct (negb (len (out c) =? 0)); [by eapply lchange_loopWrite|].
  destruct (negb (Action.is_None (action c)));
    [by eapply lchange_loopAction|by eapply lchange_loopRead].
Qed.

Lemma lchange_OnEvent s li (tag : Event) : lchange s (OnEvent li tag s).1.
Proof.
  unfold OnEvent. destruct (loops s !! li) as [l|] eqn:Hl; [|apply lchange_refl].
  destruct tag; try apply lchange_refl.
  - destruct (Tick (events s)) as [cb|]; [|apply lchange_refl].
    destruct (cb _) as [u [delay a]]. destruct a; quiet_tac.
  - destruct (wch l) as [|w ws]; [apply lchange_refl|]. st_simpl.
    destruct (heap s !! w_c w) as [c|] eqn:Hc; quiet_tac.
Qed.

Lemma lchange_conn_willWrite s p data k : lchange s (conn_willWrite p data k s).1.
Proof.
  unfold conn_willWrite.
  destruct (heap s !! p) as [c|]; [|apply lchange_refl].
  destruct (loops s !! c_loop c) as [l|]; [|apply lchange_refl].
  destruct (len (wch l) <? writeEventBuf); [|apply lchange_refl].
  destruct (k_fire k); quiet_tac.
Qed.

Lemma lchange_conn_Write s p data k : lchange s (conn_Write p data k s).1.
Proof.
  unfold conn_Write. destruct (heap s !! p) as [c|]; [|apply lchange_refl].
  destruct (k_write k) as [n|e].
  - destruct (n <? len data); [|quiet_tac].
    destruct (0 <=? n); [|quiet_tac].
    eapply lchange_after_emit; [|apply lchange_conn_willWrite]. done.
  - case_decide; [|quiet_tac].
    eapply lchange_after_emit; [|apply lchange_conn_willWrite]. done.
Qed.

Lemma step_lchange s s' : wf s → step SockaddrToAddr s s' → lchange s s'.
Proof.
  intros Hwf Hstep. destruct Hstep as [li fd k s Hf|li tag s|p data k s|li l fd p s Hl Hfd].
  - by apply lchange_OnFdEvent.
  - apply lchange_OnEvent.
  - apply lchange_conn_Write.
  - destruct (wf_entry s li l fd p Hwf Hl Hfd) as (c & Hc & <- & _).
    by eapply lchange_loopCloseConn.
Qed.

(** ** Invariants of a running server *)

Lemma shape_of_lookup (ls ls' : list loop) li l' :
  shape_of ls' = shape_of ls → ls' !! li = Some l' →
  ∃ l, ls !! li = Some l ∧ idx l = idx l' ∧ length (packet l) = length (packet l').
Proof.
  intros Hm Hl'. apply (f_equal (λ x, x !! li)) in Hm. unfold shape_of in Hm.
  rewrite !list_lookup_fmap, Hl' in Hm. destruct (ls !! li) as [l|]; [|done].
  cbn in Hm. injection Hm as H1 H2. eauto.
Qed.

Lemma lchange_idx_ok s s' : lchange s s' → idx_ok s → idx_ok s'.
Proof.
  intros (_ & Hsh & _) Hi li l' Hl'.
  destruct (shape_of_lookup _ _ _ _ Hsh Hl') as (l & Hl & <- & _). by apply Hi.
Qed.

Lemma lchange_packet_ok s s' : lchange s s' → packet_ok s → packet_ok s'.
Proof.
  intros (_ & Hsh & _) Hi li l' Hl'.
  destruct (shape_of_lookup _ _ _ _ Hsh Hl') as (l & Hl & _ & <-). by eapply Hi.
Qed.

Lemma data_fine_filter (tl : list obs) :
  Forall data_fine (List.filter is_conn_call tl) → Forall data_fine tl.
Proof.
  induction tl as [|o tl IH]; [done|]. cbn [List.filter].
  destruct (is_conn_call o) eqn:Ho.
  - intros [H1 H2]%Forall_cons. constructor; auto.
  - intros H. constructor; [by destruct o|auto].
Qed.

Lemma lchange_data_fine s s' :
  packet_ok s → lchange s s' →
  Forall data_fine (trace s) → Forall data_fine (trace s').
Proof.
  intros Hpk (_ & _ & tl & -> & Hcase) Htr. apply Forall_app. split; [done|].
  apply data_fine_filter.
  destruct Hcase as [(_ & _ & _ & ->)
    |[(li & l & l' & nfd & a & _ & _ & _ & _ & _ & _ & ->)
     |[(li & l & l' & p & c & err & _ & _ & _ & _ & _ & _ & _ & ->)
      |[(li & l & p & c & c' & _ & _ & _ & _ & _ & _ & _ & _ & _ & _ & ->)
       |(li & l & p & c & input & b & Hl & _ & _ & _ & _ & _ & _ & -> & Hne & Hlen)]]]].
  - done.
  - done.
  - unfold closed_obs. destruct (Closed (events s)); [|done].
    apply Forall_cons. by split.
  - destruct (Opened (events s)); [|done]. apply Forall_cons. by split.
  - apply Forall_cons. split; [|done]. split; [done|]. by rewrite <- (Hpk li l Hl).
Qed.

Lemma calls_of_app p (a b : list obs) :
  calls_of p (a ++ b) = calls_of p a ++ calls_of p b.
Proof. apply omap_app. Qed.

Lemma calls_of_filter p (tl : list obs) :
  calls_of p (List.filter is_conn_call tl) = calls_of p tl.
Proof.
  induction tl as [|o tl IH]; [done|]. cbn [List.filter].
  destruct o; cbn; rewrite ?IH; try done; fold (calls_of p tl);
    fold (calls_of p (List.filter is_conn_call tl)); by rewrite IH.
Qed.

Lemma run_phase_app ph (a b : list kind) :
  run_phase ph (a ++ b) =
    match run_phase ph a with Some ph' => run_phase ph' b | None => None end.
Proof.
  revert ph. induction a as [|k a IH]; intros ph; [done|]. cbn.
  destruct (next_phase ph k); [apply IH|done].
Qed.

(** The calls of [q] after a step that added [tl]. *)
Lemma calls_of_step q (tr tl f : list obs) :
  List.filter is_conn_call tl = f →
  calls_of q (tr ++ tl) = calls_of q tr ++ calls_of q f.
Proof. intros <-. by rewrite calls_of_app, calls_of_filter. Qed.

Lemma live_in_accept (ls : list loop) li l l' nfd np p :
  ls !! li = Some l → fdconns l !! nfd = None →
  fdconns l' = <[nfd := np]> (fdconns l) →
  live_in (<[li := l']> ls) p ↔ live_in ls p ∨ p = np.
Proof.
  intros Hl Hfresh Hfd'. split.
  - intros (lj & l2 & fd & Hl2 & Hp).
    destruct (insert_loop_lookup _ _ _ _ _ _ Hl Hl2) as [[-> ->]|[Hne Hl2']].
    + rewrite Hfd' in Hp. apply lookup_insert_Some in Hp as [[_ <-]|[_ Hp]]; [by right|].
      left. by exists li, l, fd.
    + left. by exists lj, l2, fd.
  - intros [(lj & l2 & fd & Hl2 & Hp)| ->].
    + destruct (decide (lj = li)) as [->|Hne].
      * exists li, l', fd. split; [by apply list_lookup_insert_eq; eapply lookup_lt_Some|].
        rewrite Hl in Hl2. injection Hl2 as <-. rewrite Hfd'.
        rewrite lookup_insert_ne; [done|]. intros <-. congruence.
      * exists lj, l2, fd. by rewrite list_lookup_insert_ne.
    + exists li, l', nfd. split; [by apply list_lookup_insert_eq; eapply lookup_lt_Some|].
      by rewrite Hfd', lookup_insert_eq.
Qed.

Lemma live_in_close s li l l' p c q :
  wf s → loops s !! li = Some l → heap s !! p = Some c →
  fdconns l !! c_fd c = Some p → fdconns l' = delete (c_fd c) (fdconns l) →
  live_in (<[li := l']> (loops s)) q ↔ live_in (loops s) q ∧ q ≠ p.
Proof.
  intros [Hm Hb] Hl Hc Hfd Hfd'. split.
  - intros (lj & l2 & fd & Hl2 & Hq).
    destruct (insert_loop_lookup _ _ _ _ _ _ Hl Hl2) as [[-> ->]|[Hne Hl2']].
    + rewrite Hfd' in Hq. apply lookup_delete_Some in Hq as [Hnfd Hq].
      split; [by exists li, l, fd|]. intros ->.
      destruct (Hm _ _ _ _ Hl Hq) as (c2 & Hc2 & Hf2 & _). congruence.
    + split; [by exists lj, l2, fd|]. intros ->.
      destruct (Hm _ _ _ _ Hl2' Hq) as (c2 & Hc2 & _ & Hlp2).
      destruct (Hm _ _ _ _ Hl Hfd) as (c3 & Hc3 & _ & Hlp3). congruence.
  - intros [(lj & l2 & fd & Hl2 & Hq) Hne].
    destruct (decide (lj = li)) as [->|Hnl].
    + exists li, l', fd. split; [by apply list_lookup_insert_eq; eapply lookup_lt_Some|].
      rewrite Hl in Hl2. injection Hl2 as <-. rewrite Hfd'.
      apply lookup_delete_Some. split; [|done]. intros <-. congruence.
    + exists lj, l2, fd. by rewrite list_lookup_insert_ne.
Qed.

Lemma lchange_lifecycle s s' :
  wf s → is_Some (Opened (events s)) → is_Some (Closed (events s)) →
  lchange s s' → lifecycle_ok s → lifecycle_ok s'.
Proof.
  intros Hwf [ocb Hocb] [ccb Hccb] (_ & _ & tl & Htr & Hcase) Hok.
  pose proof Hwf as [Hm Hb].
  destruct Hcase as [(Hmaps & Hflags & Hnp & Hf)
    |[(li & l & l' & nfd & a & Hl & Hfresh & Hls & Hfd' & Hh & Hnp & Hf)
     |[(li & l & l' & p & c & err & Hl & Hc & Hfd & Hls & Hfd' & Hh & Hnp & Hf)
      |[(li & l & p & c & c' & Hl & Hc & Hfd & Hop & Hmaps & Hh & _ & _ & Hop' & Hnp & Hf)
       |(li & l & p & c & input & b & Hl & Hc & Hfd & Hop & Hmaps & Hflags & Hnp & Hf
           & _ & _)]]]];
    intros q; rewrite Htr, (calls_of_step q _ _ _ Hf), Hnp;
    destruct (Hok q) as (HA & HB & HC).
  - (* nothing happened to the connections *)
    cbn. rewrite app_nil_r. split_and!; [|intros Hn; apply HB; intros Hlv|done].
    + intros lj l2 fd c2 Hl2 Hq Hc2.
      destruct (maps_of_lookup _ _ _ _ Hmaps Hl2) as (l1 & Hl1 & Hf1 & _).
      specialize (Hflags q). rewrite Hc2 in Hflags.
      destruct (heap s !! q) as [c1|] eqn:Hc1; [|done].
      destruct Hflags as (_ & _ & ->). eapply HA; [done| |done]. by rewrite Hf1.
    + apply Hn. by eapply live_in_maps_of.
  - (* accept *)
    cbn. rewrite app_nil_r. split_and!.
    + intros lj l2 fd c2 Hl2 Hq Hc2. rewrite Hls in Hl2. rewrite Hh in Hc2.
      assert (q = nextptr s ∧ c2 = new_conn nfd a li ∨
              (∃ l1, loops s !! lj = Some l1 ∧ fdconns l1 !! fd = Some q))
        as [[-> ->]|(l1 & Hl1 & Hq1)].
      { destruct (insert_loop_lookup _ _ _ _ _ _ Hl Hl2) as [[-> ->]|[Hne Hl2']];
          [|right; eauto].
        rewrite Hfd' in Hq. apply lookup_insert_Some in Hq as [[_ <-]|[_ Hq]];
          [|right; eauto].
        left. rewrite lookup_insert_eq in Hc2. by injection Hc2. }
      * destruct (Hok (nextptr s)) as (_ & _ & HC'). by rewrite HC'.
      * destruct (Hm _ _ _ _ Hl1 Hq1) as (c1 & Hc1 & _).
        assert (q < nextptr s)%nat by (apply Hb; eauto).
        rewrite lookup_insert_ne in Hc2 by lia. by eapply HA.
    + intros Hn Hlt. rewrite Hls in Hn.
      rewrite (live_in_accept _ _ _ _ _ _ _ Hl Hfresh Hfd') in Hn.
      apply HB; [tauto|]. destruct (decide (q = nextptr s)); [tauto|lia].
    + intros Hge. apply HC. lia.
  - (* close *)
    assert (calls_of q (closed_obs s p err) = if Nat.eqb q p then [KClosed] else [])
      as ->.
    { unfold closed_obs. rewrite Hccb. cbn. by destruct (Nat.eqb q p). }
    assert (p < nextptr s)%nat as Hlt by (apply Hb; eauto).
    rewrite Hls, Hh. split_and!.
    + intros lj l2 fd c2 Hl2 Hq Hc2.
      assert (live_in (<[li := l']> (loops s)) q) as Hlv by (by exists lj, l2, fd).
      apply (live_in_close s li l l' p c q Hwf Hl Hc Hfd Hfd') in Hlv as [_ Hne].
      apply Nat.eqb_neq in Hne. rewrite Hne, app_nil_r.
      destruct (insert_loop_lookup _ _ _ _ _ _ Hl Hl2) as [[-> ->]|[Hnl Hl2']].
      * rewrite Hfd' in Hq. apply lookup_delete_Some in Hq as [_ Hq]. by eapply HA.
      * by eapply HA.
    + intros Hn Hlt'. rewrite (live_in_close s li l l' p c q Hwf Hl Hc Hfd Hfd') in Hn.
      destruct (Nat.eqb_spec q p) as [->|Hne].
      * rewrite run_phase_app, (HA li l (c_fd c) c Hl Hfd Hc). by destruct (opened c).
      * rewrite app_nil_r. apply HB; [tauto|done].
    + intros Hge. destruct (Nat.eqb_spec q p) as [->|Hne]; [lia|].
      rewrite app_nil_r. by apply HC.
  - (* the connection is opened *)
    assert (calls_of q
              match Opened (events s) with Some _ => [CallOpened p] | None => [] end
            = if Nat.eqb q p then [KOpened] else []) as ->.
    { rewrite Hocb. cbn. by destruct (Nat.eqb q p). }
    assert (p < nextptr s)%nat as Hlt by (apply Hb; eauto).
    rewrite Hh. split_and!.
    + intros lj l2 fd c2 Hl2 Hq Hc2.
      destruct (maps_of_lookup _ _ _ _ Hmaps Hl2) as (l1 & Hl1 & Hf1 & _).
      rewrite <- Hf1 in Hq.
      destruct (Nat.eqb_spec q p) as [->|Hne].
      * rewrite lookup_insert_eq in Hc2. injection Hc2 as <-. rewrite Hop'.
        rewrite run_phase_app, (HA li l (c_fd c) c Hl Hfd Hc), Hop. done.
      * rewrite lookup_insert_ne in Hc2 by done. rewrite app_nil_r. by eapply HA.
    + intros Hn Hlt'. assert (¬ live_in (loops s) q) as Hn'.
      { intros Hlv. apply Hn. eapply live_in_maps_of; [|done]. done. }
      destruct (Nat.eqb_spec q p) as [->|Hne].
      * exfalso. apply Hn'. by exists li, l, (c_fd c).
      * rewrite app_nil_r. by apply HB.
    + intros Hge. destruct (Nat.eqb_spec q p) as [->|Hne]; [lia|].
      rewrite app_nil_r. by apply HC.
  - (* [Data] for an opened connection *)
    assert (calls_of q [CallData p input b] = if Nat.eqb q p then [KData] else [])
      as ->.
    { cbn. by destruct (Nat.eqb q p). }
    assert (p < nextptr s)%nat as Hlt by (apply Hb; eauto).
    split_and!.
    + intros lj l2 fd c2 Hl2 Hq Hc2.
      destruct (maps_of_lookup _ _ _ _ Hmaps Hl2) as (l1 & Hl1 & Hf1 & _).
      rewrite <- Hf1 in Hq.
      pose proof (Hflags q) as Hfl. rewrite Hc2 in Hfl.
      destruct (Nat.eqb_spec q p) as [->|Hne].
      * rewrite Hc in Hfl. destruct Hfl as (_ & _ & ->).
        rewrite run_phase_app, (HA li l (c_fd c) c Hl Hfd Hc), Hop. done.
      * destruct (heap s !! q) as [c1|] eqn:Hc1; [|done].
        destruct Hfl as (_ & _ & ->). rewrite app_nil_r. by eapply HA.
    + intros Hn Hlt'. assert (¬ live_in (loops s) q) as Hn'.
      { intros Hlv. apply Hn. eapply live_in_maps_of; [|done]. done. }
      destruct (Nat.eqb_spec q p) as [->|Hne].
      * exfalso. apply Hn'. by exists li, l, (c_fd c).
      * rewrite app_nil_r. by apply HB.
    + intros Hge. destruct (Nat.eqb_spec q p) as [->|Hne]; [lia|].
      rewrite app_nil_r. by apply HC.
Qed.

(** *** What [serve] hands to the loops *)

Lemma serve_events ev (lsn : listener) (u : U) :
  events (serve NumCPU ev lsn u).1 = ev.
Proof.
  unfold serve. destruct (Serving ev) as [cb|]; [|done].
  destruct (cb _ _) as [u' a]. by destruct a.
Qed.

Lemma serve_loops ev (lsn : listener) (u : U) :
  loops (serve NumCPU ev lsn u).1 = [] ∨
  loops (serve NumCPU ev lsn u).1
  = newLoop (ln_fd lsn) <$> seqZ 0 (serve_numLoops NumCPU ev).
Proof.
  unfold serve. destruct (Serving ev) as [cb|]; [|by right].
  destruct (cb _ _) as [u' a]. destruct a; auto.
Qed.

Lemma serve_trace ev (lsn : listener) (u : U) :
  List.filter is_conn_call (trace (serve NumCPU ev lsn u).1) = [].
Proof.
  unfold serve. destruct (Serving ev) as [cb|]; [|done].
  destruct (cb _ _) as [u' a]. by destruct a.
Qed.

Lemma serve_idx_ok ev (lsn : listener) (u : U) : idx_ok (serve NumCPU ev lsn u).1.
Proof.
  intros li l Hl. destruct (serve_loops ev lsn u) as [Hls|Hls]; rewrite Hls in Hl; [done|].
  apply list_lookup_fmap_Some in Hl as (i & -> & Hi).
  apply lookup_seqZ in Hi as [-> _]. cbn [idx newLoop]. lia.
Qed.

Lemma serve_packet_ok ev (lsn : listener) (u : U) : packet_ok (serve NumCPU ev lsn u).1.
Proof.
  intros li l Hl. destruct (serve_loops ev lsn u) as [Hls|Hls]; rewrite Hls in Hl; [done|].
  apply list_lookup_fmap_Some in Hl as (i & -> & Hi).
  cbn [packet newLoop]. apply length_replicate.
Qed.

Lemma serve_lifecycle_ok ev (lsn : listener) (u : U) :
  lifecycle_ok (serve NumCPU ev lsn u).1.
Proof.
  destruct (serve_pristine NumCPU ev lsn u) as (_ & Hnp & Hemp & _).
  assert (∀ p, calls_of p (trace (serve NumCPU ev lsn u).1) = []) as Hcalls.
  { intros p. by rewrite <- calls_of_filter, serve_trace. }
  intros p. rewrite Hcalls, Hnp. split_and!; [|lia|done].
  intros li l fd c Hl Hfd. destruct (Hemp _ _ Hl) as [Hf _]. by rewrite Hf in Hfd.
Qed.

Lemma rtc_step_shape s0 s :
  rtc (step SockaddrToAddr) s0 s → wf s0 →
  shape_of (loops s) = shape_of (loops s0) ∧
  (packet_ok s0 → Forall data_fine (trace s0) → Forall data_fine (trace s)).
Proof.
  induction 1 as [s|s1 s2 s3 Hstep _ IH]; [done|].
  intros Hwf. pose proof (step_lchange _ _ Hwf Hstep) as Hlch.
  pose proof (step_change _ _ _ Hwf Hstep) as Hch.
  destruct (IH (change_wf _ _ Hwf Hch)) as [Hsh Hdata]. split.
  - rewrite Hsh. apply Hlch.
  - intros Hpk Htr. apply Hdata; [by eapply lchange_packet_ok|].
    by eapply lchange_data_fine.
Qed.

Lemma rtc_step_lifecycle s0 s :
  rtc (step SockaddrToAddr) s0 s → wf s0 →
  is_Some (Opened (events s0)) → is_Some (Closed (events s0)) →
  lifecycle_ok s0 → lifecycle_ok s.
Proof.
  induction 1 as [s|s1 s2 s3 Hstep _ IH]; [done|].
  intros Hwf Ho Hc Hok. pose proof (step_lchange _ _ Hwf Hstep) as Hlch.
  pose proof (step_change _ _ _ Hwf Hstep) as Hch.
  assert (events s2 = events s1) as Hev by apply Hlch.
  apply IH; rewrite ?Hev; try done.
  - by eapply change_wf.
  - by eapply lchange_lifecycle.
Qed.

Lemma running_wf ev (lsn : listener) (u : U) s :
  running SockaddrToAddr NumCPU ev lsn u s → wf s ∧ events s = ev.
Proof.
  intros Hrun. rewrite <- (serve_events ev lsn u).
  eapply rtc_step_wf; [exact Hrun|]. apply pristine_wf, serve_pristine.
Qed.

Lemma running_idx_ok ev (lsn : listener) (u : U) s :
  running SockaddrToAddr NumCPU ev lsn u s → idx_ok s ∧ packet_ok s.
Proof.
  intros Hrun.
  destruct (rtc_step_shape _ _ Hrun) as [Hsh _]; [apply pristine_wf, serve_pristine|].
  split; intros li l Hl;
    destruct (shape_of_lookup _ _ _ _ Hsh Hl) as (l0 & Hl0 & Hi & Hp).
  - rewrite <- Hi. by eapply serve_idx_ok.
  - rewrite <- Hp. by eapply serve_packet_ok.
Qed.

Lemma do_accept_length li k s :
  length (loops (do_accept li k s).1) = length (loops s).
Proof.
  unfold do_accept. destruct (k_accept k) as [[nfd a]|err]; [|by case_decide].
  destruct (k_setnonblock k); [done|]. st_simpl. by rewrite !length_alter.
Qed.

(** X13.  The loops of a running server are the loops [serve] built: their
    number never changes, [l.idx] is the position of the loop in [s.loops],
    and every loop reads into a packet buffer of [0xFFFF] bytes. *)
Theorem loops_keep_their_shape ev (lsn : listener) (u : U) s :
  running SockaddrToAddr NumCPU ev lsn u s →
  length (loops s) = length (loops (serve NumCPU ev lsn u).1) ∧
  (∀ li l, loops s !! li = Some l →
     idx l = Z.of_nat li ∧ length (packet l) = Z.to_nat 65535).
Proof.
  intros Hrun. split.
  - destruct (rtc_step_shape _ _ Hrun) as [Hsh _]; [apply pristine_wf, serve_pristine|].
    apply (f_equal length) in Hsh. unfold shape_of in Hsh.
    by rewrite !length_fmap in Hsh.
  - intros li l Hl. destruct (running_idx_ok _ _ _ _ Hrun) as [Hi Hp].
    split; [by apply Hi|by eapply Hp].
Qed.

(** X14.  In a running server the [Data] callback is never handed an empty
    input, and never more than [0xFFFF] bytes. *)
Theorem data_is_never_empty ev (lsn : listener) (u : U) s p input b :
  running SockaddrToAddr NumCPU ev lsn u s →
  CallData p input b ∈ trace s →
  input ≠ [] ∧ (length input ≤ Z.to_nat 65535)%nat.
Proof.
  intros Hrun Hin.
  destruct (rtc_step_shape _ _ Hrun) as [_ Hdata]; [apply pristine_wf, serve_pristine|].
  assert (Forall data_fine (trace s)) as Hall.
  { apply Hdata; [apply serve_packet_ok|].
    apply data_fine_filter. by rewrite serve_trace. }
  rewrite Forall_forall in Hall. apply (Hall _ Hin).
Qed.

(** X15.  With [Opened] and [Closed] set, the callbacks of every connection
    of a running server come in the order [Opened], any number of [Data],
    [Closed]: a connection in a map that is not yet opened has seen no
    callback, an opened one has seen [Opened] and then only [Data], one that
    left the maps has seen [Closed] last and exactly once, and [Closed] may
    come without [Opened] or [Data] before it. *)
Theorem callbacks_follow_lifecycle ev (lsn : listener) (u : U) s :
  running SockaddrToAddr NumCPU ev lsn u s →
  is_Some (Opened ev) → is_Some (Closed ev) → lifecycle_ok s.
Proof.
  intros Hrun Ho Hc. eapply rtc_step_lifecycle; [exact Hrun|..].
  - apply pristine_wf, serve_pristine.
  - by rewrite serve_events.
  - by rewrite serve_events.
  - apply serve_lifecycle_ok.
Qed.

(** X16.  In a running server a connection in a loop's map is owned by that
    loop alone: its object carries the fd it is filed under and points to
    this loop, and it is in no other map and under no other fd. *)
Theorem conn_has_one_owner ev (lsn : listener) (u : U) s li l fd p :
  running SockaddrToAddr NumCPU ev lsn u s →
  loops s !! li = Some l → fdconns l !! fd = Some p →
  (∃ c, heap s !! p = Some c ∧ c_fd c = fd ∧ c_loop c = li) ∧
  (∀ li' l' fd', loops s !! li' = Some l' → fdconns l' !! fd' = Some p →
     li' = li ∧ fd' = fd).
Proof.
  intros Hrun Hl Hfd. destruct (running_wf _ _ _ _ Hrun) as [Hwf _].
  destruct (wf_entry s li l fd p Hwf Hl Hfd) as (c & Hc & Hcfd & Hcl).
  split; [by exists c|]. intros li' l' fd' Hl' Hfd'.
  destruct (wf_entry s li' l' fd' p Hwf Hl' Hfd') as (c' & Hc' & Hcfd' & Hcl').
  rewrite Hc in Hc'. injection Hc' as <-. by rewrite <- Hcfd, <- Hcl.
Qed.

(** X17.  Under [RoundRobin] with more than one loop, the turns of a running
    server go round the loops in list order: with the counter below
    [2^63 - 1], only the loop at position [accepted mod N] attempts the
    accept, every other loop returns at once and changes nothing, and after
    the attempt the turn is with the loop at the next position, the first
    one after the last. *)
Theorem round_robin_rotates ev (lsn : listener) (u : U) s li l k :
  running SockaddrToAddr NumCPU ev lsn u s →
  balance s = RoundRobin → 1 < len (loops s) →
  0 ≤ accepted s < 2 ^ 63 - 1 → loops s !! li = Some l →
  let N := len (loops s) in
  (Z.of_nat li ≠ accepted s mod N → loopAccept li k s = (s, Ret None)) ∧
  (Z.of_nat li = accepted s mod N →
     accepted (loopAccept li k s).1 = accepted s + 1 ∧
     len (loops (loopAccept li k s).1) = N ∧
     rr_turn (loopAccept li k s).1 = (Z.of_nat li + 1) mod N).
Proof.
  intros Hrun Hb Hn Hacc Hl N.
  destruct (running_idx_ok _ _ _ _ Hrun) as [Hidx _].
  pose proof (Hidx li l Hl) as Hi.
  assert (rr_turn s = accepted s mod N) as Hturn by (apply rr_turn_mod; lia).
  unfold loopAccept. rewrite Hl, Hb, Hturn.
  destruct (Z.ltb_spec 1 (len (loops s))); [|lia]. fold N. rewrite Hi.
  split.
  - intros Hne. by destruct (Z.eqb_spec (accepted s mod N) (Z.of_nat li)).
  - intros Heq. destruct (Z.eqb_spec (accepted s mod N) (Z.of_nat li)); [|done].
    cbn [negb].
    assert (wrap_uintptr (accepted s + 1) = accepted s + 1) as Hw.
    { unfold wrap_uintptr. apply Z.mod_small. lia. }
    rewrite Hw.
    set (s1 := (do_accept li k (set_accepted (accepted s + 1) s)).1).
    assert (accepted s1 = accepted s + 1) as Ha
      by (unfold s1; by rewrite do_accept_accepted).
    assert (len (loops s1) = N) as Hlen.
    { unfold s1, len. by rewrite do_accept_length. }
    split; [done|]. split; [done|].
    rewrite rr_turn_mod by (rewrite ?Ha, ?Hlen; lia).
    rewrite Ha, Hlen, Heq. by rewrite Zplus_mod_idemp_l.
Qed.

End Further.

(** * The further properties at concrete servers *)

(** Loop 0 of two has one connection, loop 1 has none: loop 0 declines. *)
Lemma least_connections_gate_witness :
  loopAccept 0 Fixtures.k_eagain Scenes.lc2_accepted
  = (Scenes.lc2_accepted, Ret None).
Proof.
  odestruct (least_connections_gate Scenes.lc2_accepted 0%nat _ Fixtures.k_eagain)
    as (H & _).
  - reflexivity.
  - by vm_compute.
  - reflexivity.
  - apply H. eexists. split; [apply list_elem_of_lookup_2 with 1%nat; reflexivity|].
    split; by vm_compute.
Defined.

(** Nothing to accept on the only loop. *)
Lemma accept_failures_witness :
  loopAccept 0 Fixtures.k_eagain Fixtures.one
  = (emit (SysAccept 3) Fixtures.one, Ret None).
Proof.
  odestruct (accept_failures Fixtures.one 0%nat _ Fixtures.k_eagain) as (H & _).
  - reflexivity.
  - left. by vm_compute.
  - apply (H EAGAIN). reflexivity.
Defined.


(** [greeter] asks for keep-alive on a TCP listener. *)
Lemma opened_transition_witness :
  let r := OnFdEvent id 0 5 (Fixtures.k_ok 5 0 []) Fixtures.greeting_accepted in
  r.2 = Ret None ∧
  new_obs Fixtures.greeting_accepted r.1 = [CallOpened 0%nat; SysSetKeepAlive 5 300].
Proof.
  odestruct (opened_transition id Fixtures.greeting_accepted 0%nat _ 5 0%nat _
               (Fixtures.k_ok 5 0 []) _) as (H1 & _ & H3 & _).
  - reflexivity.
  - by vm_compute.
  - reflexivity.
  - reflexivity.
  - reflexivity.
  - reflexivity.
  - cbv zeta. split; [exact H1|exact H3].
Defined.

(** The buffer is empty and [Close] is pending; [Closed] asks to shut down. *)
Lemma action_transition_witness :
  let r := OnFdEvent id 0 5 Fixtures.k_eagain Scenes.closing_drained in
  r.2 = Ret (Some errClosing) ∧
  new_obs Scenes.closing_drained r.1 = [SysClose 5; CallClosed 0%nat None].
Proof.
  odestruct (action_transition id Scenes.closing_drained 0%nat _ 5 0%nat _
               Fixtures.k_eagain) as ((H1 & _ & _ & H4) & _).
  - reflexivity.
  - by vm_compute.
  - reflexivity.
  - reflexivity.
  - reflexivity.
  - discriminate.
  - reflexivity.
  - cbv zeta. split; [exact H1|exact H4].
Defined.

(** Three bytes and a [Close] pending: first the write, then the close. *)
Lemma close_waits_for_drain_witness :
  let r1 := OnFdEvent id 0 5 (Fixtures.k_ok 6 3 []) Scenes.closing_opened in
  let r2 := OnFdEvent id 0 5 Fixtures.k_eagain r1.1 in
  r1.2 = Ret None ∧
  new_obs Scenes.closing_opened r1.1 = [SysWrite 5 [x62; x79; x65]] ∧
  new_obs r1.1 r2.1 = [SysClose 5; CallClosed 0%nat None].
Proof.
  odestruct (close_waits_for_drain id Scenes.closing_opened 0%nat _ 5 0%nat _
               (Fixtures.k_ok 6 3 []) Fixtures.k_eagain)
    as (H1 & _ & _ & H4 & _ & _ & _ & H8).
  - reflexivity.
  - by vm_compute.
  - reflexivity.
  - reflexivity.
  - discriminate.
  - reflexivity.
  - reflexivity.
  - cbv zeta. split; [exact H1|]. split; [exact H4|exact H8].
Defined.

(** The greeting of two bytes goes out one byte at a time. *)
Lemma write_progress_witness :
  let r1 := OnFdEvent id 0 5 (Fixtures.k_ok 6 1 []) Fixtures.greeting_opened in
  let r2 := OnFdEvent id 0 5 (Fixtures.k_ok 6 1 []) r1.1 in
  r1.2 = Ret None ∧ r2.2 = Ret None ∧
  new_obs Fixtures.greeting_opened r2.1 = [SysWrite 5 [x68; x69]; SysWrite 5 [x69]].
Proof.
  odestruct (write_progress id Fixtures.greeting_opened 0%nat _ 5 0%nat _
               (Fixtures.k_ok 6 1 []) (Fixtures.k_ok 6 1 []) 1 1)
    as (H1 & H2 & H3 & _).
  - reflexivity.
  - by vm_compute.
  - reflexivity.
  - reflexivity.
  - reflexivity.
  - by vm_compute.
  - reflexivity.
  - by vm_compute.
  - cbv zeta. split; [exact H1|]. split; [exact H2|exact H3].
Defined.

(** One byte is read, echoed by [Data], and written in full. *)
Lemma data_reply_is_written_witness :
  let r1 := OnFdEvent id 0 5 (Scenes.k_reads [x61]) Fixtures.one_opened in
  let r2 := OnFdEvent id 0 5 (Fixtures.k_ok 6 1 []) r1.1 in
  r1.2 = Ret None ∧ r2.2 = Ret None ∧
  new_obs Fixtures.one_opened r2.1
  = [SysRead 5; CallData 0%nat [x61] false; SysWrite 5 [x61]].
Proof.
  odestruct (data_reply_is_written id Fixtures.one_opened 0%nat _ 5 0%nat _
               (Scenes.k_reads [x61]) (Fixtures.k_ok 6 1 []) [x61] _)
    as (H1 & H2 & H3 & _).
  - reflexivity.
  - by vm_compute.
  - reflexivity.
  - reflexivity.
  - reflexivity.
  - reflexivity.
  - reflexivity.
  - reflexivity.
  - discriminate.
  - by vm_compute.
  - discriminate.
  - reflexivity.
  - cbv zeta. split; [exact H1|]. split; [exact H2|exact H3].
Defined.

(** A write of two bytes takes one; the loop then picks up the other. *)
Lemma write_then_deliver_witness :
  let r1 := conn_Write 0%nat [x61; x62] (Fixtures.k_ok 6 1 []) Fixtures.one_opened in
  let r2 := OnEvent 0 EventWrite r1.1 in
  r1.2 = Ret None ∧ r2.2 = Ret None ∧ out <$> heap r2.1 !! 0%nat = Some [x62].
Proof.
  odestruct (write_then_deliver Fixtures.one_opened 0%nat _ _ [x61; x62]
               (Fixtures.k_ok 6 1 []) [x62]) as (H1 & _ & H3 & _).
  - reflexivity.
  - reflexivity.
  - by vm_compute.
  - reflexivity.
  - right. exists 1. split; [reflexivity|]. split; [by vm_compute|reflexivity].
  - destruct H3 as (H3 & H4 & _); [reflexivity|].
    cbv zeta. split; [exact H1|]. split; [exact H3|].
    refine (eq_trans (f_equal (λ h, out <$> h !! 0%nat) H4) _).
    by rewrite lookup_insert_eq.
Defined.

(** A tick of [closer] publishes a delay of one second. *)
Lemma user_event_tags_witness :
  OnEvent 0 EventClose Scenes.closing = (Scenes.closing, Ret (Some errClosing)) ∧
  (OnEvent 0 EventTick Scenes.closing).2 = Ret None ∧
  tch (OnEvent 0 EventTick Scenes.closing).1 = [second].
Proof.
  odestruct (user_event_tags Scenes.closing 0%nat _) as (H1 & _ & H3).
  - reflexivity.
  - odestruct (H3 _ _) as (_ & _ & _ & _ & _ & H4 & H5); [reflexivity| |].
    + discriminate.
    + split; [exact H1|]. split; [exact H4|exact H5].
Defined.

(** The peer hangs up: a read of zero bytes. *)
Lemma close_from_event_witness :
  let r := OnFdEvent id 0 5 (Scenes.k_reads []) Fixtures.one_opened in
  r.2 = Ret None ∧ heap r.1 = heap Fixtures.one_opened ∧
  loopRun id 0 [FdReady 5 (Scenes.k_reads [])] Fixtures.one_opened
  = loopRun id 0 [] r.1.
Proof.
  odestruct (close_from_event id Fixtures.one_opened 0%nat _ 5 0%nat _
               (Scenes.k_reads []) None []) as (_ & H2 & _ & _ & H5).
  - reflexivity.
  - by vm_compute.
  - reflexivity.
  - reflexivity.
  - right. right. left. split_and!; reflexivity.
  - destruct H5 as [H5 H6]; [intros cb [= <-]; discriminate|].
    cbv zeta. split; [exact H5|]. split; [exact H2|exact H6].
Defined.

(** Facts about the further servers. *)

Lemma one_accepted_running :
  running id 4 (Fixtures.quiet 1 Random) Fixtures.ln0 0%nat Fixtures.one_accepted.
Proof. apply rtc_once, one_accepted_step. Qed.

Lemma one_read_running :
  running id 4 (Fixtures.quiet 1 Random) Fixtures.ln0 0%nat Scenes.one_read.
Proof.
  apply (rtc_l _ _ Fixtures.one_accepted); [apply one_accepted_step|].
  apply (rtc_l _ _ Fixtures.one_opened).
  { apply (step_fd id 0%nat 5 Fixtures.k_eagain Fixtures.one_accepted).
    by intros ????. }
  apply rtc_once.
  apply (step_fd id 0%nat 5 (Scenes.k_reads [x61]) Fixtures.one_opened).
  by intros ????.
Qed.

(** After the first accept of [one]. *)
Lemma loops_keep_their_shape_witness :
  length (loops Fixtures.one_accepted) = length (loops Fixtures.one) ∧
  (∀ li l, loops Fixtures.one_accepted !! li = Some l →
     idx l = Z.of_nat li ∧ length (packet l) = Z.to_nat 65535).
Proof.
  apply (loops_keep_their_shape id 4 (Fixtures.quiet 1 Random) Fixtures.ln0 0%nat).
  apply one_accepted_running.
Defined.

(** The one byte that [one_read] handed to [Data]. *)
Lemma data_is_never_empty_witness :
  [x61] ≠ [] ∧ (length [x61] ≤ Z.to_nat 65535)%nat.
Proof.
  apply (data_is_never_empty id 4 (Fixtures.quiet 1 Random) Fixtures.ln0 0%nat
           Scenes.one_read 0%nat [x61] false).
  - apply one_read_running.
  - apply list_elem_of_lookup_2 with 5%nat. reflexivity.
Defined.

(** Accepted, opened, and one [Data]. *)
Lemma callbacks_follow_lifecycle_witness : lifecycle_ok Scenes.one_read.
Proof.
  apply (callbacks_follow_lifecycle id 4 (Fixtures.quiet 1 Random) Fixtures.ln0 0%nat).
  - apply one_read_running.
  - by eexists.
  - by eexists.
Defined.

(** The connection accepted by [one] on fd 5. *)
Lemma conn_has_one_owner_witness :
  (∃ c, heap Fixtures.one_accepted !! 0%nat = Some c ∧ c_fd c = 5 ∧ c_loop c = 0%nat) ∧
  (∀ li' l' fd', loops Fixtures.one_accepted !! li' = Some l' →
     fdconns l' !! fd' = Some 0%nat → li' = 0%nat ∧ fd' = 5).
Proof.
  eapply (conn_has_one_owner id 4 (Fixtures.quiet 1 Random) Fixtures.ln0 0%nat
            Fixtures.one_accepted 0%nat _ 5 0%nat).
  - apply one_accepted_running.
  - reflexivity.
  - by vm_compute.
Defined.

(** Loop 0 of two takes the first turn; the second is with loop 1. *)
Lemma round_robin_rotates_witness :
  accepted (loopAccept 0 Fixtures.k_eagain Fixtures.rr2).1 = 1 ∧
  rr_turn (loopAccept 0 Fixtures.k_eagain Fixtures.rr2).1 = 1.
Proof.
  odestruct (round_robin_rotates id 4 (Fixtures.quiet 2 RoundRobin) Fixtures.ln0 0%nat
               Fixtures.rr2 0%nat _ Fixtures.k_eagain) as (_ & H).
  - apply rtc_refl.
  - reflexivity.
  - by vm_compute.
  - by vm_compute.
  - reflexivity.
  - destruct H as (H1 & _ & H3); [by vm_compute|]. split; [exact H1|exact H3].
Defined.
